(** * opor: a shallow embedding of the reactive adapter

    The development follows the TypeScript sources of the repository:

    - [src/utils.ts]       structural equality ([deepEqual]);
    - [src/types.ts]       the changeset serialisation helpers
                           ([jsonStringifyWithBigInt], [jsonParseWithBigInt]);
    - [src/sync.ts]        [getChangeset], [applyChangeset];
    - [src/live-query.ts]  [extractTableNames], [createLiveQuery],
                           [notifySubscribers], [refetch];
    - [src/db.ts]          [onTablesChanged] (the same function is in
                           [src/driver.ts]);
    - [src/session.ts]     [CRSQLitePreparedQuery] and its four execution modes,
                           [CRSQLiteSession.transaction] and
                           [CRSQLiteTransaction.transaction];
    - [src/migrator.ts]    [migrate].

    Conventions of the embedding.

    - JavaScript values are trees ([value]) of data: they hold no
      functions.  Objects are association lists in property order; arrays
      are lists.  Reference identity is not part of the model: two values
      are the same value when they are the same tree, and two trees stand
      for two objects.
    - A JavaScript number is kept as an exact decimal, in the form the
      language's own [Number::toString] works on: a sign, the significant
      digits and the position of the decimal point.  Binary rounding is not
      modelled.
    - Strings are sequences of 8-bit code units ([string]).  Where a text
      of such code units denotes a string with a code unit above 255, the
      model gives no answer ([Beyond]).
    - Code that can throw lives in a small state-and-exception monad
      ([Comp]); an [await] is a point where a computation is cut in two, the
      promise's outcome being the argument of the second half. *)

From Stdlib Require Import List String Ascii ZArith Bool Lia Permutation Sorted.
From Stdlib Require Import DecimalString.
From Stdlib Require DecimalN DecimalFacts DecimalPos.
From stdpp Require Import base option list gmap strings.
Import ListNotations.

Open Scope string_scope.
Open Scope list_scope.
Open Scope Z_scope.

(* ===================================================================== *)
(** * JavaScript values *)
(* ===================================================================== *)

(** A finite number is [± 0.d1 d2 ... dk * 10 ^ point]; the digits are the
    characters ["0"] to ["9"], the first and the last one are not ["0"], and
    zero is the empty digit sequence with [point = 0]. *)
Inductive number : Type :=
| NaN
| Finite (neg : bool) (digits : list ascii) (point : Z).

Unset Elimination Schemes.
Inductive value : Type :=
| VUndefined
| VNull
| VBool (b : bool)
| VNum (n : number)
| VBigInt (z : Z)
| VStr (s : string)
| VArr (elems : list value)
| VObj (props : list (string * value)).
Set Elimination Schemes.

(** An [Error] object: [name] and [message]. *)
Record JSError : Type := mkError { err_name : string; err_message : string }.

(** What a [throw] can carry: an [Error] instance or any other value of the
    model, that is a primitive or an array or object of data. *)
Inductive thrown : Type :=
| ThrowError (e : JSError)
| ThrowValue (v : value).

(** Completion of a piece of code: normal, or abrupt by [throw]. *)
Inductive completion (A : Type) : Type :=
| Normal (a : A)
| Throw (t : thrown).
Arguments Normal {A} a.
Arguments Throw {A} t.

(** The outcome of a promise that has settled. *)
Inductive outcome (A : Type) : Type :=
| Fulfilled (a : A)
| Rejected (t : thrown).
Arguments Fulfilled {A} a.
Arguments Rejected {A} t.

(** ** Digits and decimal text *)

Definition is_digit (c : ascii) : bool :=
  let n := nat_of_ascii c in (48 <=? n)%nat && (n <=? 57)%nat.

Definition zero_char : ascii := "0"%char.

Definition is_zero_char (c : ascii) : bool := Ascii.eqb c zero_char.

(** Decimal text of a natural number, as [BigInt.prototype.toString] and
    [Number::toString] write an integer: no sign, no leading zero, ["0"] for
    zero. *)
Definition digits_of_N (n : N) : list ascii :=
  list_ascii_of_string (NilZero.string_of_uint (N.to_uint n)).

Definition digits_of_Z (z : Z) : list ascii :=
  match z with
  | Z0 => digits_of_N 0
  | Zpos p => digits_of_N (Npos p)
  | Zneg p => "-"%char :: digits_of_N (Npos p)
  end.

(** The number a run of decimal digits denotes; leading zeros are allowed,
    the empty run and a run with another character denote nothing. *)
Definition N_of_digits (ds : list ascii) : option N :=
  match ds with
  | [] => None
  | _ => option_map N.of_uint (NilEmpty.uint_of_string (string_of_list_ascii ds))
  end.

Fixpoint strip_zeros (ds : list ascii) : list ascii :=
  match ds with
  | c :: ds' => if is_zero_char c then strip_zeros ds' else ds
  | [] => []
  end.

Definition strip_trailing_zeros (ds : list ascii) : list ascii :=
  rev (strip_zeros (rev ds)).

Definition zeros (n : nat) : list ascii := repeat zero_char n.

(** The number with integer value [z]. *)
Definition num_of_Z (z : Z) : number :=
  match z with
  | Z0 => Finite false [] 0
  | _ =>
      let ds := digits_of_N (Z.abs_N z) in
      Finite (z <? 0) (strip_trailing_zeros ds) (Z.of_nat (length ds))
  end.

(** [Number::toString] (ECMA-262, radix 10) on the digits [s] (there are [k]
    of them) and the point position [n]. *)
Definition number_text (s : list ascii) (n : Z) : list ascii :=
  let k := Z.of_nat (length s) in
  if (k <=? n) && (n <=? 21) then
    s ++ zeros (Z.to_nat (n - k))
  else if (0 <? n) && (n <=? 21) then
    firstn (Z.to_nat n) s ++ "."%char :: skipn (Z.to_nat n) s
  else if (-6 <? n) && (n <=? 0) then
    "0"%char :: "."%char :: zeros (Z.to_nat (- n)) ++ s
  else
    let e := n - 1 in
    let sign := if e <? 0 then "-"%char else "+"%char in
    let expo := "e"%char :: sign :: digits_of_N (Z.abs_N e) in
    match s with
    | [d] => d :: expo
    | d :: rest => d :: "."%char :: rest ++ expo
    | [] => expo
    end.

Definition Number_toString (x : number) : list ascii :=
  match x with
  | NaN => list_ascii_of_string "NaN"
  | Finite _ [] _ => [zero_char]
  | Finite neg s n =>
      (if neg then ["-"%char] else []) ++ number_text s n
  end.

(** ** [String(v)] *)

(** [Get(o, key)] on an own data property of an object. *)
Fixpoint own_property (key : string) (props : list (string * value)) : option value :=
  match props with
  | [] => None
  | (k, v) :: rest => if String.eqb k key then Some v else own_property key rest
  end.

Definition join_with (sep : list ascii) (parts : list (list ascii)) : list ascii :=
  match parts with
  | [] => []
  | p :: ps => p ++ flat_map (fun q => sep ++ q) ps
  end.

(** [ToString] on a value; [None] is the [TypeError] of [ToPrimitive].

    An array is converted by [Array.prototype.toString]: its elements
    joined by commas, with [null] and [undefined] elements written as the
    empty string; the conversion of an element may throw.

    An object is converted by [OrdinaryToPrimitive], which tries the
    methods [toString] and [valueOf] in this order.  The values of the
    model hold data, no functions: an own property [toString] is therefore
    not callable and hides [Object.prototype.toString]; [valueOf], own
    (not callable) or inherited (it returns the object), yields no
    primitive either, and the conversion throws.  Without an own
    [toString] the inherited method writes ["[object Object]"]. *)
Fixpoint ToString (v : value) : option (list ascii) :=
  match v with
  | VUndefined => Some (list_ascii_of_string "undefined")
  | VNull => Some (list_ascii_of_string "null")
  | VBool true => Some (list_ascii_of_string "true")
  | VBool false => Some (list_ascii_of_string "false")
  | VNum n => Some (Number_toString n)
  | VBigInt z => Some (digits_of_Z z)
  | VStr s => Some (list_ascii_of_string s)
  | VArr elems =>
      option_map (join_with [","%char])
        ((fix parts (es : list value) : option (list (list ascii)) :=
            match es with
            | [] => Some []
            | e :: es' =>
                match (match e with
                       | VUndefined | VNull => Some []
                       | _ => ToString e
                       end) with
                | Some p => option_map (cons p) (parts es')
                | None => None
                end
            end) elems)
  | VObj props =>
      match own_property "toString" props with
      | Some _ => None
      | None => Some (list_ascii_of_string "[object Object]")
      end
  end.

(** The [TypeError] of a conversion that yields no primitive; its message
    is the engine's. *)
Definition TypeError : thrown := ThrowError (mkError "TypeError" "").

(** [String(v)] *)
Definition js_String (v : value) : completion string :=
  match ToString v with
  | Some s => Normal (string_of_list_ascii s)
  | None => Throw TypeError
  end.

(** [e instanceof Error ? e : new Error(String(e))] *)
Definition toError (t : thrown) : completion JSError :=
  match t with
  | ThrowError e => Normal e
  | ThrowValue v =>
      match js_String v with
      | Normal message => Normal (mkError "Error" message)
      | Throw t' => Throw t'
      end
  end.

(* ===================================================================== *)
(** * src/utils.ts: structural equality *)
(* ===================================================================== *)

Definition number_eqb (x y : number) : bool :=
  match x, y with
  | Finite n1 ds1 p1, Finite n2 ds2 p2 =>
      Bool.eqb n1 n2 && bool_decide (ds1 = ds2) && (p1 =? p2)
  | _, _ => false
  end.

(** [a === b] on primitives.  [NaN] is not equal to itself.  For two arrays
    or objects [===] compares references, which the tree model does not
    have: it is [false] here, and [deepEqual] then walks the two trees (see
    [deepEqual_refl] for the case of one and the same reference). *)
Definition strict_equal (a b : value) : bool :=
  match a, b with
  | VUndefined, VUndefined => true
  | VNull, VNull => true
  | VBool x, VBool y => Bool.eqb x y
  | VNum x, VNum y => number_eqb x y
  | VBigInt x, VBigInt y => x =? y
  | VStr x, VStr y => String.eqb x y
  | _, _ => false
  end.

(** [a.constructor !== b.constructor], line 10, for two objects that are
    not arrays.  An object without an own property [constructor] inherits
    [Object]; an own property hides it, and its value, being data, is never
    the function [Object].  Two own values are compared by [===]: an object
    or array there is a reference of its own in each of the two values. *)
Definition same_constructor (pa pb : list (string * value)) : bool :=
  match own_property "constructor" pa, own_property "constructor" pb with
  | None, None => true
  | Some ca, Some cb => strict_equal ca cb
  | _, _ => false
  end.

(** [key && ...]: the empty string is falsy. *)
Definition truthy_key (key : string) : bool := negb (String.eqb key "").

(** [deepEqual(a, b)].  Both loops of the source run from the last index
    down and leave at the first difference; they have no effect besides
    their result, which is the conjunction written here.  The arrays of the
    model have no properties besides their elements: the constructor of an
    array is [Array], which no object of the model has. *)
Fixpoint deepEqual (a b : value) : bool :=
  if strict_equal a b then true
  else
    match a, b with
    | VArr xs, VArr ys =>
        (length xs =? length ys)%nat &&
        (fix elements (xs ys : list value) : bool :=
           match xs, ys with
           | x :: xs', y :: ys' => deepEqual x y && elements xs' ys'
           | _, _ => true
           end) xs ys
    | VObj pa, VObj pb =>
        same_constructor pa pb &&
        (length pa =? length pb)%nat &&
        (fix keys (ps : list (string * value)) : bool :=
           match ps with
           | [] => true
           | (key, va) :: ps' =>
               (if truthy_key key then
                  match own_property key pb with
                  | None => false
                  | Some vb => deepEqual va vb
                  end
                else true)
               && keys ps'
           end) pa
    | VArr _, VObj _ | VObj _, VArr _ => false (* [Array] is no constructor of an object *)
    | VNum NaN, VNum NaN => true               (* a !== a && b !== b *)
    | _, _ => false
    end.

(* ===================================================================== *)
(** * Computations: state and exceptions *)
(* ===================================================================== *)

(** A piece of synchronous code over a mutable state [St]: it ends normally
    with a result or abruptly with a thrown value, and leaves a state behind
    in both cases. *)
Definition Comp (St A : Type) : Type := St -> completion A * St.

Global Instance Comp_ret {St} : MRet (Comp St) :=
  fun A a st => (Normal a, st).

Global Instance Comp_bind {St} : MBind (Comp St) :=
  fun A B k c st =>
    match c st with
    | (Normal a, st') => k a st'
    | (Throw t, st') => (Throw t, st')
    end.

Definition gets {St A} (f : St -> A) : Comp St A :=
  fun st => (Normal (f st), st).

Definition modify {St} (f : St -> St) : Comp St unit :=
  fun st => (Normal tt, f st).

Definition throw {St A} (t : thrown) : Comp St A :=
  fun st => (Throw t, st).

(** A call into the environment that ends with [r] and leaves the state
    alone. *)
Definition lift {St A} (r : completion A) : Comp St A :=
  fun st => (r, st).

(** [try { body } catch (e) { handler e }] *)
Definition try_catch {St A} (body : Comp St A) (handler : thrown -> Comp St A)
  : Comp St A :=
  fun st =>
    match body st with
    | (Normal a, st') => (Normal a, st')
    | (Throw t, st') => handler t st'
    end.

(** [try { body } finally { fin }]: [fin] always runs; the completion of
    [body] stands unless [fin] itself throws. *)
Definition try_finally {St A} (body : Comp St A) (fin : Comp St unit)
  : Comp St A :=
  fun st =>
    let '(r, st') := body st in
    match fin st' with
    | (Normal _, st'') => (r, st'')
    | (Throw t, st'') => (Throw t, st'')
    end.

(** [for (const x of xs) { body x }] *)
Fixpoint for_of {St A} (xs : list A) (body : A -> Comp St unit) : Comp St unit :=
  match xs with
  | [] => mret tt
  | x :: xs' => body x;; for_of xs' body
  end.

Definition when {St} (b : bool) (c : Comp St unit) : Comp St unit :=
  if b then c else mret tt.


(** [await p]: the value of a fulfilled promise, or its rejection thrown. *)
Definition await {St A} (p : outcome A) : Comp St A :=
  match p with
  | Fulfilled a => mret a
  | Rejected t => throw t
  end.

(* ===================================================================== *)
(** * src/live-query.ts *)
(* ===================================================================== *)

(** A subscriber is a callback.  Its identity (the function reference the
    [Set] of subscribers compares) is [sub_id].  Called with the data
    ([sub_call]), it may take callbacks out of the [Set], itself or others,
    by calling the functions [subscribe] returned for them, and then it
    returns or throws: the result names the callbacks taken out, in order,
    and what is thrown, if anything.  A callback that subscribes a callback
    or calls [refetch] while it runs is outside the model. *)
Record Subscriber : Type := mkSubscriber {
  sub_id : nat;
  sub_call : value -> list nat * option thrown
}.

(** The fields [data], [error], [loading] of [LiveResult]. *)
Record LiveResult : Type := mkLiveResult {
  data : value;
  error : option JSError;
  loading : bool
}.

(** [LiveQuery] of src/types.ts.  [subscribers] and [tableDeps] are [Set]s,
    kept in insertion order.  The closures [builder], [refetch], [destroy]
    and [updateState] are the functions below.  [result] is assigned in
    [createLiveQuery] before the first [refetch] and never removed: the
    guards [if (internalQuery.result)] of the source always pass.

    [awaiting] is bookkeeping of the model: one entry for each call of
    [refetch] that is suspended at [await internalQuery.builder(...)],
    holding that call's local [isFirstRun]. *)
Record LiveQuery : Type := mkLiveQuery {
  id : nat;
  subscribers : list Subscriber;
  tableDeps : list string;
  result : LiveResult;
  awaiting : list bool
}.

(** What can be observed from outside, in the order it happens. *)
Inductive Obs : Type :=
| ObsBuilder (q : nat)                      (* the builder of query [q] is called *)
| ObsNotify (q sub : nat) (d : value)       (* a subscriber of [q] is called with [d] *)
| ObsConsoleError (q : nat) (t : thrown).   (* [console.error] in [refetch] *)

(** The [Set] the module variable [currentTableCollector] points to when
    it is not [null]: the [tableDeps] of a live query of this client, or a
    set of another client of the process, which shares the variable. *)
Inductive Collector : Type :=
| OfQuery (qid : nat)
| OfOtherClient.

Global Instance Collector_eq_dec : EqDecision Collector.
Proof. solve_decision. Defined.

(** The state the code of one live query reads and writes: its record, the
    module variable [currentTableCollector], and what has been observed. *)
Record World : Type := mkWorld {
  query : LiveQuery;
  currentTableCollector : option Collector;
  trace : list Obs
}.

(** The argument of [updateState]: one field of the result. *)
Inductive StateUpdate : Type :=
| UpdData (d : value)
| UpdError (e : option JSError)
| UpdLoading (b : bool).

Definition assign (r : LiveResult) (u : StateUpdate) : LiveResult :=
  match u with
  | UpdData d => mkLiveResult d (error r) (loading r)
  | UpdError e => mkLiveResult (data r) e (loading r)
  | UpdLoading b => mkLiveResult (data r) (error r) b
  end.

Definition set_result (r : LiveResult) (q : LiveQuery) : LiveQuery :=
  mkLiveQuery (id q) (subscribers q) (tableDeps q) r (awaiting q).

Definition set_subscribers (s : list Subscriber) (q : LiveQuery) : LiveQuery :=
  mkLiveQuery (id q) s (tableDeps q) (result q) (awaiting q).

Definition set_tableDeps (t : list string) (q : LiveQuery) : LiveQuery :=
  mkLiveQuery (id q) (subscribers q) t (result q) (awaiting q).

Definition set_awaiting (a : list bool) (q : LiveQuery) : LiveQuery :=
  mkLiveQuery (id q) (subscribers q) (tableDeps q) (result q) a.

Definition on_query (f : LiveQuery -> LiveQuery) (w : World) : World :=
  mkWorld (f (query w)) (currentTableCollector w) (trace w).

Definition set_collector (c : option Collector) (w : World) : World :=
  mkWorld (query w) c (trace w).

Definition observe (o : Obs) : Comp World unit :=
  modify (fun w => mkWorld (query w) (currentTableCollector w) (trace w ++ [o])).

(** [internalQuery.updateState(update)] *)
Definition updateState (u : StateUpdate) : Comp World unit :=
  modify (on_query (fun q => set_result (assign (result q) u) q)).

Definition is_undefined (v : value) : bool :=
  match v with VUndefined => true | _ => false end.

Definition has_subscriber (sid : nat) (subs : list Subscriber) : bool :=
  existsb (fun s => Nat.eqb (sub_id s) sid) subs.

(** The function [result.subscribe] returned for the callback [sid], lines
    103-105: [internalQuery.subscribers.delete(callback)]. *)
Definition unsubscribe (sid : nat) : Comp World unit :=
  modify (on_query (fun q =>
    set_subscribers (List.filter (fun s => negb (Nat.eqb (sub_id s) sid)) (subscribers q)) q)).

(** [sub(data)]: the callback runs; what it takes out of the [Set] is gone
    when it returns or throws. *)
Definition call_subscriber (sub : Subscriber) (d : value) : Comp World unit :=
  q ← gets (fun w => id (query w));
  observe (ObsNotify q (sub_id sub) d);;
  for_of (fst (sub_call sub d)) unsubscribe;;
  match snd (sub_call sub d) with
  | None => mret tt
  | Some t => throw t
  end.

(** [notifySubscribers], lines 52-59.  The loop iterates the [Set] itself,
    not a copy of it: a callback that has been deleted from the [Set] when
    its turn comes is not visited.  The callbacks of the model add nothing
    to the [Set], so this is the loop over the subscribers at the start
    that passes over those no longer in the [Set]. *)
Definition notifySubscribers : Comp World unit :=
  subs ← gets (fun w => subscribers (query w));
  for_of subs (fun sub =>
    present ← gets (fun w => has_subscriber (sub_id sub) (subscribers (query w)));
    when present
      (d ← gets (fun w => data (result (query w)));
       when (negb (is_undefined d)) (call_subscriber sub d))).

(** [refetch], lines 62-71: from the call up to the suspension at
    [await internalQuery.builder(client.drizzle)].  The result is the local
    [isFirstRun]. *)
Definition refetch_begin : Comp World bool :=
  updateState (UpdLoading true);;
  isFirstRun ← gets (fun w => bool_decide (tableDeps (query w) = []));
  q ← gets (fun w => id (query w));
  when isFirstRun (modify (set_collector (Some (OfQuery q))));;
  observe (ObsBuilder q);;
  modify (on_query (fun q => set_awaiting (awaiting q ++ [isFirstRun]) q));;
  mret isFirstRun.

(** A call [refetch()] whose promise the caller does not keep: the part up
    to the suspension runs at once. *)
Definition refetch_call : Comp World unit :=
  refetch_begin;; mret tt.

(** [refetch], lines 70-85: from the moment the builder's promise has
    settled with [p] to the end.  A builder that throws before returning a
    promise takes the same path as a rejected promise: both leave the [try]
    block at line 71.  The [catch] block has no handler around it: when the
    conversion of the caught value throws, the exception leaves [refetch]
    after the [finally] block has run. *)
Definition refetch_resume (isFirstRun : bool) (p : outcome value) : Comp World unit :=
  try_finally
    (try_catch
       (newData ← await p;
        old ← gets (fun w => data (result (query w)));
        when (negb (deepEqual old newData))
          (updateState (UpdData newData);;
           notifySubscribers);;
        updateState (UpdError None))
       (fun e =>
          q ← gets (fun w => id (query w));
          observe (ObsConsoleError q e);;
          err ← lift (toError e);
          updateState (UpdError (Some err))))
    (updateState (UpdLoading false);;
     when isFirstRun (modify (set_collector None))).

(** [result.subscribe(callback)], lines 97-106; the function it returns is
    [unsubscribe] above. *)
Definition subscribe (callback : Subscriber) : Comp World unit :=
  modify (on_query (fun q =>
    if has_subscriber (sub_id callback) (subscribers q) then q
    else set_subscribers (subscribers q ++ [callback]) q));;
  d ← gets (fun w => data (result (query w)));
  when (negb (is_undefined d)) (call_subscriber callback d).

(** A table name enters a [Set<string>]. *)
Definition set_add (t : string) (s : list string) : list string :=
  if bool_decide (t ∈ s) then s else s ++ [t].

(** The loop of [logQuery] in src/session.ts, on the tables
    [extractTableNames(sql)] has found, when [currentTableCollector] is the
    [tableDeps] of this query.  The statement may be one of any client of
    the process. *)
Definition collect (tables : list string) : Comp World unit :=
  modify (on_query (fun q => set_tableDeps (fold_left (fun s t => set_add t s) tables (tableDeps q)) q)).

(** ** One live query over time *)

(** What happens to one live query: a call of [refetch] (by the
    application, by [createLiveQuery] or by the change router), the
    settling of the builder promise the [k]-th suspended [refetch] waits
    for, a subscription, the call of the function a subscription returned,
    and a statement of the builder that reports its tables. *)
Inductive QEvent : Type :=
| QRefetch
| QSettle (k : nat) (p : outcome value)
| QSubscribe (callback : Subscriber)
| QUnsubscribe (sid : nat)
| QCollect (tables : list string).

Definition remove_nth {A} (k : nat) (l : list A) : list A :=
  firstn k l ++ skipn (S k) l.

(** One event, as a computation; the completion is the one the caller of
    the function (or the promise of [refetch]) sees. *)
Definition qevent (e : QEvent) : Comp World unit :=
  match e with
  | QRefetch => refetch_call
  | QSettle k p =>
      pending ← gets (fun w => awaiting (query w));
      match nth_error pending k with
      | None => mret tt
      | Some isFirstRun =>
          modify (on_query (set_awaiting (remove_nth k pending)));;
          refetch_resume isFirstRun p
      end
  | QSubscribe callback => subscribe callback
  | QUnsubscribe sid => unsubscribe sid
  | QCollect tables =>
      c ← gets currentTableCollector;
      q ← gets (fun w => id (query w));
      when (bool_decide (c = Some (OfQuery q))) (collect tables)
  end.

Definition qstep (w : World) (e : QEvent) : World := snd (qevent e w).

Definition qrun (w : World) (es : list QEvent) : World := fold_left qstep es w.

(** The data the subscriber [sid] of query [q] has been called with. *)
Fixpoint received (q sid : nat) (tr : list Obs) : list value :=
  match tr with
  | [] => []
  | ObsNotify q' sid' d :: tr' =>
      if Nat.eqb q' q && Nat.eqb sid' sid then d :: received q sid tr'
      else received q sid tr'
  | _ :: tr' => received q sid tr'
  end.

Definition builder_calls (q : nat) (tr : list Obs) : nat :=
  length (List.filter (fun o => match o with ObsBuilder q' => Nat.eqb q' q | _ => false end) tr).

(* ===================================================================== *)
(** * src/db.ts: the client and the change router *)
(* ===================================================================== *)

Definition to_lower_char (c : ascii) : ascii :=
  let n := nat_of_ascii c in
  if (65 <=? n)%nat && (n <=? 90)%nat then ascii_of_nat (n + 32) else c.

(** [tableName.toLowerCase()], on the letters A to Z. *)
Fixpoint toLowerCase (s : string) : string :=
  match s with
  | EmptyString => EmptyString
  | String c s' => String (to_lower_char c) (toLowerCase s')
  end.

(** [OporClient] of src/types.ts, as far as live queries use it.
    [liveQueries] is the [Map] from id to record: its keys in insertion
    order are [liveQueries], and [records] holds the record of every id
    that was ever created, because the closures of a live query go on
    working on its record after [destroy] has taken it out of the [Map].
    [collector] is the module variable [currentTableCollector] of
    src/live-query.ts, which the client shares with every other client of
    the process: see the event [OtherClient] below. *)
Record OporClient : Type := mkClient {
  records : gmap nat LiveQuery;
  liveQueries : list nat;
  queryIdCounter : nat;
  collector : option Collector;
  observed : list Obs
}.

(** A new client in a process that has just loaded the module. *)
Definition init_client : OporClient := mkClient ∅ [] 0 None [].

(** Run code of the live query [qid] on the client's state. *)
Definition focus (qid : nat) (m : Comp World unit) : Comp OporClient unit :=
  fun c =>
    match records c !! qid with
    | None => (Normal tt, c)
    | Some q =>
        let '(r, w) := m (mkWorld q (collector c) (observed c)) in
        (r, mkClient (<[qid := query w]> (records c)) (liveQueries c)
              (queryIdCounter c) (currentTableCollector w) (trace w))
    end.

(** [createLiveQuery(client, builder)]; the result is the id of the new
    query, which stands for the [LiveResult] object returned.  The promise
    of the initial [refetch()] is dropped, as in line 115. *)
Definition createLiveQuery : Comp OporClient nat :=
  qid ← gets (fun c => S (queryIdCounter c));
  modify (fun c =>
    mkClient
      (<[qid := mkLiveQuery qid [] [] (mkLiveResult VUndefined None true) []]> (records c))
      (liveQueries c ++ [qid]) qid (collector c) (observed c));;
  focus qid refetch_call;;
  mret qid.

(** [internalQuery.destroy] *)
Definition destroy (qid : nat) : Comp OporClient unit :=
  modify (fun c =>
    mkClient (records c) (List.filter (fun i => negb (Nat.eqb i qid)) (liveQueries c))
      (queryIdCounter c) (collector c) (observed c)).

(** [[...query.tableDeps].some((dep) => changedTables.has(dep))] with
    [changedTables = new Set([changed])]. *)
Definition hasOverlap (changed : string) (q : LiveQuery) : bool :=
  existsb (fun dep => String.eqb changed dep) (tableDeps q).

(** [onTablesChanged(_type, _dbName, tableName)]: every query of the [Map]
    whose dependencies contain the table has its [refetch] called; the
    promise is dropped. *)
Definition onTablesChanged (tableName : string) : Comp OporClient unit :=
  let changed := toLowerCase tableName in
  ids ← gets liveQueries;
  for_of ids (fun qid =>
    r ← gets (fun c => records c !! qid);
    match r with
    | Some q => when (hasOverlap changed q) (focus qid refetch_call)
    | None => mret tt
    end).

(** What the client sees happen.  [OtherClient] is code of another client
    of the process that assigns [currentTableCollector]: the start of a
    first run there points it to a set of that client, the end of one sets
    it to [null].  A statement that is logged may be one of any client. *)
Inductive Event : Type :=
| CallLiveQuery                             (* [db.liveQuery(builder)] *)
| CallDestroy (qid : nat)                   (* [result.destroy()] *)
| TableChanged (tableName : string)         (* the engine's [onUpdate] callback *)
| StatementLogged (tables : list string)    (* [logQuery] of a statement naming [tables] *)
| OnQuery (qid : nat) (e : QEvent)
| OtherClient (collects : bool).

Definition event (e : Event) : Comp OporClient unit :=
  match e with
  | CallLiveQuery => createLiveQuery;; mret tt
  | CallDestroy qid => destroy qid
  | TableChanged t => onTablesChanged t
  | StatementLogged tables =>
      c ← gets collector;
      match c with
      | Some (OfQuery qid) => focus qid (collect tables)
      | Some OfOtherClient | None => mret tt
      end
  | OnQuery qid e => focus qid (qevent e)
  | OtherClient collects =>
      modify (fun c =>
        mkClient (records c) (liveQueries c) (queryIdCounter c)
          (if collects then Some OfOtherClient else None) (observed c))
  end.

Definition step (c : OporClient) (e : Event) : OporClient := snd (event e c).

Definition run_events (c : OporClient) (es : list Event) : OporClient := fold_left step es c.

(** Calls of [refetch] of the query [qid] that are suspended at the
    builder. *)
Definition in_flight (qid : nat) (c : OporClient) : nat :=
  match records c !! qid with
  | Some q => length (awaiting q)
  | None => 0%nat
  end.

(* ===================================================================== *)
(** * src/session.ts: prepared statements *)
(* ===================================================================== *)

(** The transaction context [TX] and the statement handle [Stmt] of the
    engine are opaque to the adapter. *)
Definition TX : Type := nat.
Definition Stmt : Type := nat.

(** The calls the adapter makes on the engine and on the logger, in the
    order it makes them. *)
Inductive EngineCall : Type :=
| EPrepare (via : option TX) (sql : string)      (* [(tx ?? client).prepare(sql)] *)
| ELogQuery (sql : string) (params : list value) (* [logger.logQuery(sql, params)] *)
| ERaw (stmt : Stmt) (flag : bool)               (* [stmt.raw(flag)] *)
| ERun (stmt : Stmt) (tx : option TX) (params : list value)
| EAll (stmt : Stmt) (tx : option TX) (params : list value)
| EGet (stmt : Stmt) (tx : option TX) (params : list value)
| EFinalize (stmt : Stmt) (tx : option TX).

(** Functions of the query-builder framework and of the JavaScript
    platform the session calls: [fillPlaceholders] of drizzle-orm, which
    can throw, and the regular expression of [extractTableNames]. *)
Class Platform : Type := {
  fillPlaceholders : list value -> list (string * value) -> completion (list value);
  extractTableNames : string -> list string
}.

(** [HeldStatementFinalization] *)
Record HeldStatementFinalization : Type := mkHeld {
  held_stmt : outcome Stmt;
  held_tx : option TX
}.

(** The state statements run against: the calls made so far, the set
    [currentTableCollector] points to (if any), and the held values of the
    [FinalizationRegistry] whose cleanup has not run yet. *)
Record SessionState : Type := mkSession {
  calls : list EngineCall;
  tableCollector : option (list string);
  registered : list HeldStatementFinalization
}.

Module CRSQLitePreparedQuery.

(** The fields of the class: [query.sql] and [query.params], the promise
    [stmt] of the engine's [prepare] (given here by the outcome it settles
    with), [tx], [oneTime] and [customResultMapper]. *)
Record t : Type := mk {
  sql : string;
  params : list value;
  stmt : outcome Stmt;
  tx : option TX;
  oneTime : bool;
  customResultMapper : option (list value -> value)
}.

Section Modes.
Context `{Platform}.

Definition emit (c : EngineCall) : Comp SessionState unit :=
  modify (fun s => mkSession (calls s ++ [c]) (tableCollector s) (registered s)).

(** The constructor.  [registry] tells whether a registry was passed
    ([prepareQuery]) or [null] ([prepareOneTimeQuery]); [prepared] is the
    outcome of the engine's [prepare]. *)
Definition new (query_sql : string) (query_params : list value) (registry : bool)
    (bound : option TX) (mapper : option (list value -> value))
    (prepared : outcome Stmt) : Comp SessionState t :=
  emit (EPrepare bound query_sql);;
  (if registry
   then modify (fun s => mkSession (calls s) (tableCollector s)
                           (registered s ++ [mkHeld prepared bound]))
   else mret tt);;
  mret (mk query_sql query_params prepared bound (negb registry) mapper).

(** [logQuery], lines 148-156. *)
Definition logQuery (text : string) (ps : list value) : Comp SessionState unit :=
  emit (ELogQuery text ps);;
  modify (fun s =>
    mkSession (calls s)
      (match tableCollector s with
       | Some set => Some (fold_left (fun acc t => set_add t acc) (extractTableNames text) set)
       | None => None
       end)
      (registered s)).

(** [run], lines 161-169.  [answer] is how [stmt.run] ends. *)
Definition run (q : t) (placeholderValues : list (string * value))
    (answer : completion unit) : Comp SessionState unit :=
  ps ← lift (fillPlaceholders (params q) placeholderValues);
  logQuery (sql q) ps;;
  st ← await (stmt q);
  emit (ERun st (tx q) ps);;
  lift answer;;
  when (oneTime q) (emit (EFinalize st (tx q))).

Definition is_some {A} (o : option A) : bool :=
  match o with Some _ => true | None => false end.

(** [all], lines 174-184.  [answer] is how [stmt.all] ends. *)
Definition all (q : t) (placeholderValues : list (string * value))
    (answer : completion (list value)) : Comp SessionState value :=
  ps ← lift (fillPlaceholders (params q) placeholderValues);
  logQuery (sql q) ps;;
  st ← await (stmt q);
  emit (ERaw st (is_some (customResultMapper q)));;
  emit (EAll st (tx q) ps);;
  rows ← lift answer;
  when (oneTime q) (emit (EFinalize st (tx q)));;
  mret (match customResultMapper q with
        | Some mapper => mapper rows
        | None => VArr rows
        end).

(** [!row] *)
Definition falsy (v : value) : bool :=
  match v with
  | VUndefined | VNull | VBool false | VNum NaN | VNum (Finite _ [] _)
  | VBigInt Z0 | VStr EmptyString => true
  | _ => false
  end.

(** [get], lines 189-202.  [answer] is how [stmt.get] ends. *)
Definition get (q : t) (placeholderValues : list (string * value))
    (answer : completion value) : Comp SessionState value :=
  ps ← lift (fillPlaceholders (params q) placeholderValues);
  logQuery (sql q) ps;;
  st ← await (stmt q);
  emit (ERaw st (is_some (customResultMapper q)));;
  emit (EGet st (tx q) ps);;
  row ← lift answer;
  when (oneTime q) (emit (EFinalize st (tx q)));;
  if falsy row then mret VUndefined
  else mret (match customResultMapper q with
             | Some mapper => mapper [row]
             | None => row
             end).

(** [row[0]] *)
Definition first_column (row : value) : value :=
  match row with
  | VArr (x :: _) => x
  | _ => VUndefined
  end.

(** [values], lines 207-217.  [answer] is how [stmt.all] ends. *)
Definition values (q : t) (placeholderValues : list (string * value))
    (answer : completion (list value)) : Comp SessionState value :=
  ps ← lift (fillPlaceholders (params q) placeholderValues);
  logQuery (sql q) ps;;
  st ← await (stmt q);
  emit (ERaw st true);;
  emit (EAll st None ps);;
  rows ← lift answer;
  when (oneTime q) (emit (EFinalize st (tx q)));;
  mret (VArr (map first_column rows)).

(** The cleanup callback of the registry, lines 42-44:
    [heldValue.stmt.then((stmt) => stmt.finalize(heldValue.tx))]. *)
Definition cleanup (held : HeldStatementFinalization) : Comp SessionState unit :=
  match held_stmt held with
  | Fulfilled st => emit (EFinalize st (held_tx held))
  | Rejected _ => mret tt
  end.

(** The garbage collector has found the wrapper of the [k]-th registration
    unreachable: the registry drops the registration and calls [cleanup]
    with its held value. *)
Definition collected (k : nat) : Comp SessionState unit :=
  held ← gets (fun s => nth_error (registered s) k);
  match held with
  | None => mret tt
  | Some h =>
      modify (fun s => mkSession (calls s) (tableCollector s)
                         (remove_nth k (registered s)));;
      cleanup h
  end.

End Modes.

(** The four execution modes, with the engine's answer to each. *)
Inductive Mode : Type :=
| Run (answer : completion unit)
| All (answer : completion (list value))
| Get (answer : completion value)
| Values (answer : completion (list value)).

Definition engine_throws (m : Mode) : bool :=
  match m with
  | Run (Throw _) | All (Throw _) | Get (Throw _) | Values (Throw _) => true
  | _ => false
  end.

(** One execution of the statement in a mode; the result is dropped. *)
Definition execute `{Platform} (q : t) (placeholderValues : list (string * value))
    (m : Mode) : Comp SessionState unit :=
  match m with
  | Run answer => run q placeholderValues answer
  | All answer => all q placeholderValues answer;; mret tt
  | Get answer => get q placeholderValues answer;; mret tt
  | Values answer => values q placeholderValues answer;; mret tt
  end.

End CRSQLitePreparedQuery.

(** How often [finalize] was called on the statement [st]. *)
Definition finalize_count (st : Stmt) (cs : list EngineCall) : nat :=
  length (List.filter (fun c => match c with
                                | EFinalize st' _ => Nat.eqb st' st
                                | _ => false
                                end) cs).

(** The transaction argument of the calls that execute the statement
    ([stmt.run], [stmt.all], [stmt.get]). *)
Definition execution_contexts (cs : list EngineCall) : list (option TX) :=
  flat_map (fun c => match c with
                     | ERun _ tx _ | EAll _ tx _ | EGet _ tx _ => [tx]
                     | _ => []
                     end) cs.

(** ** Transactions *)

(** The calls a transaction makes on the engine and on the logger:
    [client.imperativeTx()], the function [release] it returns, and
    [logger.logQuery(query, [])] and [(this.tx ?? this.client).exec(query)]
    of [CRSQLiteSession.exec]. *)
Inductive TxCall : Type :=
| TImperativeTx
| TRelease
| TLogQuery (query : string)
| TExec (via : option TX) (query : string).

(** How the engine answers, given the calls made before: the transaction
    [imperativeTx] resolves to, whether [release] returns, and how the
    promise of [exec] settles. *)
Class TxEngine : Type := {
  imperativeTx_answer : list TxCall -> completion TX;
  release_answer : list TxCall -> completion unit;
  exec_answer : list TxCall -> option TX -> string -> completion unit
}.

Section Transactions.
Context `{TxEngine}.
Context {T : Type}.

Definition call (c : TxCall) : Comp (list TxCall) unit :=
  modify (fun calls => calls ++ [c]).

(** [CRSQLiteSession.exec], lines 106-109, awaited. *)
Definition exec (this_tx : option TX) (query : string) : Comp (list TxCall) unit :=
  call (TLogQuery query);;
  before ← gets (fun calls => calls);
  call (TExec this_tx query);;
  lift (exec_answer before this_tx query).

(** [`sp${this.nestedIndex}`] *)
Definition savepointName (nestedIndex : nat) : string :=
  "sp" +:+ string_of_list_ascii (digits_of_N (N.of_nat nestedIndex)).

(** [CRSQLiteTransaction.transaction], lines 226-251.  [session_tx] is the
    transaction of [this.session] and [nestedIndex] is [this.nestedIndex];
    the callback is given the new transaction object, which has the same
    session and the index [nestedIndex + 1]: it stands here for a function
    of that index. *)
Definition nested_transaction (session_tx : option TX) (nestedIndex : nat)
    (transaction : nat -> Comp (list TxCall) T) : Comp (list TxCall) T :=
  let savepointName := savepointName nestedIndex in
  exec session_tx ("SAVEPOINT " +:+ savepointName +:+ ";");;
  try_catch
    (result ← transaction (S nestedIndex);
     exec session_tx ("RELEASE savepoint " +:+ savepointName +:+ ";");;
     mret result)
    (fun err =>
       exec session_tx ("ROLLBACK TO savepoint " +:+ savepointName +:+ ";");;
       throw err).

(** [CRSQLiteSession.transaction], lines 83-104.  The transaction object
    [tx] is made without a nested index, which is [0] by the default of
    drizzle's [SQLiteTransaction]. *)
Definition session_transaction (transaction : nat -> Comp (list TxCall) T)
  : Comp (list TxCall) T :=
  before ← gets (fun calls => calls);
  call TImperativeTx;;
  imperativeTx ← lift (imperativeTx_answer before);
  let release : Comp (list TxCall) unit :=
    before ← gets (fun calls => calls);
    call TRelease;;
    lift (release_answer before) in
  try_catch
    (result ← nested_transaction (Some imperativeTx) 0 transaction;
     release;;
     mret result)
    (fun err => release;; throw err).

End Transactions.

(* ===================================================================== *)
(** * src/migrator.ts *)
(* ===================================================================== *)

(** [MigrationMeta] of drizzle-orm. *)
Record MigrationMeta : Type := mkMigration {
  sql : list string;
  folderMillis : Z;
  hash : string;
  bps : bool
}.

(** [MigrationEntry]: a row of the bookkeeping table. *)
Record MigrationEntry : Type := mkEntry {
  entry_id : string;
  entry_hash : string;
  created_at : Z
}.

Record MigrationConfig : Type := mkConfig {
  migrationsTable : option string;
  migrations : list MigrationMeta
}.

(** The tables that hold migration entries, by name; a name without entry
    is a table that does not exist.  The column [created_at] is written by
    the migrator only, with the [folderMillis] of a migration. *)
Definition Tables : Type := gmap string (list MigrationEntry).

(** The statements the migrator itself issues. *)
Inductive Request : Type :=
| CreateTable (table : string)   (* [CREATE TABLE IF NOT EXISTS], lines 23-34 *)
| SelectLast (table : string)    (* [SELECT ... ORDER BY created_at DESC LIMIT 1], lines 37-39 *)
| InsertEntry (table : string) (entry : MigrationEntry). (* [INSERT INTO], lines 49-51 *)

(** The engine as the migrator uses it.  [App] is the part of the database
    that holds no migration entries.

    - [run_raw stmt] is [db.run(sql.raw(stmt))]: a statement of a migration
      acts on the whole database, the bookkeeping tables included, and may
      fail.
    - [rejects request] says whether the engine fails a statement of the
      migrator itself, and with what: a table of the name with other
      columns, an identifier that exists already, a database that cannot be
      written.
    - [no_such_table] is the error for a table that does not exist.
    - [randomUUID n] is the [n]-th identifier [crypto.randomUUID()]
      returns. *)
Class SqlEngine (App : Type) : Type := {
  run_raw : string -> Tables * App -> completion (Tables * App);
  rejects : Request -> Tables * App -> option thrown;
  no_such_table : string -> thrown;
  randomUUID : nat -> string
}.

(** The database: the bookkeeping tables, the rest of it, the raw
    statements executed so far and the number of identifiers drawn. *)
Record Database (App : Type) : Type := mkDatabase {
  bookkeeping : Tables;
  application : App;
  journal : list string;
  uuids : nat
}.
Arguments mkDatabase {App} _ _ _ _.
Arguments bookkeeping {App} _.
Arguments application {App} _.
Arguments journal {App} _.
Arguments uuids {App} _.

(** What the engine stores. *)
Definition stored {App} (db : Database App) : Tables * App :=
  (bookkeeping db, application db).

(** The row [ORDER BY created_at DESC LIMIT 1] returns: one with the
    greatest [created_at]. *)
Fixpoint most_recent (rows : list MigrationEntry) : option MigrationEntry :=
  match rows with
  | [] => None
  | r :: rest =>
      match most_recent rest with
      | Some r' => if created_at r <? created_at r' then Some r' else Some r
      | None => Some r
      end
  end.

Section Migrate.
Context {App : Type} `{SqlEngine App}.

(** [CREATE TABLE IF NOT EXISTS <table> (...)] *)
Definition create_table_if_not_exists (table : string) : Comp (Database App) unit :=
  fun db =>
    match rejects (CreateTable table) (stored db) with
    | Some t => (Throw t, db)
    | None =>
        (Normal tt,
         match bookkeeping db !! table with
         | Some _ => db
         | None =>
             mkDatabase (<[table := []]> (bookkeeping db)) (application db)
               (journal db) (uuids db)
         end)
    end.

(** [db.get(sql`SELECT id, hash, created_at FROM <table> ORDER BY
    created_at DESC LIMIT 1`)] *)
Definition select_last (table : string) : Comp (Database App) (option MigrationEntry) :=
  fun db =>
    match rejects (SelectLast table) (stored db) with
    | Some t => (Throw t, db)
    | None =>
        match bookkeeping db !! table with
        | Some rows => (Normal (most_recent rows), db)
        | None => (Throw (no_such_table table), db)
        end
    end.

(** [db.run(sql.raw(stmt))] *)
Definition run_stmt (stmt : string) : Comp (Database App) unit :=
  fun db =>
    match run_raw stmt (stored db) with
    | Normal (tables, app) =>
        (Normal tt, mkDatabase tables app (journal db ++ [stmt]) (uuids db))
    | Throw t => (Throw t, db)
    end.

(** [db.run(sql`INSERT INTO <table> ("id", "hash", "created_at")
    VALUES(${crypto.randomUUID()}, ${migration.hash},
    ${migration.folderMillis})`)]: the identifier is drawn when the
    statement is built, before it runs. *)
Definition insert_entry (table : string) (m : MigrationMeta) : Comp (Database App) unit :=
  fun db =>
    let entry := mkEntry (randomUUID (uuids db)) (hash m) (folderMillis m) in
    let drawn := mkDatabase (bookkeeping db) (application db) (journal db) (S (uuids db)) in
    match rejects (InsertEntry table entry) (stored db) with
    | Some t => (Throw t, drawn)
    | None =>
        match bookkeeping db !! table with
        | Some rows =>
            (Normal tt,
             mkDatabase (<[table := rows ++ [entry]]> (bookkeeping db)) (application db)
               (journal db) (S (uuids db)))
        | None => (Throw (no_such_table table), drawn)
        end
    end.

(** [!lastDbMigration || lastDbMigration.created_at < migration.folderMillis] *)
Definition pending (lastDbMigration : option MigrationEntry) (m : MigrationMeta) : bool :=
  match lastDbMigration with
  | None => true
  | Some e => created_at e <? folderMillis m
  end.

(** [migrate(db, config)] *)
Definition migrate (config : MigrationConfig) : Comp (Database App) unit :=
  match migrations config with
  | [] => mret tt
  | _ =>
      let table := default "__drizzle_migrations" (migrationsTable config) in
      create_table_if_not_exists table;;
      lastDbMigration ← select_last table;
      for_of (migrations config) (fun migration =>
        when (pending lastDbMigration migration)
          (for_of (sql migration) run_stmt;;
           insert_entry table migration))
  end.

End Migrate.

(* ===================================================================== *)
(** * JSON text: what [JSON.stringify] writes and [JSON.parse] reads *)
(* ===================================================================== *)

Definition text : Type := list ascii.

(** ** Writing *)

(** The quotation mark, code unit 34, that delimits a JSON string. *)
Abbreviation quotation_mark := (Ascii false true false false false true false false).

Definition hex_digit (n : nat) : ascii :=
  if (n <? 10)%nat then ascii_of_nat (48 + n) else ascii_of_nat (87 + n).

(** [QuoteJSONString], one code unit: the short escapes, [\u00XX] for the
    other control characters, the character itself otherwise. *)
Definition escape_char (c : ascii) : text :=
  let n := nat_of_ascii c in
  if (n =? 8)%nat then ["\"; "b"]%char
  else if (n =? 9)%nat then ["\"; "t"]%char
  else if (n =? 10)%nat then ["\"; "n"]%char
  else if (n =? 12)%nat then ["\"; "f"]%char
  else if (n =? 13)%nat then ["\"; "r"]%char
  else if (n =? 34)%nat then ["\"; quotation_mark]%char
  else if (n =? 92)%nat then ["\"; "\"]%char
  else if (n <? 32)%nat then
    ["\"; "u"; "0"; "0"]%char ++ [hex_digit (n / 16); hex_digit (n mod 16)]
  else [c].

Definition quote (s : string) : text :=
  quotation_mark :: flat_map escape_char (list_ascii_of_string s) ++ [quotation_mark].

Definition null_text : text := list_ascii_of_string "null".

(** A number in JSON text: [Number::toString] when it is finite, [null]
    otherwise. *)
Definition write_number (n : number) : text :=
  match n with
  | NaN => null_text
  | Finite _ _ _ => Number_toString n
  end.

(** ** Reading *)

Definition is_ws (c : ascii) : bool :=
  let n := nat_of_ascii c in
  (n =? 32)%nat || (n =? 9)%nat || (n =? 10)%nat || (n =? 13)%nat.

Fixpoint skip_ws (s : text) : text :=
  match s with
  | c :: s' => if is_ws c then skip_ws s' else s
  | [] => []
  end.

Fixpoint span_digits (s : text) : text * text :=
  match s with
  | c :: s' =>
      if is_digit c then let '(ds, r) := span_digits s' in (c :: ds, r)
      else ([], s)
  | [] => ([], [])
  end.

Fixpoint strip_prefix (p s : text) : option text :=
  match p, s with
  | [], _ => Some s
  | a :: p', b :: s' => if Ascii.eqb a b then strip_prefix p' s' else None
  | _ :: _, [] => None
  end.

Definition hex_value (c : ascii) : option nat :=
  let n := nat_of_ascii c in
  if (48 <=? n)%nat && (n <=? 57)%nat then Some (n - 48)%nat
  else if (97 <=? n)%nat && (n <=? 102)%nat then Some (n - 87)%nat
  else if (65 <=? n)%nat && (n <=? 70)%nat then Some (n - 55)%nat
  else None.

(** The strings of the model are made of the code units 0 to 255.  A text
    of these code units may still denote a string with a code unit above:
    the escape [\uXXXX] names any code unit.  For such a text the model has
    no value for what the code computes, and says so: [Beyond]. *)
Inductive within (A : Type) : Type :=
| Within (a : A)
| Beyond.
Arguments Within {A} a.
Arguments Beyond {A}.

(** The code unit [\uXXXX] names; [None] when the four characters are not
    hexadecimal digits. *)
Definition unicode_escape (h1 h2 h3 h4 : ascii) : option nat :=
  a ← hex_value h1; b ← hex_value h2; c ← hex_value h3; d ← hex_value h4;
  Some (((a * 16 + b) * 16 + c) * 16 + d)%nat.

(** The string read so far goes on with the character [x]. *)
Definition continue_with (x : ascii) (r : within (option (text * text)))
  : within (option (text * text)) :=
  match r with
  | Within (Some (cs, rest)) => Within (Some (x :: cs, rest))
  | Within None => Within None
  | Beyond => Beyond
  end.

(** The characters of a string literal after its opening quote, up to and
    without the closing quote, and the text after the closing quote;
    [Within None] when the literal is malformed. *)
Fixpoint read_string (s : text) : within (option (text * text)) :=
  match s with
  | [] => Within None
  | c :: s' =>
      if Ascii.eqb c quotation_mark then Within (Some ([], s'))
      else if Ascii.eqb c "\"%char then
        match s' with
        | e :: s'' =>
            if Ascii.eqb e quotation_mark then continue_with quotation_mark (read_string s'')
            else if Ascii.eqb e "\"%char then continue_with "\"%char (read_string s'')
            else if Ascii.eqb e "/"%char then continue_with "/"%char (read_string s'')
            else if Ascii.eqb e "b"%char then continue_with (ascii_of_nat 8) (read_string s'')
            else if Ascii.eqb e "f"%char then continue_with (ascii_of_nat 12) (read_string s'')
            else if Ascii.eqb e "n"%char then continue_with (ascii_of_nat 10) (read_string s'')
            else if Ascii.eqb e "r"%char then continue_with (ascii_of_nat 13) (read_string s'')
            else if Ascii.eqb e "t"%char then continue_with (ascii_of_nat 9) (read_string s'')
            else if Ascii.eqb e "u"%char then
              match s'' with
              | h1 :: h2 :: h3 :: h4 :: s3 =>
                  match unicode_escape h1 h2 h3 h4 with
                  | Some n =>
                      if (n <? 256)%nat then continue_with (ascii_of_nat n) (read_string s3)
                      else Beyond
                  | None => Within None
                  end
              | _ => Within None
              end
            else Within None
        | [] => Within None
        end
      else if (nat_of_ascii c <? 32)%nat then Within None
      else continue_with c (read_string s')
  end.

(** The number with digits [ds] (leading and trailing zeros allowed) and the
    decimal point after the first [p] of them, in normal form.  The model
    has one zero. *)
Definition make_number (neg : bool) (ds : text) (p : Z) : number :=
  let ds1 := strip_zeros ds in
  match ds1 with
  | [] => Finite false [] 0
  | _ =>
      Finite neg (strip_trailing_zeros ds1)
        (p - Z.of_nat (length ds - length ds1))
  end.

Definition read_int_part (s : text) : option (text * text) :=
  match s with
  | c :: s' =>
      if is_zero_char c then Some ([c], s')
      else if is_digit c then let '(ds, r) := span_digits s' in Some (c :: ds, r)
      else None
  | [] => None
  end.

Definition read_frac_part (s : text) : option (text * text) :=
  match s with
  | c :: s' =>
      if Ascii.eqb c "."%char then
        let '(ds, r) := span_digits s' in
        match ds with [] => None | _ => Some (ds, r) end
      else Some ([], s)
  | [] => Some ([], [])
  end.

Definition read_exponent (s : text) : option (Z * text) :=
  match s with
  | c :: s' =>
      if Ascii.eqb c "e"%char || Ascii.eqb c "E"%char then
        let '(negative, s1) :=
          match s' with
          | d :: s'' =>
              if Ascii.eqb d "-"%char then (true, s'')
              else if Ascii.eqb d "+"%char then (false, s'')
              else (false, s')
          | [] => (false, s')
          end in
        let '(ds, r) := span_digits s1 in
        n ← N_of_digits ds;
        Some (if negative then - Z.of_N n else Z.of_N n, r)
      else Some (0, s)
  | [] => Some (0, [])
  end.

(** A JSON number: [-]? int frac? exp? *)
Definition read_number (s : text) : option (number * text) :=
  let '(neg, s1) :=
    match s with
    | c :: s' => if Ascii.eqb c "-"%char then (true, s') else (false, s)
    | [] => (false, s)
    end in
  '(int_digits, s2) ← read_int_part s1;
  '(frac_digits, s3) ← read_frac_part s2;
  '(e, s4) ← read_exponent s3;
  Some (make_number neg (int_digits ++ frac_digits)
          (Z.of_nat (length int_digits) + e), s4).

(** [CreateDataProperty]: a key read a second time replaces the value it
    had and keeps its place. *)
Fixpoint define_property (key : string) (v : value) (props : list (string * value))
  : list (string * value) :=
  match props with
  | [] => [(key, v)]
  | (k, w) :: rest =>
      if String.eqb k key then (k, v) :: rest
      else (k, w) :: define_property key v rest
  end.

(** How reading a piece of text ends.  [Wide] is a string literal that
    names a code unit above 255.  [OutOfFuel] is an artefact of the
    recursion on a counter; [JSON_parse_text_total] shows that the parser
    never ends this way. *)
Inductive reading (A : Type) : Type :=
| ReadOk (a : A) (rest : text)
| Malformed
| Wide
| OutOfFuel.
Arguments ReadOk {A} a rest.
Arguments Malformed {A}.
Arguments Wide {A}.
Arguments OutOfFuel {A}.

Definition expect (c : ascii) (s : text) : option text :=
  match s with
  | c' :: s' => if Ascii.eqb c c' then Some s' else None
  | [] => None
  end.

Definition true_text : text := list_ascii_of_string "true".
Definition false_text : text := list_ascii_of_string "false".

(** A JSON value, leading white space allowed. *)
Fixpoint read_value (fuel : nat) (s : text) : reading value :=
  match fuel with
  | O => OutOfFuel
  | S fuel' =>
      match skip_ws s with
      | [] => Malformed
      | c :: s' =>
          if Ascii.eqb c "n"%char then
            match strip_prefix null_text (c :: s') with
            | Some r => ReadOk VNull r
            | None => Malformed
            end
          else if Ascii.eqb c "t"%char then
            match strip_prefix true_text (c :: s') with
            | Some r => ReadOk (VBool true) r
            | None => Malformed
            end
          else if Ascii.eqb c "f"%char then
            match strip_prefix false_text (c :: s') with
            | Some r => ReadOk (VBool false) r
            | None => Malformed
            end
          else if Ascii.eqb c quotation_mark then
            match read_string s' with
            | Within (Some (cs, r)) => ReadOk (VStr (string_of_list_ascii cs)) r
            | Within None => Malformed
            | Beyond => Wide
            end
          else if Ascii.eqb c "["%char then
            match skip_ws s' with
            | d :: s'' =>
                if Ascii.eqb d "]"%char then ReadOk (VArr []) s''
                else
                  match read_elements fuel' (d :: s'') with
                  | ReadOk vs r => ReadOk (VArr vs) r
                  | Malformed => Malformed
                  | Wide => Wide
                  | OutOfFuel => OutOfFuel
                  end
            | [] => Malformed
            end
          else if Ascii.eqb c "{"%char then
            match skip_ws s' with
            | d :: s'' =>
                if Ascii.eqb d "}"%char then ReadOk (VObj []) s''
                else
                  match read_members fuel' [] (d :: s'') with
                  | ReadOk ps r => ReadOk (VObj ps) r
                  | Malformed => Malformed
                  | Wide => Wide
                  | OutOfFuel => OutOfFuel
                  end
            | [] => Malformed
            end
          else
            match read_number (c :: s') with
            | Some (n, r) => ReadOk (VNum n) r
            | None => Malformed
            end
      end
  end

(** The elements of an array after its opening bracket, up to and with the
    closing bracket. *)
with read_elements (fuel : nat) (s : text) : reading (list value) :=
  match fuel with
  | O => OutOfFuel
  | S fuel' =>
      match read_value fuel' s with
      | ReadOk v r =>
          match skip_ws r with
          | c :: r' =>
              if Ascii.eqb c ","%char then
                match read_elements fuel' r' with
                | ReadOk vs r'' => ReadOk (v :: vs) r''
                | Malformed => Malformed
                | Wide => Wide
                | OutOfFuel => OutOfFuel
                end
              else if Ascii.eqb c "]"%char then ReadOk [v] r'
              else Malformed
          | [] => Malformed
          end
      | Malformed => Malformed
      | Wide => Wide
      | OutOfFuel => OutOfFuel
      end
  end

(** The members of an object after its opening brace, up to and with the
    closing brace; [acc] holds the members read so far. *)
with read_members (fuel : nat) (acc : list (string * value)) (s : text)
  : reading (list (string * value)) :=
  match fuel with
  | O => OutOfFuel
  | S fuel' =>
      match expect quotation_mark (skip_ws s) with
      | Some s1 =>
          match read_string s1 with
          | Within (Some (key, s2)) =>
              match expect ":"%char (skip_ws s2) with
              | Some s3 =>
                  match read_value fuel' s3 with
                  | ReadOk v r =>
                      let acc' := define_property (string_of_list_ascii key) v acc in
                      match skip_ws r with
                      | c :: r' =>
                          if Ascii.eqb c ","%char then read_members fuel' acc' r'
                          else if Ascii.eqb c "}"%char then ReadOk acc' r'
                          else Malformed
                      | [] => Malformed
                      end
                  | Malformed => Malformed
                  | Wide => Wide
                  | OutOfFuel => OutOfFuel
                  end
              | None => Malformed
              end
          | Within None => Malformed
          | Beyond => Wide
          end
      | None => Malformed
      end
  end.

(** [JSON.parse(text)] without reviver: one value, white space around it
    allowed, nothing after it.  [Within None] is the [SyntaxError].  The
    reader stops at the first string literal that names a code unit above
    255: the text then is [Beyond] the model, whatever follows. *)
Definition JSON_parse_text (s : text) : within (option value) :=
  match read_value (2 * length s + 1) s with
  | ReadOk v r => match skip_ws r with [] => Within (Some v) | _ => Within None end
  | Wide => Beyond
  | Malformed | OutOfFuel => Within None
  end.

(* ===================================================================== *)
(** * src/types.ts: the changeset helpers *)
(* ===================================================================== *)

Definition BIGINT_prefix : string := "BIGINT::".

(** The replacer of [jsonStringifyWithBigInt], lines 134-136 (it does not
    look at the key):
    [typeof value === 'bigint' ? `BIGINT::${value.toString()}` : value]. *)
Definition replacer (v : value) : value :=
  match v with
  | VBigInt z => VStr (BIGINT_prefix +:+ string_of_list_ascii (digits_of_Z z))
  | _ => v
  end.

(** [SerializeJSONProperty] of ECMA-262 on a value that is not an array or
    an object.  [None] is [undefined]: the property is left out of an
    object, written [null] in an array, and [JSON.stringify] itself returns
    [undefined] for it.  (A bigint is a [TypeError] in [JSON.stringify]; it
    does not come up here, after the replacer.) *)
Definition write_primitive (v : value) : option text :=
  match v with
  | VNull => Some null_text
  | VBool true => Some true_text
  | VBool false => Some false_text
  | VStr s => Some (quote s)
  | VNum n => Some (write_number n)
  | _ => None
  end.

(** [JSON.stringify(obj, replacer)] with the replacer above:
    [SerializeJSONProperty] calls the replacer on a property value and
    serialises what it returns.  This replacer returns an array or an
    object as it is, so the recursion goes into the value itself
    ([SerializeJSONProperty_replacer] states the equation with the
    replacer's result). *)
Fixpoint SerializeJSONProperty (v : value) : option text :=
  match v with
  | VArr elems =>
      Some ("["%char ::
            join_with [","%char]
              (map (fun e => default null_text (SerializeJSONProperty e)) elems)
            ++ ["]"%char])
  | VObj props =>
      Some ("{"%char ::
            join_with [","%char]
              ((fix members (ps : list (string * value)) : list text :=
                  match ps with
                  | [] => []
                  | (k, e) :: ps' =>
                      match SerializeJSONProperty e with
                      | Some t => (quote k ++ ":"%char :: t) :: members ps'
                      | None => members ps'
                      end
                  end) props)
            ++ ["}"%char])
  | _ => write_primitive (replacer v)
  end.

(** [jsonStringifyWithBigInt(obj)]; [None] when [JSON.stringify] returns
    [undefined]. *)
Definition jsonStringifyWithBigInt (obj : value) : option string :=
  option_map string_of_list_ascii (SerializeJSONProperty obj).

(** ** [BigInt(string)] *)

(** White space of [StringToBigInt]: TAB, LF, VT, FF, CR, SP and NBSP. *)
Definition is_js_space (c : ascii) : bool :=
  let n := nat_of_ascii c in
  ((9 <=? n)%nat && (n <=? 13)%nat) || (n =? 32)%nat || (n =? 160)%nat.

Fixpoint trim_start (s : text) : text :=
  match s with
  | c :: s' => if is_js_space c then trim_start s' else s
  | [] => []
  end.

Definition trim (s : text) : text := rev (trim_start (rev (trim_start s))).

(** The value of a non-empty run of digits in a radix of 2, 8 or 16. *)
Definition N_of_radix_digits (radix : nat) (ds : text) : option N :=
  match ds with
  | [] => None
  | _ =>
      fold_left (fun acc c =>
                   a ← acc;
                   d ← hex_value c;
                   if (d <? radix)%nat then Some (a * N.of_nat radix + N.of_nat d)%N
                   else None)
                ds (Some 0%N)
  end.

(** [StringToBigInt]: the empty string is [0n]; a decimal literal may have
    a sign and leading zeros; a literal with a radix prefix may not have a
    sign.  [None] is the [SyntaxError] of [BigInt]. *)
Definition StringToBigInt (s : text) : option Z :=
  match trim s with
  | [] => Some 0
  | c :: rest =>
      let radix_literal (radix : nat) (ds : text) :=
        option_map Z.of_N (N_of_radix_digits radix ds) in
      let decimal := option_map Z.of_N (N_of_digits (c :: rest)) in
      if Ascii.eqb c "-"%char then option_map (fun n => - Z.of_N n) (N_of_digits rest)
      else if Ascii.eqb c "+"%char then option_map Z.of_N (N_of_digits rest)
      else if is_zero_char c then
        match rest with
        | x :: ds =>
            if Ascii.eqb x "x"%char || Ascii.eqb x "X"%char then radix_literal 16%nat ds
            else if Ascii.eqb x "o"%char || Ascii.eqb x "O"%char then radix_literal 8%nat ds
            else if Ascii.eqb x "b"%char || Ascii.eqb x "B"%char then radix_literal 2%nat ds
            else decimal
        | [] => decimal
        end
      else decimal
  end.

(** A [SyntaxError] of the platform ([JSON.parse], [BigInt]); its message
    depends on the engine and is left empty. *)
Definition SyntaxError : thrown := ThrowError (mkError "SyntaxError" "").

Definition startsWith (s prefix : string) : bool :=
  match strip_prefix (list_ascii_of_string prefix) (list_ascii_of_string s) with
  | Some _ => true
  | None => false
  end.

(** [value.substring(n)] *)
Definition substring_from (n : nat) (s : string) : text :=
  skipn n (list_ascii_of_string s).

(** The reviver of [jsonParseWithBigInt], lines 141-146 (it does not look
    at the key). *)
Definition reviver (v : value) : completion value :=
  match v with
  | VStr s =>
      if startsWith s BIGINT_prefix then
        match StringToBigInt (substring_from 8 s) with
        | Some z => Normal (VBigInt z)
        | None => Throw SyntaxError
        end
      else Normal v
  | _ => Normal v
  end.

(** [InternalizeJSONProperty] of ECMA-262: the reviver is called on the
    elements of an array and on the members of an object first, in order,
    then on the array or object itself.  A member the reviver turns into
    [undefined] is deleted; an array element deleted that way is a hole,
    which reads as [undefined]. *)
Fixpoint InternalizeJSONProperty (rev : value -> completion value) (v : value)
  : completion value :=
  match v with
  | VArr elems =>
      match
        (fix each (es : list value) : completion (list value) :=
           match es with
           | [] => Normal []
           | e :: es' =>
               match InternalizeJSONProperty rev e with
               | Normal e' =>
                   match each es' with
                   | Normal r => Normal (e' :: r)
                   | Throw t => Throw t
                   end
               | Throw t => Throw t
               end
           end) elems
      with
      | Normal elems' => rev (VArr elems')
      | Throw t => Throw t
      end
  | VObj props =>
      match
        (fix each (ps : list (string * value)) : completion (list (string * value)) :=
           match ps with
           | [] => Normal []
           | (k, e) :: ps' =>
               match InternalizeJSONProperty rev e with
               | Normal e' =>
                   match each ps' with
                   | Normal r => Normal (if is_undefined e' then r else (k, e') :: r)
                   | Throw t => Throw t
                   end
               | Throw t => Throw t
               end
           end) props
      with
      | Normal props' => rev (VObj props')
      | Throw t => Throw t
      end
  | _ => rev v
  end.

(** [jsonParseWithBigInt(json)] *)
Definition jsonParseWithBigInt (json : string) : within (completion value) :=
  match JSON_parse_text (list_ascii_of_string json) with
  | Within (Some v) => Within (InternalizeJSONProperty reviver v)
  | Within None => Within (Throw SyntaxError)
  | Beyond => Beyond
  end.

(* ===================================================================== *)
(** * src/sync.ts *)
(* ===================================================================== *)

Definition isArray (v : value) : bool :=
  match v with VArr _ => true | _ => false end.

(** [Array.isArray(c) && c.length === 8] *)
Definition is_change_tuple (c : value) : bool :=
  match c with
  | VArr elems => (length elems =? 8)%nat
  | _ => false
  end.

(** [!Array.isArray(changes) || !changes.every(...)] *)
Definition invalid_changes (changes : value) : bool :=
  match changes with
  | VArr cs => negb (forallb is_change_tuple cs)
  | _ => true
  end.

Definition InvalidChangeset : thrown :=
  ThrowError (mkError "Error"
    "Invalid changeset format. Expected a JSON array of change tuples.").

(** [applyChangeset(client, changeset)].  The state is the list of the
    arguments [db.applyChanges] has been called with: the only way this
    function touches the database.  [answer] is how the engine's
    [applyChanges] ends. *)
Definition applyChangeset (changeset : string) (answer : completion unit)
  : list value -> within (completion unit * list value) :=
  fun applied =>
    match jsonParseWithBigInt changeset with
    | Within parsed =>
        Within
          ((changes ← lift parsed;
            if invalid_changes changes then throw InvalidChangeset
            else
              modify (fun applied => applied ++ [changes]);;
              lift answer) applied)
    | Beyond => Beyond
    end.

(** [getChangeset(client)]; [pulled] is how [db.pullChanges(0n)] ends. *)
Definition getChangeset (pulled : completion value) : completion (option string) :=
  match pulled with
  | Normal changes => Normal (jsonStringifyWithBigInt changes)
  | Throw t => Throw t
  end.

(* ===================================================================== *)
(** * src/live-query.ts: [extractTableNames], lines 17-28 *)
(* ===================================================================== *)

Module live_query.

(** The regular expression is
    [/\b(?:from|join|update|into|delete\s+from)\s+`?([a-zA-Z0-9_]+)`?/gi].
    On strings of 8-bit code units its flag [i] concerns the letters A to Z
    only, [\s] is [is_js_space], and a word character of [\b] is a
    character of the class [[a-zA-Z0-9_]]. *)
Definition is_word_char (c : ascii) : bool :=
  let n := nat_of_ascii c in
  ((48 <=? n)%nat && (n <=? 57)%nat)
  || ((65 <=? n)%nat && (n <=? 90)%nat)
  || (n =? 95)%nat
  || ((97 <=? n)%nat && (n <=? 122)%nat).

(** A keyword, given in lower case, at the start of [s]; the result is the
    text after it. *)
Fixpoint literal (keyword s : text) : option text :=
  match keyword, s with
  | [], _ => Some s
  | k :: keyword', c :: s' =>
      if Ascii.eqb (to_lower_char c) k then literal keyword' s' else None
  | _ :: _, [] => None
  end.

(** [\s+]: the white space at the start of [s], which must not be empty.
    The quantifier is greedy and giving back part of the white space never
    helps here, because what follows [\s+] in the expression does not start
    with white space. *)
Definition spaces (s : text) : option text :=
  match s with
  | c :: s' => if is_js_space c then Some (trim_start s') else None
  | [] => None
  end.

(** [`?]: a backtick is taken when there is one; leaving it would put it
    in front of a part of the expression that does not match it. *)
Definition backtick (s : text) : text :=
  match s with
  | c :: s' => if Ascii.eqb c "`"%char then s' else s
  | [] => []
  end.

(** [[a-zA-Z0-9_]+] without its lower bound: the longest run of word
    characters. *)
Fixpoint word (s : text) : text * text :=
  match s with
  | c :: s' =>
      if is_word_char c then let '(w, rest) := word s' in (c :: w, rest)
      else ([], s)
  | [] => ([], [])
  end.

(** What follows the keyword: [\s+`?([a-zA-Z0-9_]+)`?].  The result is the
    group and the text after the match. *)
Definition table_name (s : text) : option (text * text) :=
  s1 ← spaces s;
  match word (backtick s1) with
  | ([], _) => None
  | (name, s2) => Some (name, backtick s2)
  end.

(** The alternatives of the group, in the order of the expression. *)
Definition keywords : list (text -> option text) :=
  [literal (list_ascii_of_string "from");
   literal (list_ascii_of_string "join");
   literal (list_ascii_of_string "update");
   literal (list_ascii_of_string "into");
   fun s => s1 ← literal (list_ascii_of_string "delete") s;
            s2 ← spaces s1;
            literal (list_ascii_of_string "from") s2].

(** The expression without [\b] at the start of [s]: the first alternative
    after which the rest of the expression matches. *)
Definition match_here (s : text) : option (text * text) :=
  (fix alternatives (ks : list (text -> option text)) : option (text * text) :=
     match ks with
     | [] => None
     | k :: ks' =>
         match k s ≫= table_name with
         | Some m => Some m
         | None => alternatives ks'
         end
     end) keywords.

(** The loop [while ((match = regex.exec(sql)) !== null)]: the matches from
    left to right, each search starting where the match before ended.
    [inside] counts the characters of [s] that belong to the last match and
    [after_word] tells whether the character before [s] is a word character:
    as every keyword starts with a letter, [\b] holds in front of it when
    that character is none. *)
Fixpoint matches (inside : nat) (after_word : bool) (s : text) : list text :=
  match s with
  | [] => []
  | c :: s' =>
      match inside with
      | S inside' => matches inside' (is_word_char c) s'
      | O =>
          match (if after_word then None else match_here s) with
          | Some (name, rest) =>
              name :: matches (length s' - length rest) (is_word_char c) s'
          | None => matches 0 (is_word_char c) s'
          end
      end
  end.

(** [extractTableNames(sql)]: the [Set] of the groups in lower case, in
    insertion order. *)
Definition extractTableNames (sql : string) : list string :=
  fold_left (fun tables name => set_add (toLowerCase (string_of_list_ascii name)) tables)
    (matches 0 false (list_ascii_of_string sql)) [].

End live_query.

(* ===================================================================== *)
(** * Changesets *)
(* ===================================================================== *)

(** A number in the normal form of the model: finite, zero written as the
    empty digit sequence, and otherwise digits only with no zero at either
    end. *)
Definition normal_number (n : number) : bool :=
  match n with
  | NaN => false
  | Finite neg [] p => negb neg && (p =? 0)
  | Finite _ (c :: ds) _ =>
      forallb is_digit (c :: ds) && negb (is_zero_char c)
      && match rev (c :: ds) with
         | l :: _ => negb (is_zero_char l)
         | [] => false
         end
  end.

(** A JSON-shaped value: [null], booleans, finite numbers, strings, arrays
    and objects of such values, an object having each key once.  With
    [bigints], a bigint is allowed wherever a value is. *)
Fixpoint json_shaped (bigints : bool) (v : value) : bool :=
  match v with
  | VUndefined => false
  | VNull | VBool _ | VStr _ => true
  | VBigInt _ => bigints
  | VNum n => normal_number n
  | VArr elems => forallb (json_shaped bigints) elems
  | VObj props =>
      bool_decide (NoDup (map fst props))
      && forallb (fun kv => json_shaped bigints (snd kv)) props
  end.

(** A change: [(table, pk, colVersion, dbVersion, siteId, cl, seq, value)],
    the three versions being bigints. *)
Definition change_tuple (c : value) : bool :=
  match c with
  | VArr [table; pk; VBigInt _; VBigInt _; VBigInt _; cl; seq; val] =>
      json_shaped false table && json_shaped false pk
      && json_shaped false cl && json_shaped false seq && json_shaped false val
  | _ => false
  end.

Definition changeset (v : value) : bool :=
  match v with
  | VArr changes => forallb change_tuple changes
  | _ => false
  end.

(** No string in the value starts with [BIGINT::] (the keys of objects are
    not concerned). *)
Fixpoint plain_strings (v : value) : bool :=
  match v with
  | VStr s => negb (startsWith s BIGINT_prefix)
  | VArr elems => forallb plain_strings elems
  | VObj props => forallb (fun kv => plain_strings (snd kv)) props
  | _ => true
  end.

(** * Structural equality: properties *)

(** Induction on a value, with the hypothesis for the elements of an array
    and the property values of an object. *)
Lemma value_ind' (P : value -> Prop) :
  P VUndefined -> P VNull -> (forall b, P (VBool b)) -> (forall n, P (VNum n)) ->
  (forall z, P (VBigInt z)) -> (forall s, P (VStr s)) ->
  (forall elems, Forall P elems -> P (VArr elems)) ->
  (forall props, Forall (fun kv => P (snd kv)) props -> P (VObj props)) ->
  forall v, P v.
Proof.
  intros Hu Hn Hb Hnum Hz Hs Ha Ho.
  fix IH 1.
  intros [| |b|n|z|s|elems|props];
    [exact Hu|exact Hn|apply Hb|apply Hnum|apply Hz|apply Hs| |].
  - apply Ha. induction elems as [|e elems IHe]; constructor; [apply IH|exact IHe].
  - apply Ho. induction props as [|[k e] props IHp]; constructor; [apply IH|exact IHp].
Qed.

(** Every object in the value has each of its keys once, as a JavaScript
    object does. *)
Fixpoint distinct_keys (v : value) : bool :=
  match v with
  | VArr elems => forallb distinct_keys elems
  | VObj props =>
      bool_decide (NoDup (map fst props))
      && forallb (fun kv => distinct_keys (snd kv)) props
  | _ => true
  end.



Lemma own_property_first props k v :
  NoDup (map fst props) -> In (k, v) props -> own_property k props = Some v.
Proof.
  induction props as [|[k' v'] props IH]; [done|].
  cbn. intros [Hk Hnd]%NoDup_cons [[= -> ->]|Hin].
  - by rewrite String.eqb_refl.
  - destruct (String.eqb_spec k' k) as [->|_]; [|by apply IH].
    exfalso. apply Hk, list_elem_of_In, in_map_iff. by exists (k, v).
Qed.



(** ** The two loops of [deepEqual] *)

(** The comparison of the property [kv] of the first object with the second
    object [pb], line 28. *)
Definition same_property (pb : list (string * value)) (kv : string * value) : bool :=
  if truthy_key (fst kv) then
    match own_property (fst kv) pb with
    | None => false
    | Some vb => deepEqual (snd kv) vb
    end
  else true.

Lemma deepEqual_objects pa pb :
  deepEqual (VObj pa) (VObj pb) =
  same_constructor pa pb && (length pa =? length pb)%nat
  && forallb (same_property pb) pa.
Proof.
  cbn [deepEqual strict_equal]. f_equal.
  induction pa as [|[k va] pa IH]; [done|].
  cbn [forallb]. rewrite <- IH. reflexivity.
Qed.

Fixpoint same_elements (xs ys : list value) : bool :=
  match xs, ys with
  | x :: xs', y :: ys' => deepEqual x y && same_elements xs' ys'
  | _, _ => true
  end.

Lemma deepEqual_arrays xs ys :
  deepEqual (VArr xs) (VArr ys) =
  (length xs =? length ys)%nat && same_elements xs ys.
Proof. reflexivity. Qed.

Lemma own_property_key k props v :
  own_property k props = Some v -> In (k, v) props.
Proof.
  induction props as [|[k' v'] props IH]; [done|]. cbn.
  destruct (String.eqb_spec k' k) as [->|_].
  - intros [= ->]. by left.
  - intros Hv. right. by apply IH.
Qed.

Lemma distinct_keys_property props k v :
  distinct_keys (VObj props) = true -> In (k, v) props -> distinct_keys v = true.
Proof.
  cbn. intros [_ Hv]%andb_true_iff Hin.
  rewrite forallb_forall in Hv. exact (Hv _ Hin).
Qed.





Definition alice_row : list (string * value) :=
  [("id", VNum (num_of_Z 1)); ("name", VStr "Alice"); ("tags", VArr [VStr "a"; VNull])].

Definition alice_row_reordered : list (string * value) :=
  [("name", VStr "Alice"); ("id", VNum (num_of_Z 1)); ("tags", VArr [VStr "a"; VNull])].


(** A row with a column [constructor] that holds an object is not
    [deepEqual] to a copy of itself, whereas one that holds a string
    is. *)
Lemma deepEqual_own_constructor :
  deepEqual (VObj [("id", VNum (num_of_Z 1)); ("constructor", VObj [])])
            (VObj [("id", VNum (num_of_Z 1)); ("constructor", VObj [])]) = false
  /\ deepEqual (VObj [("id", VNum (num_of_Z 1)); ("constructor", VStr "x")])
               (VObj [("constructor", VStr "x"); ("id", VNum (num_of_Z 1))]) = true.
Proof. vm_compute. done. Qed.

(** ** Symmetry *)

(** No object in the value has the empty string as a key. *)
Fixpoint nonempty_keys (v : value) : bool :=
  match v with
  | VArr elems => forallb nonempty_keys elems
  | VObj props =>
      forallb (fun kv => truthy_key (fst kv) && nonempty_keys (snd kv)) props
  | _ => true
  end.

Lemma number_eqb_sym x y : number_eqb x y = number_eqb y x.
Proof.
  destruct x as [|n1 d1 p1], y as [|n2 d2 p2]; try done. cbn.
  rewrite (Z.eqb_sym p1 p2).
  replace (bool_decide (d1 = d2)) with (bool_decide (d2 = d1))
    by (apply bool_decide_ext; split; congruence).
  by destruct n1, n2.
Qed.

Lemma strict_equal_sym a b : strict_equal a b = strict_equal b a.
Proof.
  destruct a, b; try done; cbn.
  - by destruct b, b0.
  - apply number_eqb_sym.
  - apply Z.eqb_sym.
  - apply String.eqb_sym.
Qed.

Lemma same_constructor_sym pa pb : same_constructor pa pb = same_constructor pb pa.
Proof.
  unfold same_constructor.
  destruct (own_property "constructor" pa), (own_property "constructor" pb); try done.
  apply strict_equal_sym.
Qed.

Lemma deepEqual_sym_true a : forall b,
  distinct_keys a = true -> distinct_keys b = true -> nonempty_keys a = true ->
  deepEqual a b = true -> deepEqual b a = true.
Proof.
  induction a as [| |x|n|z|s|xs IH|pa IH] using value_ind'; intros b Ha Hb Hn.
  1-6: destruct b as [| |y|m|w|t|ys|pb]; try done;
       cbn [deepEqual]; rewrite (strict_equal_sym _ _);
       match goal with |- context [strict_equal ?u ?v] => destruct (strict_equal u v) end;
       try done;
       repeat match goal with k : number |- _ => destruct k end; done.
  - destruct b as [| |y|m|w|t|ys|pb]; try done.
    rewrite !deepEqual_arrays. intros [Hlen Hel]%andb_true_iff.
    apply Nat.eqb_eq in Hlen. rewrite <- Hlen, Nat.eqb_refl. cbn [andb].
    cbn [distinct_keys nonempty_keys] in Ha, Hb, Hn.
    clear Hlen. revert ys Ha Hb Hn Hel.
    induction IH as [|x xs Hx _ IHxs]; intros [|y ys] Ha Hb Hn Hel; try done.
    cbn in Ha, Hb, Hn, Hel |- *.
    apply andb_true_iff in Ha as [Ha1 Ha2], Hb as [Hb1 Hb2], Hn as [Hn1 Hn2],
      Hel as [He1 He2].
    rewrite (Hx y) by done. by rewrite IHxs.
  - destruct b as [| |y|m|w|t|ys|pb]; try done.
    rewrite !deepEqual_objects. intros [[Hc Hlen]%andb_true_iff Hps]%andb_true_iff.
    rewrite same_constructor_sym, Hc.
    apply Nat.eqb_eq in Hlen. rewrite <- Hlen, Nat.eqb_refl. cbn [andb].
    rewrite forallb_forall in Hps.
    assert (Hnda : List.NoDup (map fst pa)).
    { apply andb_true_iff in Ha as [Hnd _]. apply bool_decide_eq_true in Hnd.
      by apply NoDup_ListNoDup. }
    assert (Hndb : NoDup (map fst pb)).
    { apply andb_true_iff in Hb as [Hnd _]. by apply bool_decide_eq_true in Hnd. }
    assert (Hfwd : forall k va, In (k, va) pa ->
              exists vb, own_property k pb = Some vb /\ deepEqual va vb = true).
    { intros k va Hin. specialize (Hps _ Hin). unfold same_property in Hps.
      cbn [fst snd] in Hps. cbn [nonempty_keys] in Hn. rewrite forallb_forall in Hn.
      apply Hn, andb_true_iff in Hin as [Hk _]. cbn [fst] in Hk. rewrite Hk in Hps.
      destruct (own_property k pb) as [vb|]; [|done]. by exists vb. }
    assert (Hkeys : incl (map fst pb) (map fst pa)).
    { apply NoDup_length_incl; [done|by rewrite !length_map, Hlen|].
      intros k [[k' va] [<- Hin]]%in_map_iff. cbn [fst].
      destruct (Hfwd _ _ Hin) as (vb & Hvb & _).
      apply in_map_iff. exists (k', vb). split; [done|]. by apply own_property_key. }
    apply forallb_forall. intros [k vb] Hin. unfold same_property. cbn [fst snd].
    destruct (truthy_key k); [|done].
    assert (Hk : In k (map fst pa)).
    { apply Hkeys, in_map_iff. by exists (k, vb). }
    apply in_map_iff in Hk as [[k' va] [Hkk Hina]]. cbn [fst] in Hkk. subst k'.
    rewrite (own_property_first pa k va) by (by apply NoDup_ListNoDup || done).
    destruct (Hfwd _ _ Hina) as (vb' & Hvb' & Heq).
    rewrite (own_property_first pb k vb Hndb Hin) in Hvb'. injection Hvb' as <-.
    rewrite Forall_forall in IH.
    apply (IH (k, va)); try done.
    + by apply list_elem_of_In.
    + exact (distinct_keys_property pa k va Ha Hina).
    + exact (distinct_keys_property pb k vb Hb Hin).
    + cbn [nonempty_keys] in Hn. rewrite forallb_forall in Hn.
      apply Hn, andb_true_iff in Hina as [_ Hv]. exact Hv.
Qed.

(** Extra X2.  On values in which no object has a key twice or the empty
    string as a key, [deepEqual(a, b)] and [deepEqual(b, a)] are the
    same. *)
Theorem deepEqual_symmetric a b :
  distinct_keys a = true -> distinct_keys b = true ->
  nonempty_keys a = true -> nonempty_keys b = true ->
  deepEqual a b = deepEqual b a.
Proof.
  intros Ha Hb Hna Hnb.
  destruct (deepEqual a b) eqn:Hab, (deepEqual b a) eqn:Hba; try done.
  - by rewrite (deepEqual_sym_true a b) in Hba.
  - by rewrite (deepEqual_sym_true b a) in Hab.
Qed.

(** Two rows with their columns in different orders, compared in both
    directions: both walks go through the keys of the first argument. *)
Lemma deepEqual_symmetric_witness :
  deepEqual (VObj alice_row) (VObj alice_row_reordered)
  = deepEqual (VObj alice_row_reordered) (VObj alice_row).
Proof.
  apply deepEqual_symmetric; vm_compute; reflexivity.
Defined.

(** Without the hypothesis on the keys the two directions differ: a
    property whose key is the empty string is not compared. *)
Lemma deepEqual_skips_the_empty_key :
  deepEqual (VObj [("", VNull); ("x", VNull)]) (VObj [("y", VNull); ("x", VNull)]) = true
  /\ deepEqual (VObj [("y", VNull); ("x", VNull)]) (VObj [("", VNull); ("x", VNull)]) = false.
Proof. vm_compute. done. Qed.

(** * Live queries: properties *)

(** ** The conversion of a caught value *)




(** ** One notification round *)

(** The [Set] of subscribers after the callbacks [gone] have been deleted,
    one after the other. *)
Definition without (gone : list nat) (subs : list Subscriber) : list Subscriber :=
  fold_left (fun l i => List.filter (fun s => negb (Nat.eqb (sub_id s) i)) l) gone subs.

(** What a notification round does: the callbacks it calls, in order, the
    subscribers it leaves in the [Set], and the exception that ends it, if
    any. *)
Record Round : Type := mkRound {
  round_called : list Subscriber;
  round_left : list Subscriber;
  round_thrown : option thrown
}.

(** The round over the callbacks [todo] that are still to be visited, when
    [current] are the subscribers in the [Set] and the data is [d]. *)
Fixpoint called (d : value) (todo current : list Subscriber) : Round :=
  match todo with
  | [] => mkRound [] current None
  | s :: rest =>
      if has_subscriber (sub_id s) current then
        let current' := without (fst (sub_call s d)) current in
        match snd (sub_call s d) with
        | Some t => mkRound [s] current' (Some t)
        | None =>
            let r := called d rest current' in
            mkRound (s :: round_called r) (round_left r) (round_thrown r)
        end
      else called d rest current
  end.

Definition notifications (q : nat) (d : value) (subs : list Subscriber) : list Obs :=
  map (fun s => ObsNotify q (sub_id s) d) subs.

Definition add_trace (tr : list Obs) (w : World) : World :=
  mkWorld (query w) (currentTableCollector w) (trace w ++ tr).

Definition with_subscribers (subs : list Subscriber) (w : World) : World :=
  on_query (set_subscribers subs) w.

Lemma add_trace_nil w : add_trace [] w = w.
Proof. destruct w; unfold add_trace; simpl. by rewrite app_nil_r. Qed.

Lemma add_trace_app tr1 tr2 w : add_trace tr2 (add_trace tr1 w) = add_trace (tr1 ++ tr2) w.
Proof. unfold add_trace; simpl. by rewrite app_assoc. Qed.

Lemma with_subscribers_same w : with_subscribers (subscribers (query w)) w = w.
Proof. by destruct w as [[] ? ?]. Qed.

Definition completion_of (o : option thrown) : completion unit :=
  match o with None => Normal tt | Some t => Throw t end.

Lemma unsubscribe_loop gone : forall w,
  for_of gone unsubscribe w =
  (Normal tt, with_subscribers (without gone (subscribers (query w))) w).
Proof.
  induction gone as [|i gone IH]; intros w.
  - cbn. by rewrite with_subscribers_same.
  - cbn [for_of]. unfold mbind, Comp_bind. unfold unsubscribe at 1, modify.
    rewrite IH. reflexivity.
Qed.

Lemma call_subscriber_spec s d w :
  call_subscriber s d w =
  (completion_of (snd (sub_call s d)),
   add_trace [ObsNotify (id (query w)) (sub_id s) d]
     (with_subscribers (without (fst (sub_call s d)) (subscribers (query w))) w)).
Proof.
  unfold call_subscriber.
  unfold mbind at 1, Comp_bind at 1, gets at 1. cbn beta iota.
  unfold mbind at 1, Comp_bind at 1, observe at 1, modify at 1. cbn beta iota.
  unfold mbind, Comp_bind. rewrite unsubscribe_loop.
  by destruct (snd (sub_call s d)).
Qed.

(** The body of the loop of [notifySubscribers]. *)
Definition visit (sub : Subscriber) : Comp World unit :=
  present ← gets (fun w => has_subscriber (sub_id sub) (subscribers (query w)));
  when present
    (d ← gets (fun w => data (result (query w)));
     when (negb (is_undefined d)) (call_subscriber sub d)).

Lemma notify_loop todo : forall w,
  is_undefined (data (result (query w))) = false ->
  for_of todo visit w =
  let d := data (result (query w)) in
  let r := called d todo (subscribers (query w)) in
  (completion_of (round_thrown r),
   add_trace (notifications (id (query w)) d (round_called r))
     (with_subscribers (round_left r) w)).
Proof.
  induction todo as [|s todo IH]; intros w Hd.
  - cbn. by rewrite with_subscribers_same, add_trace_nil.
  - cbn [for_of called]. unfold mbind at 1, Comp_bind at 1.
    unfold visit at 1. unfold mbind at 1, Comp_bind at 1, gets at 1. cbn beta iota.
    destruct (has_subscriber (sub_id s) (subscribers (query w))) eqn:Hp; cbn [when].
    + unfold mbind at 1, Comp_bind at 1, gets at 1. cbn beta iota.
      rewrite Hd. cbn [negb when]. rewrite call_subscriber_spec.
      destruct (snd (sub_call s (data (result (query w))))) as [t|]; cbn [completion_of].
      * reflexivity.
      * rewrite IH by exact Hd. cbn zeta. cbn.
        unfold add_trace, with_subscribers, on_query. cbn.
        by rewrite <- app_assoc.
    + unfold mret, Comp_ret. by rewrite IH.
Qed.

Lemma notify_loop_undefined todo : forall w,
  is_undefined (data (result (query w))) = true ->
  for_of todo visit w = (Normal tt, w).
Proof.
  induction todo as [|s todo IH]; intros w Hd; [done|].
  cbn [for_of]. unfold mbind at 1, Comp_bind at 1.
  unfold visit at 1. unfold mbind at 1, Comp_bind at 1, gets at 1. cbn beta iota.
  destruct (has_subscriber _ _); cbn [when].
  - unfold mbind at 1, Comp_bind at 1, gets at 1. cbn beta iota.
    rewrite Hd. cbn. by apply IH.
  - unfold mret, Comp_ret. by apply IH.
Qed.

Lemma notifySubscribers_spec w :
  notifySubscribers w =
  let d := data (result (query w)) in
  if is_undefined d then (Normal tt, w)
  else
    let r := called d (subscribers (query w)) (subscribers (query w)) in
    (completion_of (round_thrown r),
     add_trace (notifications (id (query w)) d (round_called r))
       (with_subscribers (round_left r) w)).
Proof.
  unfold notifySubscribers. unfold mbind at 1, Comp_bind at 1, gets at 1. cbn beta iota zeta.
  fold visit.
  destruct (is_undefined (data (result (query w)))) eqn:Hd.
  - by apply notify_loop_undefined.
  - by apply notify_loop.
Qed.

(** ** What a round leaves in the [Set] *)

Lemma without_filter gone : forall subs,
  without gone subs =
  List.filter (fun s => negb (existsb (Nat.eqb (sub_id s)) gone)) subs.
Proof.
  induction gone as [|i gone IH]; intros subs; cbn.
  - induction subs as [|s subs IHs]; [done|]. cbn. by rewrite <- IHs.
  - rewrite IH. clear IH. induction subs as [|s subs IHs]; [done|]. cbn.
    destruct (Nat.eqb (sub_id s) i); cbn; [done|].
    destruct (existsb _ gone); cbn; by rewrite IHs.
Qed.

Lemma filter_filter {A} (f g : A -> bool) l :
  List.filter f (List.filter g l) = List.filter (fun x => g x && f x) l.
Proof.
  induction l as [|x l IH]; [done|]. cbn.
  destruct (g x); cbn; [|done]. destruct (f x); by rewrite IH.
Qed.

Lemma filter_true {A} (l : list A) : List.filter (fun _ => true) l = l.
Proof. induction l as [|x l IH]; [done|]. cbn. by rewrite IH. Qed.

(** A round only deletes from the [Set]. *)
Lemma called_left d todo : forall current,
  exists keep, round_left (called d todo current) = List.filter keep current.
Proof.
  induction todo as [|s todo IH]; intros current; cbn [called].
  - exists (fun _ => true). cbn. by rewrite filter_true.
  - destruct (has_subscriber _ _); [|apply IH].
    destruct (snd (sub_call s d)); cbn [round_left].
    + eexists. apply without_filter.
    + destruct (IH (without (fst (sub_call s d)) current)) as [keep Hk].
      rewrite Hk, without_filter, filter_filter. by eexists.
Qed.

(** A round calls registered callbacks only. *)
Lemma called_sublist d todo : forall current s,
  In s (round_called (called d todo current)) -> In s todo.
Proof.
  induction todo as [|s0 todo IH]; intros current s; cbn [called]; [done|].
  destruct (has_subscriber _ _).
  - destruct (snd (sub_call s0 d)); cbn [round_called].
    + intros [->|[]]. by left.
    + intros [->|Hin]; [by left|]. right. by apply (IH _ _ Hin).
  - intros Hin. right. by apply (IH _ _ Hin).
Qed.


Lemma elem_of_ids_filter sid keep subs :
  sid ∈ map sub_id (List.filter keep subs) -> sid ∈ map sub_id subs.
Proof.
  intros [s [Hs Hin]]%list_elem_of_In%in_map_iff.
  apply filter_In in Hin as [Hin _].
  apply list_elem_of_In, in_map_iff. by exists s.
Qed.



Lemma elem_of_ids_without sid gone subs :
  sid ∈ map sub_id (without gone subs) <-> sid ∈ map sub_id subs /\ sid ∉ gone.
Proof.
  rewrite without_filter. split.
  - intros [s [Hs Hin]]%list_elem_of_In%in_map_iff.
    apply filter_In in Hin as [Hin Hk]. split.
    + apply list_elem_of_In, in_map_iff. by exists s.
    + intros Hg. apply negb_true_iff in Hk.
      assert (existsb (Nat.eqb (sub_id s)) gone = true); [|congruence].
      apply existsb_exists. exists sid. split; [by apply list_elem_of_In|].
      by apply Nat.eqb_eq.
  - intros [[s [Hs Hin]]%list_elem_of_In%in_map_iff Hg].
    apply list_elem_of_In, in_map_iff. exists s. split; [done|].
    apply filter_In. split; [done|]. apply negb_true_iff.
    destruct (existsb _ gone) eqn:He; [|done].
    apply existsb_exists in He as (i & Hi & Heq). apply Nat.eqb_eq in Heq.
    exfalso. apply Hg. apply list_elem_of_In. congruence.
Qed.

(** ** [refetch] once the builder has settled *)

(** The world a [refetch] leaves behind: the subscribers [subs], data [d],
    error [e], not loading, the collector cleared after a first run, and
    [tr] observed. *)
Definition settled (w : World) (isFirstRun : bool) (subs : list Subscriber)
    (d : value) (e : option JSError) (tr : list Obs) : World :=
  mkWorld
    (mkLiveQuery (id (query w)) subs (tableDeps (query w)) (mkLiveResult d e false)
       (awaiting (query w)))
    (if isFirstRun then None else currentTableCollector w)
    (trace w ++ tr).

(** The [catch] block of [refetch], entered with [t] after [tr] has been
    observed, and the [finally] block after it. *)
Definition caught (w : World) (isFirstRun : bool) (subs : list Subscriber)
    (d : value) (tr : list Obs) (t : thrown) : completion unit * World :=
  let logged := tr ++ [ObsConsoleError (id (query w)) t] in
  match toError t with
  | Normal err => (Normal tt, settled w isFirstRun subs d (Some err) logged)
  | Throw t' => (Throw t', settled w isFirstRun subs d (error (result (query w))) logged)
  end.

Ltac run_comp :=
  unfold mbind, Comp_bind, mret, Comp_ret, gets, modify, throw, lift,
    observe, updateState, when; cbn.

Lemma refetch_resume_rejected w isFirstRun t :
  refetch_resume isFirstRun (Rejected t) w =
  caught w isFirstRun (subscribers (query w)) (data (result (query w))) [] t.
Proof.
  unfold caught, refetch_resume, try_finally, try_catch. run_comp.
  destruct w as [[qid subs deps [d e l] aw] c tr]. cbn.
  destruct (toError t); destruct isFirstRun; reflexivity.
Qed.

Lemma refetch_resume_fulfilled w isFirstRun newData :
  refetch_resume isFirstRun (Fulfilled newData) w =
  let old := data (result (query w)) in
  let subs := subscribers (query w) in
  let q := id (query w) in
  if deepEqual old newData then (Normal tt, settled w isFirstRun subs old None [])
  else if is_undefined newData then (Normal tt, settled w isFirstRun subs newData None [])
  else
    let r := called newData subs subs in
    match round_thrown r with
    | None =>
        (Normal tt,
         settled w isFirstRun (round_left r) newData None
           (notifications q newData (round_called r)))
    | Some t =>
        caught w isFirstRun (round_left r) newData
          (notifications q newData (round_called r)) t
    end.
Proof.
  unfold refetch_resume, try_finally, try_catch.
  unfold await. unfold mbind at 1, Comp_bind at 1, mret at 1, Comp_ret at 1. cbn beta iota.
  unfold mbind at 1, Comp_bind at 1, gets at 1. cbn beta iota zeta.
  destruct (deepEqual (data (result (query w))) newData) eqn:Heq.
  - cbn. unfold settled. rewrite app_nil_r.
    destruct w as [[qid subs deps [d e l] aw] c tr]. destruct isFirstRun; reflexivity.
  - cbn [negb when].
    unfold mbind at 1, Comp_bind at 1.
    unfold mbind at 1, Comp_bind at 1, updateState at 1, modify at 1. cbn beta iota.
    rewrite notifySubscribers_spec. cbn zeta.
    cbn [on_query query set_result result assign data subscribers id].
    destruct (is_undefined newData) eqn:Hu.
    + run_comp. unfold settled. rewrite app_nil_r.
      destruct w as [[qid subs deps [d e l] aw] c tr]. destruct isFirstRun; reflexivity.
    + destruct (called newData (subscribers (query w)) (subscribers (query w)))
        as [l left [t|]]; cbn [round_thrown round_called round_left completion_of].
      * unfold caught. run_comp. destruct (toError t); cbn;
          unfold settled; cbn; rewrite <- app_assoc; destruct isFirstRun; reflexivity.
      * run_comp. unfold settled. destruct isFirstRun; reflexivity.
Qed.

(** What the rest of a [refetch] may change: the subscribers it leaves are
    among those it found, and what it lets be observed are calls of
    subscribers it found and the report of a failure. *)
Definition told (q : nat) (subs : list Subscriber) (o : Obs) : Prop :=
  match o with
  | ObsBuilder _ => False
  | ObsNotify q' sid _ => q' = q /\ sid ∈ map sub_id subs
  | ObsConsoleError _ _ => True
  end.

Definition resumes (isFirstRun : bool) (w w' : World) : Prop :=
  exists keep d e tr,
    w' = settled w isFirstRun (List.filter keep (subscribers (query w))) d e tr
    /\ Forall (told (id (query w)) (subscribers (query w))) tr.

Lemma told_notifications q d subs l :
  (forall s, In s l -> In s subs) -> Forall (told q subs) (notifications q d l).
Proof.
  intros Hl. unfold notifications. apply Forall_map, Forall_forall.
  intros s Hs%list_elem_of_In. cbn. split; [done|].
  apply list_elem_of_In, in_map. by apply Hl.
Qed.

Lemma caught_resumes w isFirstRun keep d tr t :
  Forall (told (id (query w)) (subscribers (query w))) tr ->
  resumes isFirstRun w
    (snd (caught w isFirstRun (List.filter keep (subscribers (query w))) d tr t)).
Proof.
  intros Htr. unfold caught.
  assert (Hl : Forall (told (id (query w)) (subscribers (query w)))
                 (tr ++ [ObsConsoleError (id (query w)) t])).
  { apply Forall_app. split; [done|]. by apply Forall_singleton. }
  destruct (toError t); cbn [snd]; by eexists _, _, _, _.
Qed.

Lemma refetch_resume_resumes isFirstRun p w :
  resumes isFirstRun w (snd (refetch_resume isFirstRun p w)).
Proof.
  destruct p as [v|t].
  - rewrite refetch_resume_fulfilled. cbn zeta.
    destruct (deepEqual _ _); [|destruct (is_undefined _)].
    + exists (fun _ => true), (data (result (query w))), None, [].
      by rewrite filter_true.
    + exists (fun _ => true), v, None, []. by rewrite filter_true.
    + destruct (called_left v (subscribers (query w)) (subscribers (query w)))
        as [keep Hk].
      pose proof (called_sublist v (subscribers (query w)) (subscribers (query w)))
        as Hsub.
      destruct (called v _ _) as [l left [t|]]; cbn [round_left round_called round_thrown] in *;
        subst left.
      * apply caught_resumes. by apply told_notifications.
      * eexists _, _, _, _. split; [reflexivity|]. by apply told_notifications.
  - rewrite refetch_resume_rejected.
    rewrite <- (filter_true (subscribers (query w))) at 1.
    by apply caught_resumes.
Qed.

Lemma received_app q sid tr1 tr2 :
  received q sid (tr1 ++ tr2) = received q sid tr1 ++ received q sid tr2.
Proof.
  induction tr1 as [|o tr1 IH]; [done|].
  destruct o; cbn; try exact IH.
  destruct (_ && _); cbn; by rewrite IH.
Qed.


Definition rows1 : value := VArr [VNum (num_of_Z 1)].
Definition quiet_subscriber : Subscriber := mkSubscriber 1 (fun _ => ([], None)).
Definition fresh_world : World :=
  mkWorld (mkLiveQuery 1 [quiet_subscriber] [] (mkLiveResult VUndefined None true) []) None [].





Lemma refetch_begin_spec w :
  refetch_begin w =
  let isFirstRun := bool_decide (tableDeps (query w) = []) in
  (Normal isFirstRun,
   mkWorld
     (set_awaiting (awaiting (query w) ++ [isFirstRun])
        (set_result (assign (result (query w)) (UpdLoading true)) (query w)))
     (if isFirstRun then Some (OfQuery (id (query w))) else currentTableCollector w)
     (trace w ++ [ObsBuilder (id (query w))])).
Proof.
  unfold refetch_begin. run_comp.
  destruct (bool_decide (tableDeps (query w) = [])); reflexivity.
Qed.







(** ** Notifications over time *)



Lemma received_notifications_other q sid d subs :
  sid ∉ map sub_id subs -> received q sid (notifications q d subs) = [].
Proof.
  unfold notifications. induction subs as [|s subs IH]; [done|].
  cbn. rewrite not_elem_of_cons. intros [Hne Hnot].
  rewrite Nat.eqb_refl. cbn.
  destruct (Nat.eqb_spec (sub_id s) sid) as [Heq|_]; [congruence|]. by apply IH.
Qed.






Lemma subscribe_spec callback w :
  subscribe callback w =
  let subs := if has_subscriber (sub_id callback) (subscribers (query w))
              then subscribers (query w)
              else subscribers (query w) ++ [callback] in
  let d := data (result (query w)) in
  if is_undefined d then (Normal tt, with_subscribers subs w)
  else
    (completion_of (snd (sub_call callback d)),
     add_trace [ObsNotify (id (query w)) (sub_id callback) d]
       (with_subscribers (without (fst (sub_call callback d)) subs) w)).
Proof.
  unfold subscribe, mbind, Comp_bind, modify, gets, when, mret, Comp_ret.
  destruct w as [[qid subs deps [d e l] aw] c tr]. unfold on_query.
  cbn [query subscribers result data].
  destruct (has_subscriber (sub_id callback) subs);
    cbn [query subscribers result data set_subscribers];
    (destruct (is_undefined d); cbn [negb]; [reflexivity|]);
    by rewrite call_subscriber_spec.
Qed.








(** A callback that is subscribed a second time is called again with the
    data it has received last, and rows that hold an object under the key
    [constructor] are notified again although nothing has changed. *)
Lemma notification_repeats :
  received 1 1
    (trace (qrun fresh_world
              [QRefetch; QSettle 0 (Fulfilled rows1); QSubscribe quiet_subscriber]))
  = [rows1; rows1]
  /\ (let rows := VArr [VObj [("constructor", VObj [])]] in
      received 1 1
        (trace (qrun fresh_world
                  [QRefetch; QSettle 0 (Fulfilled rows);
                   QRefetch; QSettle 0 (Fulfilled rows)]))
      = [rows; rows]).
Proof. vm_compute. done. Qed.

(** ** Rounds with callbacks that throw or unsubscribe *)









Definition boom : thrown := ThrowError (mkError "Error" "boom").
Definition second_subscriber : Subscriber := mkSubscriber 2 (fun _ => ([], None)).


(** A callback that waits for the first result: when it is called it takes
    itself and the callback 2 out of the [Set]. *)
Definition waiting_subscriber : Subscriber :=
  mkSubscriber 1 (fun _ => ([1%nat; 2%nat], None)).

(** Three subscribers, the first of which takes itself and the second one
    out: the round calls the first and the third, which is the only one
    left. *)
Lemma unsubscribed_during_the_round :
  let w := mkWorld
             (mkLiveQuery 1
                [waiting_subscriber; second_subscriber; mkSubscriber 3 (fun _ => ([], None))]
                ["users"] (mkLiveResult rows1 None false) [])
             None [] in
  trace (snd (notifySubscribers w)) = [ObsNotify 1 1 rows1; ObsNotify 1 3 rows1]
  /\ map sub_id (subscribers (query (snd (notifySubscribers w)))) = [3%nat].
Proof. vm_compute. done. Qed.



(** * The client: properties *)

(** ** The change router *)

(** The record of a query after [refetch] has been called on it. *)
Definition started (q : LiveQuery) : LiveQuery :=
  set_awaiting (awaiting q ++ [bool_decide (tableDeps q = [])])
    (set_result (assign (result q) (UpdLoading true)) q).

Lemma focus_refetch c qid q :
  records c !! qid = Some q ->
  focus qid refetch_call c =
  (Normal tt,
   mkClient (<[qid := started q]> (records c)) (liveQueries c) (queryIdCounter c)
     (if bool_decide (tableDeps q = []) then Some (OfQuery (id q)) else collector c)
     (observed c ++ [ObsBuilder (id q)])).
Proof.
  intros Hq. unfold focus. rewrite Hq.
  unfold refetch_call, mbind, Comp_bind. rewrite refetch_begin_spec. reflexivity.
Qed.

(** Every record is stored under its own id. *)
Definition keyed (c : OporClient) : Prop :=
  forall k q, records c !! k = Some q -> id q = k.

Lemma hasOverlap_deps changed q :
  hasOverlap changed q = true -> bool_decide (tableDeps q = []) = false.
Proof.
  unfold hasOverlap. destruct (tableDeps q); [done|]. intros _.
  by apply bool_decide_eq_false.
Qed.

Lemma builder_calls_app q tr1 tr2 :
  builder_calls q (tr1 ++ tr2) = (builder_calls q tr1 + builder_calls q tr2)%nat.
Proof. unfold builder_calls. by rewrite List.filter_app, length_app. Qed.

Definition route (changed : string) (qid : nat) : Comp OporClient unit :=
  r ← gets (fun c => records c !! qid);
  match r with
  | Some q => when (hasOverlap changed q) (focus qid refetch_call)
  | None => mret tt
  end.

Lemma route_other changed i c qid :
  keyed c -> i <> qid ->
  let r := route changed i c in
  fst r = Normal tt
  /\ keyed (snd r)
  /\ liveQueries (snd r) = liveQueries c
  /\ queryIdCounter (snd r) = queryIdCounter c
  /\ records (snd r) !! qid = records c !! qid
  /\ builder_calls qid (observed (snd r)) = builder_calls qid (observed c).
Proof.
  intros Hk Hne. unfold route. unfold mbind, Comp_bind, gets. cbn beta iota.
  destruct (records c !! i) as [qi|] eqn:Hi; [|done].
  destruct (hasOverlap changed qi) eqn:Ho; cbn [when]; [|done].
  rewrite (focus_refetch _ _ _ Hi). cbn [fst snd records observed liveQueries queryIdCounter].
  repeat split.
  - unfold keyed; cbn. intros k q. destruct (decide (k = i)) as [->|Hki].
    + rewrite lookup_insert_eq. intros [= <-]. exact (Hk _ _ Hi).
    + rewrite lookup_insert_ne by done. apply Hk.
  - by rewrite lookup_insert_ne.
  - rewrite builder_calls_app. cbn. rewrite (Hk _ _ Hi).
    destruct (Nat.eqb_spec i qid); [done|]. cbn. lia.
Qed.

Lemma route_self changed c qid q :
  keyed c -> records c !! qid = Some q -> hasOverlap changed q = true ->
  let r := route changed qid c in
  fst r = Normal tt
  /\ keyed (snd r)
  /\ liveQueries (snd r) = liveQueries c
  /\ queryIdCounter (snd r) = queryIdCounter c
  /\ records (snd r) !! qid = Some (started q)
  /\ builder_calls qid (observed (snd r)) = S (builder_calls qid (observed c)).
Proof.
  intros Hk Hq Ho. unfold route. unfold mbind, Comp_bind, gets. cbn beta iota.
  rewrite Hq, Ho. cbn [when]. rewrite (focus_refetch _ _ _ Hq).
  cbn [fst snd records observed liveQueries queryIdCounter].
  repeat split.
  - unfold keyed; cbn. intros k q'. destruct (decide (k = qid)) as [->|Hki].
    + rewrite lookup_insert_eq. intros [= <-]. exact (Hk _ _ Hq).
    + rewrite lookup_insert_ne by done. apply Hk.
  - by rewrite lookup_insert_eq.
  - rewrite builder_calls_app. cbn. rewrite (Hk _ _ Hq), Nat.eqb_refl. cbn. lia.
Qed.

Lemma router_loop changed qid ids : forall c,
  keyed c -> qid ∉ ids ->
  let r := for_of ids (route changed) c in
  fst r = Normal tt
  /\ keyed (snd r)
  /\ liveQueries (snd r) = liveQueries c
  /\ queryIdCounter (snd r) = queryIdCounter c
  /\ records (snd r) !! qid = records c !! qid
  /\ builder_calls qid (observed (snd r)) = builder_calls qid (observed c).
Proof.
  induction ids as [|i ids IH]; intros c Hk Hnot; [done|].
  apply not_elem_of_cons in Hnot as [Hne Hnot].
  cbn [for_of]. unfold mbind, Comp_bind.
  destruct (route_other changed i c qid Hk) as (E1 & K1 & L1 & C1 & R1 & B1); [done|].
  destruct (route changed i c) as [r1 c1]. cbn in *. subst r1.
  destruct (IH c1 K1 Hnot) as (E2 & K2 & L2 & C2 & R2 & B2).
  cbn zeta in *. repeat split; try done; congruence.
Qed.

Lemma router_loop_hit changed qid ids : forall c q,
  keyed c -> NoDup ids -> qid ∈ ids ->
  records c !! qid = Some q -> hasOverlap changed q = true ->
  let r := for_of ids (route changed) c in
  fst r = Normal tt
  /\ keyed (snd r)
  /\ liveQueries (snd r) = liveQueries c
  /\ queryIdCounter (snd r) = queryIdCounter c
  /\ records (snd r) !! qid = Some (started q)
  /\ builder_calls qid (observed (snd r)) = S (builder_calls qid (observed c)).
Proof.
  induction ids as [|i ids IH]; intros c q Hk Hnd Hin Hq Ho.
  { by apply elem_of_nil in Hin. }
  apply NoDup_cons in Hnd as [Hi Hnd].
  cbn [for_of]. unfold mbind, Comp_bind.
  destruct (decide (i = qid)) as [->|Hne].
  - destruct (route_self changed c qid q Hk Hq Ho) as (E1 & K1 & L1 & C1 & R1 & B1).
    destruct (route changed qid c) as [r1 c1]. cbn in *. subst r1.
    destruct (router_loop changed qid ids c1 K1 Hi) as (E2 & K2 & L2 & C2 & R2 & B2).
    cbn zeta in *. repeat split; try done; congruence.
  - destruct (route_other changed i c qid Hk Hne) as (E1 & K1 & L1 & C1 & R1 & B1).
    destruct (route changed i c) as [r1 c1]. cbn in *. subst r1.
    apply elem_of_cons in Hin as [?|Hin]; [congruence|].
    rewrite <- R1 in Hq.
    destruct (IH c1 q K1 Hnd Hin Hq Ho) as (E2 & K2 & L2 & C2 & R2 & B2).
    cbn zeta in *. repeat split; try done; congruence.
Qed.

Lemma onTablesChanged_route t c :
  onTablesChanged t c = for_of (liveQueries c) (route (toLowerCase t)) c.
Proof. reflexivity. Qed.

(** ** Clients that can arise *)

Definition client_wf (c : OporClient) : Prop :=
  keyed c
  /\ NoDup (liveQueries c)
  /\ (forall k, k ∈ liveQueries c -> (k <= queryIdCounter c)%nat).

Lemma qevent_id e w : id (query (snd (qevent e w))) = id (query w).
Proof.
  destruct e as [|k p|callback|i|tables]; cbn [qevent].
  - unfold refetch_call, mbind, Comp_bind. by rewrite refetch_begin_spec.
  - unfold mbind at 1, Comp_bind at 1, gets at 1. cbn beta iota.
    destruct (nth_error _ k) as [b|]; [|done].
    unfold mbind, Comp_bind, modify. cbn beta iota.
    by destruct (refetch_resume_resumes b p
                   (on_query (set_awaiting (remove_nth k (awaiting (query w)))) w))
      as (keep & d & e & tr & -> & _).
  - rewrite subscribe_spec. cbn zeta. by destruct (is_undefined _).
  - reflexivity.
  - unfold mbind, Comp_bind, gets. cbn beta iota.
    by destruct (bool_decide _).
Qed.

Lemma focus_wf qid m c :
  (forall w, id (query (snd (m w))) = id (query w)) ->
  client_wf c -> client_wf (snd (focus qid m c)).
Proof.
  intros Hm (Hk & Hnd & Hb). unfold focus.
  destruct (records c !! qid) as [q|] eqn:Hq; [|done].
  specialize (Hm (mkWorld q (collector c) (observed c))).
  destruct (m _) as [r w]. cbn in *.
  split; [|done].
  unfold keyed; cbn. intros k q'. destruct (decide (k = qid)) as [->|Hne].
  - rewrite lookup_insert_eq. intros [= <-]. rewrite Hm. exact (Hk _ _ Hq).
  - rewrite lookup_insert_ne by done. apply Hk.
Qed.

Lemma router_wf changed ids : forall c,
  keyed c ->
  let r := for_of ids (route changed) c in
  keyed (snd r)
  /\ liveQueries (snd r) = liveQueries c
  /\ queryIdCounter (snd r) = queryIdCounter c.
Proof.
  induction ids as [|i ids IH]; intros c Hk; [done|].
  cbn [for_of]. unfold mbind, Comp_bind.
  destruct (route_other changed i c (S i) Hk) as (E1 & K1 & L1 & C1 & _); [lia|].
  destruct (route changed i c) as [r1 c1]. cbn in *. subst r1.
  destruct (IH c1 K1) as (K2 & L2 & C2). cbn zeta in *.
  repeat split; try done; congruence.
Qed.

Lemma createLiveQuery_spec c :
  createLiveQuery c =
  let qid := S (queryIdCounter c) in
  let q0 := mkLiveQuery qid [] [] (mkLiveResult VUndefined None true) [] in
  (Normal qid,
   mkClient (<[qid := started q0]> (<[qid := q0]> (records c)))
     (liveQueries c ++ [qid]) qid (Some (OfQuery qid)) (observed c ++ [ObsBuilder qid])).
Proof.
  unfold createLiveQuery. run_comp. unfold focus. cbn. rewrite lookup_insert_eq.
  unfold refetch_call, mbind, Comp_bind. rewrite refetch_begin_spec. reflexivity.
Qed.

Lemma step_wf c e : client_wf c -> client_wf (step c e).
Proof.
  intros Hwf. unfold step. destruct e as [|qid|t|tables|qid e|collects]; cbn [event].
  - (* liveQuery *)
    destruct Hwf as (Hk & Hnd & Hb).
    unfold mbind, Comp_bind. rewrite createLiveQuery_spec. cbn zeta.
    set (qid := S (queryIdCounter c)).
    unfold mret, Comp_ret. cbn [snd].
    split; [|split]; cbn.
    + unfold keyed; cbn. intros k q. destruct (decide (k = qid)) as [->|Hne].
      * rewrite lookup_insert_eq. by intros [= <-].
      * rewrite !lookup_insert_ne by done. apply Hk.
    + apply NoDup_app. split; [done|]. split; [|apply NoDup_singleton].
      intros k Hin ->%list_elem_of_singleton. apply Hb in Hin. subst qid. lia.
    + intros k [Hin| ->%list_elem_of_singleton]%elem_of_app; [|done].
      apply Hb in Hin. subst qid. lia.
  - (* destroy *)
    destruct Hwf as (Hk & Hnd & Hb). unfold destroy, modify. cbn.
    split; [done|]. split; cbn.
    + apply NoDup_ListNoDup, List.NoDup_filter, NoDup_ListNoDup, Hnd.
    + intros k Hin. apply Hb. apply list_elem_of_In. apply list_elem_of_In, filter_In in Hin. tauto.
  - (* a table has changed *)
    destruct Hwf as (Hk & Hnd & Hb). rewrite onTablesChanged_route.
    destruct (router_wf (toLowerCase t) (liveQueries c) c Hk) as (K & L & C).
    cbn zeta in *. split; [done|]. rewrite L, C. done.
  - (* a statement is logged *)
    unfold mbind, Comp_bind, gets. cbn beta iota.
    destruct (collector c) as [[qid|]|]; [|done|done].
    by apply focus_wf.
  - apply focus_wf; [|done]. intros w. apply qevent_id.
  - (* another client assigns the collector *)
    exact Hwf.
Qed.

Lemma run_events_wf es : forall c, client_wf c -> client_wf (run_events c es).
Proof.
  induction es as [|e es IH]; intros c Hc; [done|].
  cbn. by apply IH, step_wf.
Qed.

Lemma init_client_wf : client_wf init_client.
Proof.
  split; [|split]; cbn.
  - unfold keyed; cbn. intros k q. by rewrite lookup_empty.
  - apply NoDup_nil. done.
  - by intros k ?%elem_of_nil.
Qed.

Lemma changed_n_times t qid n : forall c q,
  client_wf c ->
  records c !! qid = Some q -> qid ∈ liveQueries c ->
  hasOverlap (toLowerCase t) q = true ->
  let c' := run_events c (repeat (TableChanged t) n) in
  in_flight qid c' = (in_flight qid c + n)%nat
  /\ builder_calls qid (observed c') = (builder_calls qid (observed c) + n)%nat.
Proof.
  induction n as [|n IH]; intros c q Hwf Hq Hin Ho; cbn zeta.
  { cbn. lia. }
  cbn [repeat run_events fold_left].
  assert (Hwf' := step_wf c (TableChanged t) Hwf).
  destruct Hwf as (Hk & Hnd & Hb).
  destruct (router_loop_hit (toLowerCase t) qid (liveQueries c) c q Hk Hnd Hin Hq Ho)
    as (E & K & L & C & R & B).
  cbn zeta in *.
  change (for_of (liveQueries c) (route (toLowerCase t)) c).2
    with (step c (TableChanged t)) in *.
  destruct (IH _ (started q) Hwf' R) as [I1 I2].
  { by rewrite L. }
  { exact Ho. }
  cbn zeta in *. unfold run_events in *.
  rewrite I1, I2, B. unfold in_flight. rewrite R, Hq. cbn.
  rewrite length_app. cbn. lia.
Qed.

(** Claim C3, amended.  Refetches of one live query are not serialized:
    in every reachable state of the client, each change event on a table
    the query depends on calls [refetch] at once, whether or not a refetch
    of the query is in flight.  [n] change events in a row start [n] builder
    calls and leave [n] more refetches in flight. *)
Theorem every_change_starts_a_refetch es t n qid q :
  let c := run_events init_client es in
  records c !! qid = Some q ->
  qid ∈ liveQueries c ->
  hasOverlap (toLowerCase t) q = true ->
  let c' := run_events c (repeat (TableChanged t) n) in
  in_flight qid c' = (in_flight qid c + n)%nat
  /\ builder_calls qid (observed c') = (builder_calls qid (observed c) + n)%nat.
Proof.
  intros c Hq Hin Ho. apply (changed_n_times t qid n c q); try done.
  apply run_events_wf, init_client_wf.
Qed.

Definition users_client : list Event :=
  [CallLiveQuery; StatementLogged ["users"]; OnQuery 1 (QSettle 0 (Fulfilled (VArr [])))].

(** A query on [users] whose first fetch has settled: three change events
    start three refetches. *)
Lemma every_change_starts_a_refetch_witness :
  let c := run_events init_client users_client in
  let c' := run_events c (repeat (TableChanged "users") 3) in
  in_flight 1 c' = (in_flight 1 c + 3)%nat
  /\ builder_calls 1 (observed c') = (builder_calls 1 (observed c) + 3)%nat.
Proof.
  apply (every_change_starts_a_refetch users_client "users" 3 1
           (mkLiveQuery 1 [] ["users"] (mkLiveResult (VArr []) None false) [])).
  - vm_compute. reflexivity.
  - vm_compute. apply list_elem_of_singleton. reflexivity.
  - vm_compute. reflexivity.
Defined.

(** Claim C3 as stated fails: it is not the case that at most one refetch
    of a query is in flight.  Three change events that arrive while the
    builder calls are pending leave three refetches in flight. *)
Lemma refetches_are_not_serialized :
  ~ (forall es qid, (in_flight qid (run_events init_client es) <= 1)%nat).
Proof.
  intros H.
  specialize (H (users_client ++ [TableChanged "users"; TableChanged "Users"; TableChanged "USERS"]) 1%nat).
  vm_compute in H. lia.
Qed.

(** ** Unsubscribing *)

(** What a refetch lets be observed after the builder has settled
    concerns registered callbacks only. *)
Lemma received_told q q' sid subs tr :
  Forall (told q subs) tr -> sid ∉ map sub_id subs -> received q' sid tr = [].
Proof.
  intros Htr Hnot. induction Htr as [|o tr Ho _ IH]; [done|].
  destruct o as [b|b i d|b t]; cbn in *; try done.
  destruct Ho as [-> Hi].
  destruct (Nat.eqb_spec i sid) as [->|_]; [done|].
  by rewrite andb_false_r.
Qed.

(** The events that do not subscribe the callback [sid]. *)
Definition leaves_out (sid : nat) (e : QEvent) : Prop :=
  match e with
  | QSubscribe callback => sub_id callback <> sid
  | _ => True
  end.

Lemma absent_step sid w e :
  sid ∉ map sub_id (subscribers (query w)) ->
  leaves_out sid e ->
  (sid ∉ map sub_id (subscribers (query (qstep w e))))
  /\ received (id (query w)) sid (trace (qstep w e))
     = received (id (query w)) sid (trace w).
Proof.
  intros Hnot He. unfold qstep.
  enough (HP : forall P : World -> Prop,
            (forall w', sid ∉ map sub_id (subscribers (query w')) ->
                        received (id (query w)) sid (trace w')
                        = received (id (query w)) sid (trace w) -> P w') ->
            P (snd (qevent e w)))
    by (apply HP; auto).
  intros P HP.
  destruct e as [|k p|callback|i|tables]; cbn [qevent].
  - unfold refetch_call, mbind, Comp_bind. rewrite refetch_begin_spec.
    apply HP; cbn; [exact Hnot|]. rewrite received_app. cbn. by rewrite app_nil_r.
  - unfold mbind at 1, Comp_bind at 1, gets at 1. cbn beta iota.
    destruct (nth_error _ k) as [b|]; [|apply HP; [exact Hnot|reflexivity]].
    unfold mbind, Comp_bind, modify. cbn beta iota.
    destruct (refetch_resume_resumes b p
                (on_query (set_awaiting (remove_nth k (awaiting (query w)))) w))
      as (keep & d & e & tr & -> & Htr).
    cbn [on_query query set_awaiting subscribers id] in Htr |- *.
    apply HP; cbn [settled query subscribers trace].
    + intros Hin. by apply Hnot, (elem_of_ids_filter _ keep).
    + by rewrite received_app, (received_told _ _ _ _ _ Htr Hnot), app_nil_r.
  - cbn in He. rewrite subscribe_spec. cbn zeta.
    set (subs := if has_subscriber _ _ then _ else _).
    assert (Hstill : sid ∉ map sub_id subs).
    { subst subs. destruct (has_subscriber _ _); [done|]. rewrite map_app. cbn.
      rewrite elem_of_app, list_elem_of_singleton. intros [?|?]; [done|congruence]. }
    clearbody subs.
    destruct (is_undefined _); cbn [snd]; apply HP; cbn -[without]; try done.
    + rewrite elem_of_ids_without. tauto.
    + rewrite received_app. cbn.
      destruct (Nat.eqb_spec (sub_id callback) sid) as [?|_]; [done|].
      by rewrite andb_false_r, app_nil_r.
  - apply HP; cbn; [|done].
    intros [s [Hs Hin]]%list_elem_of_In%in_map_iff. apply filter_In in Hin as [Hin _].
    apply Hnot, list_elem_of_In, in_map_iff. by exists s.
  - unfold mbind, Comp_bind, gets. cbn beta iota.
    destruct (bool_decide _); apply HP; cbn; solve [exact Hnot|reflexivity].
Qed.

Lemma absent_run sid es : forall w,
  sid ∉ map sub_id (subscribers (query w)) ->
  Forall (leaves_out sid) es ->
  received (id (query w)) sid (trace (qrun w es)) = received (id (query w)) sid (trace w).
Proof.
  induction es as [|e es IH]; intros w Hnot Hes; [done|].
  apply Forall_cons in Hes as [He Hes].
  destruct (absent_step sid w e Hnot He) as [Hnot' Hr].
  cbn [qrun fold_left]. fold (qrun (qstep w e) es).
  pose proof (qevent_id e w) as Hid. fold (qstep w e) in Hid.
  rewrite <- Hid at 1. rewrite IH by done. by rewrite Hid.
Qed.

(** Extra X3.  Once the function returned by [subscribe] has been called,
    the callback is not called again, whatever refetches, results and other
    subscriptions follow, as long as the callback itself is not subscribed
    again. *)
Theorem unsubscribed_callback_is_not_called w es sid :
  Forall (leaves_out sid) es ->
  received (id (query w)) sid (trace (qrun (qstep w (QUnsubscribe sid)) es))
  = received (id (query w)) sid (trace w).
Proof.
  intros Hes.
  change (id (query w)) with (id (query (qstep w (QUnsubscribe sid)))).
  rewrite absent_run; [done| |done].
  cbn. intros [s [Hs Hin]]%list_elem_of_In%in_map_iff.
  apply filter_In in Hin as [_ Hne]. apply negb_true_iff, Nat.eqb_neq in Hne. done.
Qed.

(** One subscriber that leaves after the first result; two more results
    arrive. *)
Lemma unsubscribed_callback_is_not_called_witness :
  received 1 1
    (trace (qrun (qstep (qrun fresh_world [QRefetch; QSettle 0 (Fulfilled rows1)])
                    (QUnsubscribe 1))
              [QRefetch; QSettle 0 (Fulfilled (VArr [])); QSubscribe second_subscriber]))
  = received 1 1 (trace (qrun fresh_world [QRefetch; QSettle 0 (Fulfilled rows1)])).
Proof.
  apply (unsubscribed_callback_is_not_called
           (qrun fresh_world [QRefetch; QSettle 0 (Fulfilled rows1)])).
  repeat (apply Forall_cons; split; [cbn; done|]). apply Forall_nil. done.
Defined.

(** ** Changes that concern no query *)

(** Extra X4.  A change of a table that is in the dependencies of no
    registered live query leaves the client as it is: no builder is
    called. *)
Theorem unrelated_change_is_ignored tableName c :
  (forall qid q, qid ∈ liveQueries c -> records c !! qid = Some q ->
                 hasOverlap (toLowerCase tableName) q = false) ->
  onTablesChanged tableName c = (Normal tt, c).
Proof.
  rewrite onTablesChanged_route.
  generalize (liveQueries c) as ids.
  induction ids as [|i ids IH]; intros Hno; [done|].
  cbn [for_of]. unfold mbind, Comp_bind.
  assert (Hi : route (toLowerCase tableName) i c = (Normal tt, c)).
  { unfold route, mbind, Comp_bind, gets. cbn beta iota.
    destruct (records c !! i) as [q|] eqn:Hq; [|done].
    rewrite (Hno i q); [done|by left|done]. }
  rewrite Hi. apply IH. intros qid q Hin. apply Hno. by right.
Qed.

(** A query on [users]; the table [orders] changes. *)
Lemma unrelated_change_is_ignored_witness :
  onTablesChanged "Orders" (run_events init_client users_client)
  = (Normal tt, run_events init_client users_client).
Proof.
  apply unrelated_change_is_ignored.
  intros qid q Hin. vm_compute in Hin. apply list_elem_of_singleton in Hin. subst qid.
  vm_compute. intros [= <-]. reflexivity.
Defined.

(** ** A destroyed query *)

Lemma builder_calls_told qid q subs tr :
  Forall (told q subs) tr -> builder_calls qid tr = 0%nat.
Proof.
  unfold builder_calls. induction 1 as [|o tr Ho _ IH]; [done|].
  by destruct o.
Qed.

(** Only a call of [refetch] calls the builder. *)
Lemma qevent_builder_calls e w qid :
  (e = QRefetch -> id (query w) <> qid) ->
  builder_calls qid (trace (snd (qevent e w))) = builder_calls qid (trace w).
Proof.
  intros He.
  destruct e as [|k p|callback|i|tables]; cbn [qevent].
  - unfold refetch_call, mbind, Comp_bind. rewrite refetch_begin_spec. cbn -[builder_calls].
    rewrite builder_calls_app. cbn.
    destruct (Nat.eqb_spec (id (query w)) qid) as [Heq|_]; [by destruct He|]. cbn. lia.
  - unfold mbind at 1, Comp_bind at 1, gets at 1. cbn beta iota.
    destruct (nth_error _ k) as [b|]; [|done].
    unfold mbind, Comp_bind, modify. cbn beta iota.
    destruct (refetch_resume_resumes b p
                (on_query (set_awaiting (remove_nth k (awaiting (query w)))) w))
      as (keep & d & e & tr & -> & Htr).
    cbn [settled trace on_query].
    rewrite builder_calls_app, (builder_calls_told _ _ _ _ Htr). lia.
  - rewrite subscribe_spec. cbn zeta.
    destruct (is_undefined _); cbn -[builder_calls]; [done|].
    rewrite builder_calls_app. cbn. lia.
  - reflexivity.
  - unfold mbind, Comp_bind, gets. cbn beta iota.
    by destruct (bool_decide _).
Qed.

(** The events other than a call of [refetch] on the query [qid] by the
    application. *)
Definition no_refetch_of (qid : nat) (e : Event) : Prop :=
  match e with
  | OnQuery i QRefetch => i <> qid
  | _ => True
  end.

Definition destroyed (qid : nat) (c : OporClient) : Prop :=
  client_wf c /\ (qid ∉ liveQueries c) /\ (qid <= queryIdCounter c)%nat.

Lemma focus_builder_calls i m c qid :
  keyed c ->
  (forall w, id (query w) = i ->
     builder_calls qid (trace (snd (m w))) = builder_calls qid (trace w)) ->
  builder_calls qid (observed (snd (focus i m c))) = builder_calls qid (observed c).
Proof.
  intros Hk Hm. unfold focus.
  destruct (records c !! i) as [q|] eqn:Hq; [|done].
  specialize (Hm (mkWorld q (collector c) (observed c)) (Hk _ _ Hq)).
  destruct (m _) as [r w]. exact Hm.
Qed.

Lemma focus_liveQueries i m c :
  liveQueries (snd (focus i m c)) = liveQueries c
  /\ queryIdCounter (snd (focus i m c)) = queryIdCounter c.
Proof.
  unfold focus. destruct (records c !! i) as [q|]; [|done]. by destruct (m _).
Qed.

Lemma destroyed_step qid c e :
  destroyed qid c -> no_refetch_of qid e ->
  destroyed qid (step c e)
  /\ builder_calls qid (observed (step c e)) = builder_calls qid (observed c).
Proof.
  intros (Hwf & Hnot & Hle) He.
  assert (Hwf' := step_wf c e Hwf). destruct Hwf as (Hk & Hnd & Hb).
  unfold destroyed. unfold step in *.
  destruct e as [|k|t|tables|i e|collects]; cbn [event] in *.
  - unfold mbind, Comp_bind in *. rewrite createLiveQuery_spec in *.
    cbn -[builder_calls] in *.
    split; [split; [exact Hwf'|split]|].
    + rewrite elem_of_app, list_elem_of_singleton. intros [?|?]; [done|lia].
    + lia.
    + rewrite builder_calls_app. unfold builder_calls at 2. cbn [List.filter].
      destruct (Nat.eqb_spec (S (queryIdCounter c)) qid) as [Heq|_]; [lia|]. cbn. lia.
  - unfold destroy, modify in *. cbn -[builder_calls] in *.
    split; [split; [exact Hwf'|split; [|exact Hle]]|reflexivity].
    intros Hin. apply Hnot, list_elem_of_In. apply list_elem_of_In, filter_In in Hin. tauto.
  - rewrite onTablesChanged_route in *.
    destruct (router_loop (toLowerCase t) qid (liveQueries c) c Hk Hnot)
      as (_ & _ & L & C & _ & B).
    cbn zeta in *. rewrite L, C.
    split; [split; [exact Hwf'|split; [exact Hnot|exact Hle]]|exact B].
  - unfold mbind, Comp_bind, gets in *. cbn beta iota in *.
    destruct (collector c) as [[i|]|];
      [|split; [split; [exact Hwf'|split; [exact Hnot|exact Hle]]|reflexivity]..].
    destruct (focus_liveQueries i (collect tables) c) as [L C]. rewrite L, C.
    split; [split; [exact Hwf'|split; [exact Hnot|exact Hle]]|].
    apply focus_builder_calls; [done|]. intros w _. reflexivity.
  - destruct (focus_liveQueries i (qevent e) c) as [L C]. rewrite L, C.
    split; [split; [exact Hwf'|split; [exact Hnot|exact Hle]]|].
    apply focus_builder_calls; [done|]. intros w Hw.
    apply qevent_builder_calls. intros ->. cbn in He. congruence.
  - split; [split; [exact Hwf'|split; [exact Hnot|exact Hle]]|reflexivity].
Qed.

Lemma destroyed_run qid es : forall c,
  destroyed qid c -> Forall (no_refetch_of qid) es ->
  builder_calls qid (observed (run_events c es)) = builder_calls qid (observed c).
Proof.
  induction es as [|e es IH]; intros c Hc Hes; [done|].
  apply Forall_cons in Hes as [He Hes].
  destruct (destroyed_step qid c e Hc He) as [Hc' Hb].
  cbn [run_events fold_left]. fold (run_events (step c e) es).
  by rewrite IH.
Qed.

(** Extra X5.  After [destroy] the builder of the query is not called
    again by any change of a table; only a call of [refetch] by the
    application still calls it.  New queries, settling fetches, other
    queries and subscriptions do not change this. *)
Theorem destroyed_query_is_not_refetched es qid es' :
  let c := run_events init_client es in
  (qid <= queryIdCounter c)%nat ->
  Forall (no_refetch_of qid) es' ->
  builder_calls qid (observed (run_events (step c (CallDestroy qid)) es'))
  = builder_calls qid (observed c).
Proof.
  intros c Hle Hes'.
  assert (Hwf : client_wf c) by apply run_events_wf, init_client_wf.
  rewrite destroyed_run; [done| |done].
  split; [by apply step_wf|]. split; [|done].
  cbn. intros Hin. apply list_elem_of_In, filter_In in Hin as [_ Hne].
  by rewrite Nat.eqb_refl in Hne.
Qed.

(** The query on [users] is destroyed; its table changes twice, a second
    query is created and the pending first fetch settles. *)
Lemma destroyed_query_is_not_refetched_witness :
  builder_calls 1
    (observed (run_events
                 (step (run_events init_client
                          [CallLiveQuery; StatementLogged ["users"]])
                    (CallDestroy 1))
                 [TableChanged "users"; CallLiveQuery;
                  OnQuery 1 (QSettle 0 (Fulfilled (VArr []))); TableChanged "USERS"]))
  = builder_calls 1
      (observed (run_events init_client [CallLiveQuery; StatementLogged ["users"]])).
Proof.
  apply (destroyed_query_is_not_refetched [CallLiveQuery; StatementLogged ["users"]] 1).
  - vm_compute. lia.
  - repeat (apply Forall_cons; split; [cbn; done|]). apply Forall_nil. done.
Defined.

(** ** The table collector *)

















(** With a second client in the process the variable may be set while this
    client is idle, and may be cleared while its first fetch is in
    flight. *)
Lemma collector_is_shared :
  collector (run_events init_client [OtherClient true]) = Some OfOtherClient
  /\ collector (run_events init_client [CallLiveQuery; OtherClient false]) = None
  /\ in_flight 1 (run_events init_client [CallLiveQuery; OtherClient false]) = 1%nat.
Proof. vm_compute. done. Qed.

(** ** The dependencies of a new query *)

(** [for (const table of tables) currentTableCollector.add(table)] *)
Definition add_tables (tables deps : list string) : list string :=
  fold_left (fun s t => set_add t s) tables deps.

Lemma elem_of_set_add t x s : x ∈ set_add t s <-> x ∈ s \/ x = t.
Proof.
  unfold set_add. destruct (bool_decide (t ∈ s)) eqn:Ht.
  - apply bool_decide_eq_true in Ht. split; [by left|]. by intros [?| ->].
  - rewrite elem_of_app, list_elem_of_singleton. done.
Qed.

Lemma NoDup_set_add t s : NoDup s -> NoDup (set_add t s).
Proof.
  intros Hs. unfold set_add. destruct (bool_decide (t ∈ s)) eqn:Ht; [done|].
  apply bool_decide_eq_false in Ht. apply NoDup_app. split; [done|].
  split; [|apply NoDup_singleton]. by intros x Hx ->%list_elem_of_singleton.
Qed.

Lemma add_tables_spec tables : forall deps,
  (forall x, x ∈ add_tables tables deps <-> x ∈ deps \/ x ∈ tables)
  /\ (NoDup deps -> NoDup (add_tables tables deps)).
Proof.
  induction tables as [|t tables IH]; intros deps; cbn.
  - split; [|done]. intros x. rewrite elem_of_nil. tauto.
  - destruct (IH (set_add t deps)) as [I1 I2]. split.
    + intros x. rewrite I1, elem_of_set_add, elem_of_cons. tauto.
    + intros Hnd. by apply I2, NoDup_set_add.
Qed.

(** The statements logged while the first builder call of the new query
    runs. *)
Lemma first_run_statements tss : forall c qid q,
  records c !! qid = Some q -> collector c = Some (OfQuery qid) ->
  let c' := run_events c (map StatementLogged tss) in
  collector c' = Some (OfQuery qid)
  /\ liveQueries c' = liveQueries c
  /\ queryIdCounter c' = queryIdCounter c
  /\ observed c' = observed c
  /\ records c' !! qid =
     Some (set_tableDeps (fold_left (fun deps ts => add_tables ts deps) tss (tableDeps q)) q).
Proof.
  induction tss as [|ts tss IH]; intros c qid q Hq Hc; cbn zeta.
  { cbn. repeat split; try done. rewrite Hq. by destruct q. }
  cbn [map run_events fold_left].
  set (c1 := step c (StatementLogged ts)).
  assert (H1 : c1 = mkClient (<[qid := set_tableDeps (add_tables ts (tableDeps q)) q]> (records c))
                      (liveQueries c) (queryIdCounter c) (Some (OfQuery qid)) (observed c)).
  { unfold c1, step. cbn [event]. unfold mbind, Comp_bind, gets. cbn beta iota.
    rewrite Hc. unfold focus. rewrite Hq. unfold collect, modify, on_query. cbn.
    by rewrite Hc. }
  destruct (IH c1 qid (set_tableDeps (add_tables ts (tableDeps q)) q)) as (I1 & I2 & I3 & I4 & I5).
  { rewrite H1. cbn. by rewrite lookup_insert_eq. }
  { by rewrite H1. }
  cbn zeta in *. unfold run_events in *.
  rewrite I1, I2, I3, I4, I5, H1. cbn. repeat split; try done.
Qed.

Lemma run_events_app c es1 es2 :
  run_events c (es1 ++ es2) = run_events (run_events c es1) es2.
Proof. apply fold_left_app. Qed.

(** The only suspended call of [refetch], a first run, resumes. *)
Lemma settle_first_run c qid q p :
  records c !! qid = Some q -> awaiting q = [true] ->
  let c' := step c (OnQuery qid (QSettle 0 p)) in
  exists q', records c' !! qid = Some q'
    /\ tableDeps q' = tableDeps q /\ awaiting q' = [] /\ collector c' = None
    /\ liveQueries c' = liveQueries c.
Proof.
  intros Hq Ha. cbn zeta.
  set (P := fun c' : OporClient =>
              exists q', records c' !! qid = Some q'
                /\ tableDeps q' = tableDeps q /\ awaiting q' = [] /\ collector c' = None
                /\ liveQueries c' = liveQueries c).
  change (P (step c (OnQuery qid (QSettle 0 p)))).
  unfold step. cbn [event]. unfold focus. rewrite Hq.
  cbn [qevent]. unfold mbind at 1, Comp_bind at 1, gets at 1. cbn beta iota.
  cbn [query]. rewrite Ha. cbn [nth_error].
  unfold mbind, Comp_bind, modify. cbn beta iota.
  destruct (refetch_resume_resumes true p
              (on_query (set_awaiting (remove_nth 0 [true]))
                 (mkWorld q (collector c) (observed c))))
    as (keep & d & e & tr & Hw & _).
  destruct (refetch_resume true p _) as [r w']. cbn [snd] in Hw. subst w'.
  unfold P. cbn. eexists. rewrite lookup_insert_eq.
  split; [reflexivity|]. done.
Qed.

Lemma first_run c tss p :
  let qid := S (queryIdCounter c) in
  let c' := run_events c (CallLiveQuery :: map StatementLogged tss
                            ++ [OnQuery qid (QSettle 0 p)]) in
  exists q,
    records c' !! qid = Some q
    /\ (forall t, t ∈ tableDeps q <-> exists ts, ts ∈ tss /\ t ∈ ts)
    /\ NoDup (tableDeps q)
    /\ awaiting q = []
    /\ collector c' = None
    /\ liveQueries c' = liveQueries c ++ [qid].
Proof.
  intros qid c'. unfold c'.
  change (CallLiveQuery :: map StatementLogged tss ++ [OnQuery qid (QSettle 0 p)])
    with ([CallLiveQuery] ++ map StatementLogged tss ++ [OnQuery qid (QSettle 0 p)]).
  rewrite !run_events_app.
  change (run_events c [CallLiveQuery]) with (step c CallLiveQuery).
  match goal with
  | |- context [run_events ?x [?e]] => change (run_events x [e]) with (step x e)
  end.
  set (q0 := mkLiveQuery qid [] [] (mkLiveResult VUndefined None true) []).
  assert (H0 : step c CallLiveQuery =
               mkClient (<[qid := started q0]> (<[qid := q0]> (records c)))
                 (liveQueries c ++ [qid]) qid (Some (OfQuery qid))
                 (observed c ++ [ObsBuilder qid])).
  { unfold step. cbn [event]. unfold mbind, Comp_bind. by rewrite createLiveQuery_spec. }
  destruct (first_run_statements tss (step c CallLiveQuery) qid (started q0))
    as (I1 & I2 & _ & _ & I5).
  { rewrite H0. cbn. by rewrite lookup_insert_eq. }
  { by rewrite H0. }
  cbn zeta in I1, I2, I5.
  set (c1 := run_events (step c CallLiveQuery) (map StatementLogged tss)) in *.
  set (deps := fold_left (fun deps ts => add_tables ts deps) tss (tableDeps (started q0))) in *.
  assert (Hdeps : (forall t, t ∈ deps <-> exists ts, ts ∈ tss /\ t ∈ ts) /\ NoDup deps).
  { unfold deps. cbn [started tableDeps set_awaiting set_result q0].
    enough (G : forall d, NoDup d ->
              (forall t, t ∈ fold_left (fun deps ts => add_tables ts deps) tss d
                         <-> t ∈ d \/ exists ts, ts ∈ tss /\ t ∈ ts)
              /\ NoDup (fold_left (fun deps ts => add_tables ts deps) tss d)).
    { destruct (G [] (NoDup_nil_2 (A:=string))) as [G1 G2]. split; [|done].
      intros t. rewrite G1, elem_of_nil. tauto. }
    clear. induction tss as [|ts tss IH]; intros d Hd; cbn.
    - split; [|done]. intros t. split; [by left|].
      intros [?|(ts & Hts & _)]; [done|]. by apply elem_of_nil in Hts.
    - destruct (add_tables_spec ts d) as [A1 A2].
      destruct (IH (add_tables ts d) (A2 Hd)) as [I1 I2]. split; [|done].
      intros t. rewrite I1, A1. split.
      + intros [[?|?]|(ts' & H1 & H2)]; [by left| |].
        * right. exists ts. split; [by left|done].
        * right. exists ts'. split; [by right|done].
      + intros [?|(ts' & [->|H1]%elem_of_cons & H2)]; [by left; left|by left; right|].
        right. by exists ts'. }
  destruct (settle_first_run c1 qid (set_tableDeps deps (started q0)) p I5 eq_refl)
    as (q' & Hq' & Hd & Ha & Hc & Hl).
  exists q'. rewrite Hd, Hl, I2, H0. cbn [tableDeps set_tableDeps liveQueries].
  by destruct Hdeps.
Qed.

(** Extra X7.  When a live query is registered and its first builder call
    settles, with fulfilment or rejection, the dependencies of the query
    are exactly the tables of the statements logged in between, each once;
    no refetch is in flight afterwards and [currentTableCollector] is
    [null] again. *)
Theorem first_run_collects_the_tables c tss p :
  let qid := S (queryIdCounter c) in
  let c' := run_events c (CallLiveQuery :: map StatementLogged tss
                            ++ [OnQuery qid (QSettle 0 p)]) in
  exists q,
    records c' !! qid = Some q
    /\ (forall t, t ∈ tableDeps q <-> exists ts, ts ∈ tss /\ t ∈ ts)
    /\ NoDup (tableDeps q)
    /\ awaiting q = []
    /\ collector c' = None.
Proof.
  destruct (first_run c tss p) as (q & H1 & H2 & H3 & H4 & H5 & _). by exists q.
Qed.

(** ** From the statement to the refetch *)

(** Extra X18.  When the statement logged during the first builder call of
    a new live query names a table, then, once that call has settled, a
    change the engine reports for this table, in whatever letter case,
    calls the builder again: one refetch is in flight. *)
Theorem change_of_a_named_table_refetches es sql p tableName :
  let c := run_events init_client es in
  let qid := S (queryIdCounter c) in
  let c1 := run_events c [CallLiveQuery;
                          StatementLogged (live_query.extractTableNames sql);
                          OnQuery qid (QSettle 0 p)] in
  toLowerCase tableName ∈ live_query.extractTableNames sql ->
  in_flight qid c1 = 0%nat
  /\ in_flight qid (step c1 (TableChanged tableName)) = 1%nat
  /\ builder_calls qid (observed (step c1 (TableChanged tableName)))
     = S (builder_calls qid (observed c1)).
Proof.
  intros c qid c1 Hin.
  assert (Hwf : client_wf c1) by (apply run_events_wf, run_events_wf, init_client_wf).
  destruct (first_run c [live_query.extractTableNames sql] p)
    as (q & Hq & Hdeps & _ & Ha & _ & Hl).
  cbn zeta in Hq, Hl. cbn [map app] in Hq, Hl. fold qid in Hq, Hl. fold c1 in Hq, Hl.
  destruct Hwf as (Hk & Hnd & Hb).
  assert (Ho : hasOverlap (toLowerCase tableName) q = true).
  { unfold hasOverlap. apply existsb_exists. exists (toLowerCase tableName).
    split; [|apply String.eqb_refl].
    apply list_elem_of_In, Hdeps. exists (live_query.extractTableNames sql).
    split; [apply list_elem_of_singleton; reflexivity|exact Hin]. }
  assert (Hqid : qid ∈ liveQueries c1).
  { rewrite Hl. apply elem_of_app. right. by apply list_elem_of_singleton. }
  destruct (router_loop_hit (toLowerCase tableName) qid (liveQueries c1) c1 q
              Hk Hnd Hqid Hq Ho) as (_ & _ & _ & _ & R & B).
  cbn zeta in R, B.
  change (for_of (liveQueries c1) (route (toLowerCase tableName)) c1).2
    with (step c1 (TableChanged tableName)) in R, B.
  unfold in_flight. rewrite Hq, R, Ha. cbn [length].
  split; [done|]. split; [|exact B].
  unfold started. cbn [awaiting set_awaiting]. by rewrite Ha.
Qed.

(** The builder selects from [Users]; the engine reports a change of
    [USERS]. *)
Lemma change_of_a_named_table_refetches_witness :
  let c1 := run_events init_client
              [CallLiveQuery;
               StatementLogged (live_query.extractTableNames "select * from Users");
               OnQuery 1 (QSettle 0 (Fulfilled (VArr [])))] in
  in_flight 1 c1 = 0%nat
  /\ in_flight 1 (step c1 (TableChanged "USERS")) = 1%nat
  /\ builder_calls 1 (observed (step c1 (TableChanged "USERS")))
     = S (builder_calls 1 (observed c1)).
Proof.
  apply (change_of_a_named_table_refetches [] "select * from Users"
           (Fulfilled (VArr [])) "USERS").
  vm_compute. apply list_elem_of_singleton. reflexivity.
Defined.

(** * Migrations: properties *)

Lemma most_recent_None rows : most_recent rows = None -> rows = [].
Proof.
  destruct rows as [|r rows]; [done|]. cbn.
  destruct (most_recent rows) as [r'|]; [|done]. by destruct (_ <? _).
Qed.

Lemma most_recent_Some rows r :
  most_recent rows = Some r ->
  In r rows /\ forall e, In e rows -> created_at e <= created_at r.
Proof.
  revert r. induction rows as [|x rows IH]; intros r; [done|].
  cbn. destruct (most_recent rows) as [r'|] eqn:Hr'.
  - destruct (IH r' eq_refl) as [Hin Hmax].
    destruct (Z.ltb_spec (created_at x) (created_at r')); intros [= <-].
    + split; [by right|]. intros e [<-|He]; [lia|by apply Hmax].
    + split; [by left|]. intros e [<-|He]; [lia|]. specialize (Hmax e He). lia.
  - apply most_recent_None in Hr'. subst rows. intros [= <-].
    split; [by left|]. intros e [<-|[]]. lia.
Qed.

Section MigrateFacts.
Context {App : Type} `{SqlEngine App}.

(** The rows the migrations [ms] leave in the bookkeeping table when they
    are applied one after the other, the first one with the [n]-th
    identifier. *)
Fixpoint entries (n : nat) (ms : list MigrationMeta) : list MigrationEntry :=
  match ms with
  | [] => []
  | m :: ms' => mkEntry (randomUUID n) (hash m) (folderMillis m) :: entries (S n) ms'
  end.

Lemma created_at_entries n ms : map created_at (entries n ms) = map folderMillis ms.
Proof. revert n. induction ms as [|m ms IH]; intros n; cbn; [done|]. by rewrite IH. Qed.

Lemma entries_app n ms1 ms2 :
  entries n (ms1 ++ ms2) = entries n ms1 ++ entries (n + length ms1) ms2.
Proof.
  revert n. induction ms1 as [|m ms1 IH]; intros n; cbn.
  - by rewrite Nat.add_0_r.
  - rewrite IH. do 3 f_equal. lia.
Qed.

(** The statement, whenever it succeeds, leaves the bookkeeping table
    [table] as it is. *)
Definition leaves (table : string) (stmt : string) : Prop :=
  forall st st', run_raw stmt st = Normal st' -> fst st' !! table = fst st !! table.

(** No statement of the migrations touches the bookkeeping table. *)
Definition leave (table : string) (ms : list MigrationMeta) : Prop :=
  Forall (fun m => Forall (leaves table) (sql m)) ms.

Lemma run_statements table stmts : forall (db db' : Database App),
  Forall (leaves table) stmts ->
  for_of stmts run_stmt db = (Normal tt, db') ->
  bookkeeping db' !! table = bookkeeping db !! table
  /\ uuids db' = uuids db
  /\ journal db' = journal db ++ stmts.
Proof.
  induction stmts as [|stmt stmts IH]; intros db db' Hl; cbn [for_of].
  - intros [= <-]. by rewrite app_nil_r.
  - apply Forall_cons in Hl as [Hs Hl].
    unfold mbind, Comp_bind, run_stmt at 1.
    destruct (run_raw stmt (stored db)) as [[tables app]|t] eqn:Hrun; [|done].
    intros Hrest. apply (IH _ _ Hl) in Hrest as (E1 & E2 & E3). cbn in *.
    rewrite E1, E2, E3, <- app_assoc. split; [|done].
    exact (Hs _ _ Hrun).
Qed.

Definition apply_pending (table : string) (last : option MigrationEntry)
    (migration : MigrationMeta) : Comp (Database App) unit :=
  when (pending last migration)
    (for_of (sql migration) run_stmt;;
     insert_entry table migration).

Lemma insert_entry_Normal table m (db db' : Database App) rows :
  bookkeeping db !! table = Some rows ->
  insert_entry table m db = (Normal tt, db') ->
  db' = mkDatabase
          (<[table := rows ++ [mkEntry (randomUUID (uuids db)) (hash m) (folderMillis m)]]>
             (bookkeeping db))
          (application db) (journal db) (S (uuids db)).
Proof.
  intros Hrows. unfold insert_entry. destruct (rejects _ _); [done|].
  rewrite Hrows. by intros [= <-].
Qed.



(** The database once the bookkeeping table is there. *)
Definition with_table (table : string) (db : Database App) : Database App :=
  match bookkeeping db !! table with
  | Some _ => db
  | None =>
      mkDatabase (<[table := []]> (bookkeeping db)) (application db) (journal db) (uuids db)
  end.

Lemma with_table_lookup table (db : Database App) :
  bookkeeping (with_table table db) !! table
  = Some (default [] (bookkeeping db !! table)).
Proof.
  unfold with_table. destruct (bookkeeping db !! table) eqn:E; cbn [default bookkeeping].
  - exact E.
  - apply lookup_insert_eq.
Qed.

(** [migrate] with a non-empty set: the two statements before the loop,
    and the loop. *)
Lemma migrate_steps config (db : Database App) :
  migrations config <> [] ->
  let table := default "__drizzle_migrations" (migrationsTable config) in
  let rows := default [] (bookkeeping db !! table) in
  migrate config db =
  match rejects (CreateTable table) (stored db) with
  | Some t => (Throw t, db)
  | None =>
      match rejects (SelectLast table) (stored (with_table table db)) with
      | Some t => (Throw t, with_table table db)
      | None =>
          for_of (migrations config) (apply_pending table (most_recent rows))
            (with_table table db)
      end
  end.
Proof.
  intros Hne table rows. unfold migrate. destruct (migrations config) as [|m ms]; [done|].
  fold table.
  unfold mbind, Comp_bind, create_table_if_not_exists, select_last.
  destruct (rejects (CreateTable table) (stored db)); [done|].
  fold (with_table table db).
  destruct (rejects (SelectLast table) (stored (with_table table db))); [done|].
  by rewrite with_table_lookup.
Qed.




End MigrateFacts.

Definition uuid (n : nat) : string :=
  "uuid-" +:+ string_of_list_ascii (digits_of_N (N.of_nat n)).

Definition no_table (table : string) : thrown :=
  ThrowError (mkError "Error" ("no such table: " +:+ table)).

(** An engine that runs every statement, for the examples: the
    application's part of the database is the list of statements run. *)
Definition logging_engine : SqlEngine (list string) :=
  {| run_raw := fun stmt '(tables, app) => Normal (tables, app ++ [stmt]);
     rejects := fun _ _ => None;
     no_such_table := no_table;
     randomUUID := uuid |}.

Definition MIGRATIONS : list MigrationMeta :=
  [mkMigration ["CREATE TABLE customers (id text)"; "CREATE TABLE orders (id text)"]
     1700000000000 "hash1" false;
   mkMigration ["ALTER TABLE orders ADD COLUMN quantity integer DEFAULT 1"]
     1700000000001 "hash2" false].

Definition empty_database : Database (list string) := mkDatabase ∅ [] [] 0.






(** ** A migration that fails *)

Section MigrateFailure.
Context {App : Type} `{SqlEngine App}.

Lemma run_statements_fail table stmts : forall (db db' : Database App) t,
  Forall (leaves table) stmts ->
  for_of stmts run_stmt db = (Throw t, db') ->
  exists ran stmt later,
    stmts = ran ++ stmt :: later
    /\ bookkeeping db' !! table = bookkeeping db !! table
    /\ uuids db' = uuids db
    /\ journal db' = journal db ++ ran
    /\ run_raw stmt (stored db') = Throw t.
Proof.
  induction stmts as [|stmt stmts IH]; intros db db' t Hl; cbn [for_of]; [done|].
  apply Forall_cons in Hl as [Hs Hl].
  unfold mbind, Comp_bind, run_stmt at 1.
  destruct (run_raw stmt (stored db)) as [[tables app]|t'] eqn:Hrun.
  - intros Hrest.
    apply (IH _ _ _ Hl) in Hrest as (ran & s & later & -> & E1 & E2 & E3 & E4).
    exists (stmt :: ran), s, later. cbn in *. rewrite E1, E3, <- app_assoc.
    repeat split; try done. exact (Hs _ _ Hrun).
  - intros [= <- <-]. exists [], stmt, stmts. by rewrite app_nil_r.
Qed.

(** Where the application of a migration has failed: at one of its
    statements, after the statements [ran], or at the [INSERT] of its row,
    after all its statements. *)
Definition failed_at (table : string) (failed : MigrationMeta) (n : nat)
    (db' : Database App) (t : thrown) (ran : list string) : Prop :=
  (exists stmt later,
     sql failed = ran ++ stmt :: later
     /\ run_raw stmt (stored db') = Throw t
     /\ uuids db' = n)
  \/ (ran = sql failed
      /\ rejects (InsertEntry table (mkEntry (randomUUID n) (hash failed) (folderMillis failed)))
           (stored db') = Some t
      /\ uuids db' = S n).

Lemma apply_loop_fail table last ms : forall (db db' : Database App) rows t,
  leave table ms ->
  bookkeeping db !! table = Some rows ->
  for_of ms (apply_pending table last) db = (Throw t, db') ->
  exists applied failed rest ran,
    List.filter (pending last) ms = applied ++ failed :: rest
    /\ bookkeeping db' !! table = Some (rows ++ entries (uuids db) applied)
    /\ journal db' = journal db ++ flat_map sql applied ++ ran
    /\ failed_at table failed (uuids db + length applied) db' t ran.
Proof.
  induction ms as [|m ms IH]; intros db db' rows t Hl Hrows;
    cbn [for_of List.filter]; [done|].
  apply Forall_cons in Hl as [Hm Hl].
  unfold mbind at 1, Comp_bind at 1, apply_pending at 1.
  destruct (pending last m) eqn:Hp; cbn [when].
  - unfold mbind at 1, Comp_bind at 1.
    destruct (for_of (sql m) run_stmt db) as [[[]|t'] db1] eqn:Hstmts.
    + apply (run_statements table _ _ _ Hm) in Hstmts as (E1 & E2 & E3).
      rewrite Hrows in E1.
      destruct (insert_entry table m db1) as [[[]|t'] db2] eqn:Hins.
      * apply (insert_entry_Normal _ _ _ _ _ E1) in Hins. subst db2.
        intros Hrest.
        eapply (IH _ _ _ _ Hl) in Hrest; [|apply lookup_insert_eq].
        destruct Hrest as (applied & failed & rest & ran & F & R1 & R2 & R3).
        exists (m :: applied), failed, rest, ran.
        cbn in R1, R2, R3 |- *. rewrite E2, E3 in *.
        rewrite F, R1, R2, <- !app_assoc. repeat split; try done.
        replace (uuids db + S (length applied))%nat
          with (S (uuids db) + length applied)%nat by lia. exact R3.
      * intros [= <- <-].
        exists [], m, (List.filter (pending last) ms), (sql m).
        unfold insert_entry in Hins. rewrite E1 in Hins.
        destruct (rejects _ (stored db1)) as [t0|] eqn:Hrej; [|done].
        injection Hins as <- <-. cbn. rewrite !app_nil_r, Nat.add_0_r, E3.
        repeat split; try done.
        right. cbn. rewrite <- E2. repeat split; done.
    + intros [= <- <-].
      apply (run_statements_fail table _ _ _ _ Hm) in Hstmts
        as (ran & stmt & later & S & E1 & E2 & E3 & E4).
      exists [], m, (List.filter (pending last) ms), ran.
      cbn. rewrite E1, E3, app_nil_r, Nat.add_0_r. repeat split; try done.
      left. by exists stmt, later.
  - unfold mret, Comp_ret. intros Hrest.
    by apply (IH db db' rows t Hl Hrows) in Hrest.
Qed.

(** The migrations [migrate] would apply on [db]. *)
Definition todo (config : MigrationConfig) (db : Database App) : list MigrationMeta :=
  let table := default "__drizzle_migrations" (migrationsTable config) in
  List.filter (pending (most_recent (default [] (bookkeeping db !! table))))
    (migrations config).

Definition ascending (ms : list MigrationMeta) : Prop :=
  StronglySorted (fun a b => folderMillis a < folderMillis b) ms.

Lemma pending_spec rows m :
  pending (most_recent rows) m = true
  <-> forall e, In e rows -> created_at e < folderMillis m.
Proof.
  destruct (most_recent rows) as [r|] eqn:Hr.
  - apply most_recent_Some in Hr as [Hin Hmax]. cbn. rewrite Z.ltb_lt. split.
    + intros Hlt e He. specialize (Hmax e He). lia.
    + intros Hall. by apply Hall.
  - apply most_recent_None in Hr as ->. done.
Qed.

(** The migrations that are pending once [applied] have been recorded. *)
Lemma pending_after rows n applied m :
  pending (most_recent (rows ++ entries n applied)) m
  = pending (most_recent rows) m
    && forallb (fun a => folderMillis a <? folderMillis m) applied.
Proof.
  apply eq_true_iff_eq. rewrite andb_true_iff, !pending_spec, forallb_forall.
  split.
  - intros Hall. split.
    + intros e He. apply Hall, in_or_app. by left.
    + intros a Ha. apply Z.ltb_lt.
      assert (Hin : In (folderMillis a) (map created_at (entries n applied))).
      { rewrite created_at_entries. by apply in_map. }
      apply in_map_iff in Hin as (e & <- & He). apply Hall, in_or_app. by right.
  - intros [Hrows Happ] e [He|He]%in_app_or; [by apply Hrows|].
    assert (Hin : In (created_at e) (map folderMillis applied)).
    { rewrite <- (created_at_entries n). by apply in_map. }
    apply in_map_iff in Hin as (a & <- & Ha). by apply Z.ltb_lt, Happ.
Qed.

Lemma filter_andb {A} (p g : A -> bool) l :
  List.filter (fun x => p x && g x) l = List.filter g (List.filter p l).
Proof.
  induction l as [|x l IH]; [done|]. cbn.
  destruct (p x); cbn; [|done]. destruct (g x); by rewrite IH.
Qed.

Lemma ascending_filter p ms : ascending ms -> ascending (List.filter p ms).
Proof.
  induction 1 as [|m ms Hs IH Hm]; [constructor|].
  cbn. destruct (p m); [|done]. constructor; [done|].
  rewrite List.Forall_forall in *. intros x [Hx _]%filter_In. by apply Hm.
Qed.

Lemma ascending_app l1 l2 :
  ascending (l1 ++ l2) ->
  forall a b, In a l1 -> In b l2 -> folderMillis a < folderMillis b.
Proof.
  induction l1 as [|x l1 IH]; [done|].
  cbn. intros Hs a b [<-|Ha] Hb.
  - apply StronglySorted_inv in Hs as [_ Hx].
    rewrite List.Forall_forall in Hx. apply Hx, in_or_app. by right.
  - apply StronglySorted_inv in Hs as [Hs _]. by apply IH.
Qed.

Lemma filter_none {A} (p : A -> bool) l :
  (forall x, In x l -> p x = false) -> List.filter p l = [].
Proof.
  induction l as [|x l IH]; [done|]. intros Hl. cbn.
  rewrite (Hl x) by (by left). apply IH. intros y Hy. apply Hl. by right.
Qed.

Lemma filter_all {A} (p : A -> bool) l :
  (forall x, In x l -> p x = true) -> List.filter p l = l.
Proof.
  induction l as [|x l IH]; [done|]. intros Hl. cbn.
  rewrite (Hl x) by (by left). f_equal. apply IH. intros y Hy. apply Hl. by right.
Qed.

Lemma retry_from_the_failed rows n ms applied failed rest :
  ascending ms ->
  List.filter (pending (most_recent rows)) ms = applied ++ failed :: rest ->
  List.filter (pending (most_recent (rows ++ entries n applied))) ms = failed :: rest.
Proof.
  intros Hasc Htodo.
  rewrite (filter_ext _ _ (pending_after rows n applied)).
  rewrite filter_andb, Htodo, List.filter_app.
  assert (Hs : ascending (applied ++ failed :: rest)).
  { rewrite <- Htodo. by apply ascending_filter. }
  rewrite filter_none, filter_all; [done| |].
  - intros x Hx. apply forallb_forall. intros a Ha. apply Z.ltb_lt.
    by apply (ascending_app _ _ Hs).
  - intros x Hx.
    destruct (forallb _ applied) eqn:Hall; [|done].
    rewrite forallb_forall in Hall. specialize (Hall x Hx).
    apply Z.ltb_lt in Hall. lia.
Qed.

(** Extra X8.  Let no statement of the migration set change the bookkeeping
    table, and let the engine accept the [CREATE TABLE IF NOT EXISTS] and
    the [SELECT] of the migrator.  When [migrate] fails, it fails in one
    pending migration, at one of its statements or at the [INSERT] of its
    row: the pending migrations before it have their rows in the
    bookkeeping table; the failing one has no row although its earlier
    statements (all of them when the [INSERT] failed) have been run, and
    those after it are untouched.  When the migrations are in ascending
    order of [folderMillis], the next call of [migrate] starts again with
    the failing migration. *)
Theorem failed_migration_is_not_recorded config (db db1 : Database App) t :
  let table := default "__drizzle_migrations" (migrationsTable config) in
  let rows := default [] (bookkeeping db !! table) in
  leave table (migrations config) ->
  (forall st, rejects (CreateTable table) st = None) ->
  (forall st, rejects (SelectLast table) st = None) ->
  migrate config db = (Throw t, db1) ->
  exists applied failed rest ran,
    todo config db = applied ++ failed :: rest
    /\ bookkeeping db1 !! table = Some (rows ++ entries (uuids db) applied)
    /\ journal db1 = journal db ++ flat_map sql applied ++ ran
    /\ failed_at table failed (uuids db + length applied) db1 t ran
    /\ (ascending (migrations config) -> todo config db1 = failed :: rest).
Proof.
  intros table rows Hl Hcreate Hselect Hrun.
  assert (Hne : migrations config <> []).
  { intros Hnil. unfold migrate in Hrun. by rewrite Hnil in Hrun. }
  rewrite (migrate_steps config db Hne) in Hrun. fold table rows in Hrun.
  rewrite Hcreate, Hselect in Hrun.
  assert (Hsame : uuids (with_table table db) = uuids db
                  /\ journal (with_table table db) = journal db).
  { unfold with_table. by destruct (bookkeeping db !! table). }
  destruct Hsame as [Hu Hj].
  apply (apply_loop_fail _ _ _ _ _ _ _ Hl (with_table_lookup table db)) in Hrun
    as (applied & failed & rest & ran & F & R1 & R2 & R3).
  fold rows in R1. rewrite Hu, Hj in *.
  exists applied, failed, rest, ran.
  unfold todo. fold table rows. rewrite R1. change (default [] (Some ?l)) with l.
  repeat split; try done.
  intros Hasc. by apply retry_from_the_failed.
Qed.

End MigrateFailure.

(** An engine on which the statement that alters [orders] fails. *)
Definition failing_engine : SqlEngine (list string) :=
  {| run_raw := fun stmt '(tables, app) =>
       if String.eqb stmt "ALTER TABLE orders ADD COLUMN quantity integer DEFAULT 1"
       then Throw (no_table "orders")
       else Normal (tables, app ++ [stmt]);
     rejects := fun _ _ => None;
     no_such_table := no_table;
     randomUUID := uuid |}.

Definition half_migrated : Database (list string) :=
  snd (@migrate _ failing_engine (mkConfig None MIGRATIONS) empty_database).

(** The first of the two migrations is applied, the second one fails. *)
Lemma failed_migration_is_not_recorded_witness :
  exists applied failed rest ran,
    @todo _ (mkConfig None MIGRATIONS) empty_database = applied ++ failed :: rest
    /\ bookkeeping half_migrated !! "__drizzle_migrations"
       = Some ([] ++ @entries _ failing_engine 0 applied)
    /\ journal half_migrated = [] ++ flat_map sql applied ++ ran
    /\ @failed_at _ failing_engine "__drizzle_migrations" failed (0 + length applied)
         half_migrated (no_table "orders") ran
    /\ (ascending MIGRATIONS ->
        @todo _ (mkConfig None MIGRATIONS) half_migrated = failed :: rest).
Proof.
  apply (@failed_migration_is_not_recorded _ failing_engine (mkConfig None MIGRATIONS)
           empty_database _ (no_table "orders")).
  - repeat (apply Forall_cons; split); try apply Forall_nil; try done;
      intros [tables app] st' Hrun; vm_compute in Hrun; by simplify_eq.
  - done.
  - done.
  - vm_compute. reflexivity.
Defined.

(** An engine that rejects the second row of the bookkeeping table. *)
Definition full_engine : SqlEngine (list string) :=
  {| run_raw := fun stmt '(tables, app) => Normal (tables, app ++ [stmt]);
     rejects := fun request _ =>
       match request with
       | InsertEntry _ entry =>
           if String.eqb (entry_hash entry) "hash2"
           then Some (ThrowError (mkError "Error" "database or disk is full"))
           else None
       | _ => None
       end;
     no_such_table := no_table;
     randomUUID := uuid |}.

(** When the [INSERT] of the second migration fails, its statement has been
    run and it has no row: the next call runs the statement again. *)
Lemma unrecorded_migration_runs_again :
  let first := @migrate _ full_engine (mkConfig None MIGRATIONS) empty_database in
  fst first = Throw (ThrowError (mkError "Error" "database or disk is full"))
  /\ journal (snd first) = flat_map sql MIGRATIONS
  /\ map entry_hash (default [] (bookkeeping (snd first) !! "__drizzle_migrations"))
     = ["hash1"]
  /\ journal (snd (@migrate _ logging_engine (mkConfig None MIGRATIONS) (snd first)))
     = flat_map sql MIGRATIONS
       ++ ["ALTER TABLE orders ADD COLUMN quantity integer DEFAULT 1"].
Proof. vm_compute. done. Qed.
(** * JSON numbers and strings: properties *)

(** ** Digits *)

Lemma string_of_uint_digits d :
  Forall (fun c => is_digit c = true) (list_ascii_of_string (NilEmpty.string_of_uint d)).
Proof. induction d; cbn; constructor; done. Qed.

Lemma NilZero_string_of_uint_N n :
  NilZero.string_of_uint (N.to_uint n) = NilEmpty.string_of_uint (N.to_uint n).
Proof.
  unfold NilZero.string_of_uint.
  destruct (N.to_uint n) eqn:E; try done.
  destruct n as [|p]; [done|]. cbn in E. by apply DecimalPos.Unsigned.to_uint_nonnil in E.
Qed.

Lemma digits_of_N_digits n : Forall (fun c => is_digit c = true) (digits_of_N n).
Proof. unfold digits_of_N. rewrite NilZero_string_of_uint_N. apply string_of_uint_digits. Qed.

Lemma digits_of_N_nonempty n : digits_of_N n <> [].
Proof.
  unfold digits_of_N. rewrite NilZero_string_of_uint_N.
  destruct (N.to_uint n) eqn:E; try done.
  destruct n as [|p]; [done|]. cbn in E. by apply DecimalPos.Unsigned.to_uint_nonnil in E.
Qed.

Lemma N_of_digits_of_N n : N_of_digits (digits_of_N n) = Some n.
Proof.
  unfold N_of_digits. pose proof (digits_of_N_nonempty n) as Hne.
  destruct (digits_of_N n) eqn:E; [done|]. rewrite <- E. clear Hne E.
  unfold digits_of_N. rewrite NilZero_string_of_uint_N.
  rewrite string_of_list_ascii_of_string, NilEmpty.usu. cbn.
  by rewrite DecimalN.Unsigned.of_to.
Qed.

Definition not_digit_next (rest : text) : Prop :=
  match rest with
  | [] => True
  | c :: _ => is_digit c = false
  end.

Lemma span_digits_app ds rest :
  Forall (fun c => is_digit c = true) ds -> not_digit_next rest ->
  span_digits (ds ++ rest) = (ds, rest).
Proof.
  intros Hds Hrest. induction Hds as [|c ds Hc _ IH]; cbn [app span_digits].
  - destruct rest as [|c rest]; [done|]. unfold not_digit_next in Hrest.
    cbn [span_digits]. by rewrite Hrest.
  - by rewrite Hc, IH.
Qed.

Lemma zeros_digits n : Forall (fun c => is_digit c = true) (zeros n).
Proof. induction n; constructor; done. Qed.

Lemma strip_zeros_zeros n ds : strip_zeros (zeros n ++ ds) = strip_zeros ds.
Proof. induction n; [done|]. cbn. exact IHn. Qed.

Lemma strip_zeros_nonzero c ds :
  is_zero_char c = false -> strip_zeros (c :: ds) = c :: ds.
Proof. intros Hc. cbn. by rewrite Hc. Qed.

Lemma rev_zeros n : rev (zeros n) = zeros n.
Proof.
  unfold zeros. induction n; [done|]. cbn. rewrite IHn.
  clear IHn. induction n; [done|]. cbn. by rewrite IHn.
Qed.

Lemma strip_trailing_zeros_app ds n :
  strip_trailing_zeros (ds ++ zeros n) = strip_trailing_zeros ds.
Proof.
  unfold strip_trailing_zeros. by rewrite rev_app_distr, rev_zeros, strip_zeros_zeros.
Qed.

(** The significant digits of a number that is not zero: digits only, the
    first and the last of them not ["0"]. *)
Definition significant (ds : text) : Prop :=
  Forall (fun c => is_digit c = true) ds
  /\ (exists c ds', ds = c :: ds' /\ is_zero_char c = false)
  /\ (exists c ds', ds = ds' ++ [c] /\ is_zero_char c = false).

Lemma strip_trailing_significant ds : significant ds -> strip_trailing_zeros ds = ds.
Proof.
  intros (_ & _ & c & ds' & -> & Hc). unfold strip_trailing_zeros.
  rewrite rev_app_distr. cbn. rewrite Hc. cbn. by rewrite rev_involutive.
Qed.

Lemma strip_zeros_significant ds : significant ds -> strip_zeros ds = ds.
Proof. intros (_ & (c & ds' & -> & Hc) & _). by apply strip_zeros_nonzero. Qed.

Lemma make_number_significant neg ds p :
  significant ds -> make_number neg ds p = Finite neg ds p.
Proof.
  intros Hs. unfold make_number. rewrite (strip_zeros_significant _ Hs).
  destruct Hs as (Hd & (c & ds' & -> & Hc) & Hl).
  rewrite strip_trailing_significant by (repeat split; eauto).
  f_equal. lia.
Qed.

(** ** Numbers *)

(** The text after a number does not go on as a number. *)
Definition number_end (rest : text) : Prop :=
  match rest with
  | [] => True
  | c :: _ =>
      is_digit c = false /\ Ascii.eqb c "."%char = false
      /\ Ascii.eqb c "e"%char = false /\ Ascii.eqb c "E"%char = false
  end.

Lemma number_end_not_digit rest : number_end rest -> not_digit_next rest.
Proof. destruct rest; [done|]. by intros [? _]. Qed.

Lemma read_frac_part_end rest : number_end rest -> read_frac_part rest = Some ([], rest).
Proof.
  destruct rest as [|c rest]; [done|]. intros (_ & H & _).
  unfold read_frac_part. by rewrite H.
Qed.

Lemma read_exponent_end rest : number_end rest -> read_exponent rest = Some (0, rest).
Proof.
  destruct rest as [|c rest]; [done|]. intros (_ & _ & H1 & H2).
  unfold read_exponent. by rewrite H1, H2.
Qed.

Definition read_unsigned (neg : bool) (s1 : text) : option (number * text) :=
  '(int_digits, s2) ← read_int_part s1;
  '(frac_digits, s3) ← read_frac_part s2;
  '(e, s4) ← read_exponent s3;
  Some (make_number neg (int_digits ++ frac_digits)
          (Z.of_nat (length int_digits) + e), s4).

Lemma make_number_padded neg ds n q :
  significant ds -> make_number neg (ds ++ zeros n) q = Finite neg ds q.
Proof.
  intros Hs. unfold make_number.
  assert (Hz : strip_zeros (ds ++ zeros n) = ds ++ zeros n).
  { destruct Hs as (_ & (c & ds' & -> & Hc) & _). cbn. by rewrite Hc. }
  rewrite Hz. destruct (ds ++ zeros n) eqn:E.
  { destruct Hs as (_ & (c & ds' & -> & Hc) & _). done. }
  rewrite <- E, strip_trailing_zeros_app, (strip_trailing_significant _ Hs).
  f_equal. lia.
Qed.

Lemma make_number_leading neg ds n q :
  significant ds ->
  make_number neg (zeros n ++ ds) q = Finite neg ds (q - Z.of_nat n).
Proof.
  intros Hs. unfold make_number.
  rewrite strip_zeros_zeros, (strip_zeros_significant _ Hs).
  destruct ds eqn:E.
  { destruct Hs as (_ & (c & ds' & ? & Hc) & _). done. }
  rewrite <- E in *. rewrite (strip_trailing_significant _ Hs).
  f_equal. rewrite length_app. unfold zeros. rewrite repeat_length. lia.
Qed.

Lemma read_exponent_text e rest :
  not_digit_next rest ->
  read_exponent ("e"%char :: (if e <? 0 then "-"%char else "+"%char)
                  :: digits_of_N (Z.abs_N e) ++ rest)
  = Some (e, rest).
Proof.
  intros Hrest. unfold read_exponent.
  change (Ascii.eqb "e" "e" || Ascii.eqb "e" "E") with true. cbn beta iota.
  destruct (Z.ltb_spec e 0).
  - change (Ascii.eqb "-" "-") with true. cbn beta iota.
    rewrite span_digits_app by (done || apply digits_of_N_digits).
    rewrite N_of_digits_of_N. cbn. f_equal. f_equal. lia.
  - change (Ascii.eqb "+" "-") with false. change (Ascii.eqb "+" "+") with true.
    cbn beta iota.
    rewrite span_digits_app by (done || apply digits_of_N_digits).
    rewrite N_of_digits_of_N. cbn. f_equal. f_equal. lia.
Qed.

Lemma significant_cons ds :
  significant ds ->
  exists c ds', ds = c :: ds' /\ is_zero_char c = false /\ is_digit c = true
    /\ Forall (fun c => is_digit c = true) ds'.
Proof.
  intros (Hd & (c & ds' & -> & Hc) & _). apply Forall_cons in Hd as [? ?].
  eauto 10.
Qed.

Lemma read_unsigned_text neg ds p rest :
  significant ds -> number_end rest ->
  read_unsigned neg (number_text ds p ++ rest) = Some (Finite neg ds p, rest).
Proof.
  intros Hs Hrest.
  pose proof (number_end_not_digit _ Hrest) as Hnd.
  destruct (significant_cons _ Hs) as (c & ds' & Hds & Hc & Hcd & Hds').
  unfold number_text, read_unsigned.
  destruct ((Z.of_nat (length ds) <=? p) && (p <=? 21)) eqn:HA;
    [|destruct ((0 <? p) && (p <=? 21)) eqn:HB;
      [|destruct ((-6 <? p) && (p <=? 0)) eqn:HC]].
  - (* an integer, written out *)
    rewrite <- app_assoc. rewrite Hds at 1. cbn [app read_int_part].
    rewrite Hc, Hcd.
    rewrite app_assoc, span_digits_app;
      [|apply Forall_app; split; [done|apply zeros_digits]|done].
    cbn [mbind option_bind]. rewrite read_frac_part_end by done. cbn [mbind option_bind].
    rewrite read_exponent_end by done. cbn [mbind option_bind].
    rewrite app_nil_r, app_comm_cons, <- Hds, make_number_padded by done.
    do 3 f_equal. rewrite length_app. unfold zeros. rewrite repeat_length. lia.
  - (* the point inside the digits *)
    assert (Hp : (0 < Z.to_nat p < length ds)%nat) by lia.
    assert (Ep : p = Z.of_nat (Z.to_nat p)) by lia.
    destruct (Z.to_nat p) as [|m]; [lia|]. clear HA HB.
    subst ds. cbn [firstn skipn length] in *.
    rewrite <- app_assoc. cbn [app read_int_part]. rewrite Hc, Hcd.
    rewrite span_digits_app; [|by apply Forall_take|done].
    cbn [mbind option_bind read_frac_part].
    change (Ascii.eqb "." ".") with true. cbn beta iota.
    rewrite span_digits_app; [|by apply Forall_drop|done].
    destruct (skipn m ds') eqn:Hskip.
    { apply (f_equal length) in Hskip. rewrite length_skipn in Hskip. cbn in Hskip. lia. }
    rewrite <- Hskip. cbn [mbind option_bind].
    rewrite read_exponent_end by done. cbn [mbind option_bind].
    rewrite <- app_comm_cons, firstn_skipn, make_number_significant by done.
    do 3 f_equal. cbn [length]. rewrite length_firstn. lia.
  - (* a fraction below one, written out *)
    cbn [app read_int_part]. change (is_zero_char "0") with true. cbn beta iota.
    cbn [mbind option_bind read_frac_part].
    change (Ascii.eqb "." ".") with true. cbn beta iota.
    rewrite <- app_assoc, app_assoc.
    rewrite span_digits_app;
      [|apply Forall_app; split; [apply zeros_digits|apply Hs]|done].
    destruct (zeros (Z.to_nat (- p)) ++ ds) eqn:Hz.
    { apply app_eq_nil in Hz as [_ ->]. done. }
    rewrite <- Hz. cbn [mbind option_bind].
    rewrite read_exponent_end by done. cbn [mbind option_bind].
    change (["0"%char] ++ zeros (Z.to_nat (- p)) ++ ds)
      with (zeros (S (Z.to_nat (- p))) ++ ds).
    rewrite make_number_leading by done.
    do 3 f_equal. cbn [length]. lia.
  - (* with an exponent *)
    subst ds. destruct ds' as [|x xs].
    + cbn [app read_int_part]. rewrite Hc, Hcd.
      change (span_digits ("e"%char :: ?l)) with (@nil ascii, "e"%char :: l).
      cbn [mbind option_bind read_frac_part].
      change (Ascii.eqb "e" ".") with false. cbn beta iota.
      cbn [mbind option_bind].
      rewrite read_exponent_text by done. cbn [mbind option_bind].
      rewrite make_number_significant by done.
      do 3 f_equal. cbn [length]. lia.
    + cbn [app read_int_part]. rewrite Hc, Hcd.
      change (span_digits ("."%char :: ?l)) with (@nil ascii, "."%char :: l).
      cbn [mbind option_bind read_frac_part].
      change (Ascii.eqb "." ".") with true. cbn beta iota.
      rewrite <- app_assoc, (app_comm_cons xs _ x).
      rewrite span_digits_app; [|done|done].
      cbn [mbind option_bind app].
      rewrite read_exponent_text by done. cbn [mbind option_bind].
      rewrite make_number_significant by done.
      do 3 f_equal. cbn [length]. lia.
Qed.

Lemma number_text_head ds p :
  significant ds -> exists c t, number_text ds p = c :: t /\ is_digit c = true.
Proof.
  intros Hs. destruct (significant_cons _ Hs) as (c & ds' & -> & Hc & Hcd & Hds').
  unfold number_text.
  destruct ((Z.of_nat (length (c :: ds')) <=? p) && (p <=? 21)); [cbn; by eauto|].
  destruct ((0 <? p) && (p <=? 21)) eqn:HB.
  { destruct (Z.to_nat p) eqn:E; [lia|]. cbn; eauto. }
  destruct ((-6 <? p) && (p <=? 0)); [cbn; by eauto|].
  destruct ds'; cbn; eauto.
Qed.

(** A number of the model in normal form: finite, and either zero or with
    significant digits. *)
Definition number_ok (n : number) : Prop :=
  match n with
  | NaN => False
  | Finite neg [] p => neg = false /\ p = 0
  | Finite _ ds _ => significant ds
  end.

Lemma read_number_unsigned s :
  match s with c :: _ => Ascii.eqb c "-"%char = false | [] => True end ->
  read_number s = read_unsigned false s.
Proof. destruct s as [|c s]; [done|]. intros Hc. unfold read_number. by rewrite Hc. Qed.

Lemma digit_not_minus c : is_digit c = true -> Ascii.eqb c "-"%char = false.
Proof. intros Hc. destruct (Ascii.eqb_spec c "-"%char) as [->|]; done. Qed.

Lemma read_number_text n rest :
  number_ok n -> number_end rest ->
  read_number (Number_toString n ++ rest) = Some (n, rest).
Proof.
  intros Hn Hrest. destruct n as [|neg ds p]; [done|].
  destruct ds as [|c ds].
  - destruct Hn as [-> ->]. cbn [Number_toString app].
    rewrite read_number_unsigned by done.
    unfold read_unsigned. cbn [read_int_part]. change (is_zero_char zero_char) with true.
    cbn [mbind option_bind]. rewrite read_frac_part_end by done. cbn [mbind option_bind].
    rewrite read_exponent_end by done. reflexivity.
  - cbn [number_ok] in Hn. cbn [Number_toString]. destruct neg; cbn [app].
    + unfold read_number. change (Ascii.eqb "-" "-") with true. cbn beta iota.
      by apply read_unsigned_text.
    + destruct (number_text_head (c :: ds) p Hn) as (c0 & t & Ht & Hc0).
      rewrite read_number_unsigned.
      * by apply read_unsigned_text.
      * rewrite Ht. cbn. by apply digit_not_minus.
Qed.

(** ** Strings *)

Lemma read_string_escape c tail :
  read_string (escape_char c ++ tail) = continue_with c (read_string tail).
Proof.
  destruct c as [[] [] [] [] [] [] [] []]; reflexivity.
Qed.

Lemma read_string_quoted cs rest :
  read_string (flat_map escape_char cs ++ quotation_mark :: rest)
  = Within (Some (cs, rest)).
Proof.
  induction cs as [|c cs IH]; [done|].
  cbn [flat_map]. rewrite <- app_assoc, read_string_escape, IH. done.
Qed.

(** * JSON values: properties *)

(** ** Values *)

(** [SerializeJSONProperty] serialises what the replacer returns for the
    value. *)
Lemma SerializeJSONProperty_replacer v :
  SerializeJSONProperty v =
  match replacer v with
  | VArr elems => SerializeJSONProperty (VArr elems)
  | VObj props => SerializeJSONProperty (VObj props)
  | primitive => write_primitive primitive
  end.
Proof. by destruct v. Qed.

(** The value the text of [v] denotes: a bigint has become a string. *)
Fixpoint wire (v : value) : value :=
  match v with
  | VBigInt _ => replacer v
  | VArr elems => VArr (map wire elems)
  | VObj props => VObj (map (fun kv => (fst kv, wire (snd kv))) props)
  | _ => v
  end.

(** The text of a JSON-shaped value. *)
Fixpoint text_of (v : value) : text :=
  match v with
  | VArr elems => "["%char :: join_with [","%char] (map text_of elems) ++ ["]"%char]
  | VObj props =>
      "{"%char ::
      join_with [","%char]
        (map (fun kv => quote (fst kv) ++ ":"%char :: text_of (snd kv)) props)
      ++ ["}"%char]
  | _ => match write_primitive (replacer v) with Some t => t | None => [] end
  end.

Lemma Serialize_shaped v :
  json_shaped true v = true -> SerializeJSONProperty v = Some (text_of v).
Proof.
  induction v as [| |b|n|z|s|elems IH|props IH] using value_ind'; try done.
  - by destruct b.
  - cbn [json_shaped SerializeJSONProperty text_of]. intros Hs.
    assert (E : map (fun e => default null_text (SerializeJSONProperty e)) elems
                = map text_of elems).
    { induction IH as [|e elems He _ IHe]; [done|].
      cbn in Hs. apply andb_true_iff in Hs as [Hs1 Hs2].
      cbn [map]. by rewrite He, IHe. }
    by rewrite E.
  - cbn [json_shaped SerializeJSONProperty text_of]. intros Hs.
    apply andb_true_iff in Hs as [_ Hs].
    match goal with
    | |- Some (_ :: join_with _ ?l ++ _) = _ =>
        assert (E : l = map (fun kv => quote (fst kv) ++ ":"%char :: text_of (snd kv)) props)
    end.
    { induction IH as [|[k e] props He _ IHp]; [done|].
      cbn in Hs. apply andb_true_iff in Hs as [Hs1 Hs2].
      cbn [map fst snd]. cbn in He. by rewrite He, IHp. }
    by rewrite E.
Qed.

Definition delimited (rest : text) : Prop :=
  match rest with
  | [] => True
  | c :: _ => c = ","%char \/ c = "]"%char \/ c = "}"%char
  end.

Lemma delimited_number_end rest : delimited rest -> number_end rest.
Proof. destruct rest as [|c rest]; [done|]. by intros [->|[->| ->]]. Qed.

(** The first character of a value's text. *)
Definition value_start (c : ascii) : Prop :=
  is_ws c = false /\ Ascii.eqb c "]"%char = false.

Lemma digit_start c : is_digit c = true -> value_start c.
Proof.
  intros Hc. split.
  - unfold is_digit in Hc. cbn zeta in Hc.
    apply andb_true_iff in Hc as [H1%Nat.leb_le H2%Nat.leb_le].
    unfold is_ws. cbn zeta. rewrite !orb_false_iff, !Nat.eqb_neq. lia.
  - destruct (Ascii.eqb_spec c "]"%char) as [->|]; done.
Qed.

Lemma normal_number_ok n : normal_number n = true -> number_ok n.
Proof.
  destruct n as [|neg [|c ds] p]; [done| |]; unfold normal_number.
  - rewrite andb_true_iff, negb_true_iff, Z.eqb_eq. done.
  - rewrite !andb_true_iff. intros [[Hd Hc] Hl].
    split; [|split].
    + apply Forall_forall. intros x Hx. rewrite forallb_forall in Hd.
      apply Hd. by apply list_elem_of_In.
    + exists c, ds. split; [done|]. by apply negb_true_iff.
    + destruct (rev (c :: ds)) as [|l r] eqn:Hr; [done|].
      exists l, (rev r). split; [|by apply negb_true_iff].
      rewrite <- (rev_involutive (c :: ds)), Hr. done.
Qed.

Lemma text_of_start v :
  json_shaped true v = true -> exists c t, text_of v = c :: t /\ value_start c.
Proof.
  destruct v as [| |[]|n|z|s|elems|props]; try done;
    try (intros _; eexists _, _; split; [reflexivity|done]).
  cbn [json_shaped]. intros Hn%normal_number_ok.
  destruct n as [|neg [|c ds] p]; [done| |].
  - eexists _, _. split; [reflexivity|done].
  - cbn [number_ok] in Hn.
    destruct (number_text_head (c :: ds) p Hn) as (c0 & t & Ht & Hc0).
    cbn [text_of replacer write_primitive write_number Number_toString].
    rewrite Ht. destruct neg; cbn [app].
    + eexists _, _. split; [reflexivity|done].
    + eexists _, _. split; [reflexivity|]. by apply digit_start.
Qed.

Definition reads (v : value) : Prop :=
  forall fuel rest,
    delimited rest ->
    (2 * length (text_of v ++ rest) + 1 <= fuel)%nat ->
    read_value fuel (text_of v ++ rest) = ReadOk (wire v) rest.

Lemma reads_string s : reads (VStr s).
Proof.
  intros [|f] rest _ Hf; [lia|].
  cbn [text_of replacer write_primitive wire]. unfold quote.
  cbn [app]. rewrite <- app_assoc. cbn [app read_value skip_ws].
  change (is_ws quotation_mark) with false. cbn beta iota.
  change (Ascii.eqb quotation_mark "n") with false. change (Ascii.eqb quotation_mark "t") with false.
  change (Ascii.eqb quotation_mark "f") with false. change (Ascii.eqb quotation_mark quotation_mark) with true.
  cbn beta iota.
  by rewrite read_string_quoted, string_of_list_ascii_of_string.
Qed.

Lemma number_first c :
  is_digit c = true \/ c = "-"%char ->
  is_ws c = false
  /\ Ascii.eqb c "n"%char = false /\ Ascii.eqb c "t"%char = false
  /\ Ascii.eqb c "f"%char = false /\ Ascii.eqb c quotation_mark = false
  /\ Ascii.eqb c "["%char = false /\ Ascii.eqb c "{"%char = false.
Proof.
  intros [Hc| ->]; [|done].
  split; [by apply digit_start|].
  repeat split;
    match goal with
    | |- Ascii.eqb c ?x = false => destruct (Ascii.eqb_spec c x) as [->|]; done
    end.
Qed.

Lemma Number_toString_first n :
  number_ok n ->
  exists c t, Number_toString n = c :: t /\ (is_digit c = true \/ c = "-"%char).
Proof.
  destruct n as [|neg [|c ds] p]; [done| |].
  - intros _. eexists _, _. split; [reflexivity|by left].
  - cbn [number_ok]. intros Hs.
    destruct (number_text_head (c :: ds) p Hs) as (c0 & t & Ht & Hc0).
    cbn [Number_toString]. rewrite Ht. destruct neg; cbn [app]; eauto.
Qed.

Lemma reads_number n : number_ok n -> reads (VNum n).
Proof.
  intros Hn [|f] rest Hrest Hf; [lia|].
  assert (Et : text_of (VNum n) = Number_toString n) by (by destruct n).
  rewrite Et. cbn [wire].
  destruct (Number_toString_first n Hn) as (c & t & Ht & Hc).
  destruct (number_first c Hc) as (H0 & H1 & H2 & H3 & H4 & H5 & H6).
  pose proof (read_number_text n rest Hn (delimited_number_end _ Hrest)) as Hread.
  rewrite Ht in *. cbn [app read_value skip_ws] in *.
  rewrite H0. cbn beta iota. rewrite H1, H2, H3, H4, H5, H6.
  by rewrite Hread.
Qed.

(** ** Arrays *)

Definition elements_tail (es : list value) (rest : text) : text :=
  flat_map (fun q => [","%char] ++ q) (map text_of es) ++ "]"%char :: rest.

Lemma elements_tail_cons e es rest :
  elements_tail (e :: es) rest = ","%char :: text_of e ++ elements_tail es rest.
Proof. unfold elements_tail. cbn [map flat_map app]. by rewrite <- app_assoc. Qed.

Lemma text_of_array e es rest :
  text_of (VArr (e :: es)) ++ rest = "["%char :: text_of e ++ elements_tail es rest.
Proof.
  cbn [text_of map join_with]. unfold elements_tail.
  cbn [app]. by rewrite <- !app_assoc.
Qed.

Lemma length_elements_tail_cons e es rest :
  length (elements_tail (e :: es) rest)
  = S (length (text_of e ++ elements_tail es rest)).
Proof. by rewrite elements_tail_cons. Qed.

Lemma delimited_elements_tail es rest : delimited (elements_tail es rest).
Proof. destruct es; [right; by left|]. rewrite elements_tail_cons. by left. Qed.

Lemma read_elements_text es : forall e fuel rest,
  reads e -> Forall reads es ->
  (2 * length (text_of e ++ elements_tail es rest) + 2 <= fuel)%nat ->
  read_elements fuel (text_of e ++ elements_tail es rest)
  = ReadOk (wire e :: map wire es) rest.
Proof.
  induction es as [|e' es IH]; intros e [|f] rest He Hes Hf; try lia.
  - cbn [read_elements]. rewrite He; [|apply delimited_elements_tail|lia]. reflexivity.
  - apply Forall_cons in Hes as [He' Hes].
    cbn [read_elements]. rewrite He; [|apply delimited_elements_tail|lia].
    rewrite elements_tail_cons. cbn [skip_ws].
    change (is_ws ",") with false. change (Ascii.eqb "," ",") with true. cbn beta iota.
    rewrite IH; [done|done|done|].
    rewrite length_app, elements_tail_cons in Hf. cbn [length] in Hf. lia.
Qed.

Lemma skip_ws_start c s : is_ws c = false -> skip_ws (c :: s) = c :: s.
Proof. intros Hc. cbn. by rewrite Hc. Qed.

Lemma reads_array es :
  forallb (json_shaped true) es = true -> Forall reads es -> reads (VArr es).
Proof.
  intros Hs Hes [|f] rest Hrest Hf; [lia|].
  destruct es as [|e es]; [reflexivity|].
  apply Forall_cons in Hes as [He Hes].
  cbn in Hs. apply andb_true_iff in Hs as [Hse _].
  rewrite text_of_array in *.
  destruct (text_of_start e Hse) as (c & t & Ht & Hws & Hc).
  cbn [read_value skip_ws]. change (is_ws "[") with false. cbn beta iota.
  change (Ascii.eqb "[" "n") with false. change (Ascii.eqb "[" "t") with false.
  change (Ascii.eqb "[" "f") with false. change (Ascii.eqb "[" quotation_mark) with false.
  change (Ascii.eqb "[" "[") with true. cbn beta iota.
  rewrite Ht at 1. cbn [app]. rewrite skip_ws_start by done.
  rewrite Hc. rewrite app_comm_cons, <- Ht.
  rewrite read_elements_text; [done|done|done|].
  cbn [length] in Hf. lia.
Qed.

(** ** Objects *)

Definition member_text (kv : string * value) : text :=
  quote (fst kv) ++ ":"%char :: text_of (snd kv).

Definition members_tail (ps : list (string * value)) (rest : text) : text :=
  flat_map (fun q => [","%char] ++ q) (map member_text ps) ++ "}"%char :: rest.

Lemma members_tail_cons kv ps rest :
  members_tail (kv :: ps) rest = ","%char :: member_text kv ++ members_tail ps rest.
Proof. unfold members_tail. cbn [map flat_map app]. by rewrite <- app_assoc. Qed.

Lemma delimited_members_tail ps rest : delimited (members_tail ps rest).
Proof. destruct ps; [right; by right|]. rewrite members_tail_cons. by left. Qed.

Lemma member_text_app k e tail :
  member_text (k, e) ++ tail
  = quotation_mark :: flat_map escape_char (list_ascii_of_string k)
    ++ quotation_mark :: ":"%char :: text_of e ++ tail.
Proof.
  unfold member_text, quote. cbn [fst snd app].
  by rewrite <- !app_assoc.
Qed.

Lemma text_of_object kv ps rest :
  text_of (VObj (kv :: ps)) ++ rest = "{"%char :: member_text kv ++ members_tail ps rest.
Proof.
  cbn [text_of map join_with]. unfold members_tail.
  change (fun kv : string * value => quote (fst kv) ++ ":"%char :: text_of (snd kv))
    with member_text.
  change (quote (fst kv) ++ ":"%char :: text_of (snd kv)) with (member_text kv).
  cbn [app]. by rewrite <- !app_assoc.
Qed.

Lemma define_property_fresh k v acc :
  k ∉ map fst acc -> define_property k v acc = acc ++ [(k, v)].
Proof.
  induction acc as [|[k' w] acc IH]; [done|].
  cbn. rewrite not_elem_of_cons. intros [Hne Hnot].
  destruct (String.eqb_spec k' k) as [->|_]; [done|]. by rewrite IH.
Qed.

Definition wire_member (kv : string * value) : string * value :=
  (fst kv, wire (snd kv)).

Lemma read_members_text ps : forall k e acc fuel rest,
  reads e -> Forall (fun kv => reads (snd kv)) ps ->
  NoDup (map fst acc ++ k :: map fst ps) ->
  (2 * length (member_text (k, e) ++ members_tail ps rest) + 2 <= fuel)%nat ->
  read_members fuel acc (member_text (k, e) ++ members_tail ps rest)
  = ReadOk (acc ++ (k, wire e) :: map wire_member ps) rest.
Proof.
  induction ps as [|[k' e'] ps IH]; intros k e acc [|f] rest He Hps Hnd Hf; try lia.
  - rewrite member_text_app in *.
    cbn [read_members skip_ws]. change (is_ws quotation_mark) with false. cbn beta iota.
    cbn [expect]. change (Ascii.eqb quotation_mark quotation_mark) with true. cbn beta iota.
    rewrite read_string_quoted. cbn [skip_ws].
    change (is_ws ":") with false. cbn beta iota. cbn [expect].
    change (Ascii.eqb ":" ":") with true. cbn beta iota.
    rewrite He; [|apply (delimited_members_tail [])|cbn [length] in Hf; rewrite length_app in Hf; cbn [length] in Hf; lia].
    rewrite string_of_list_ascii_of_string.
    rewrite define_property_fresh.
    2:{ apply NoDup_app in Hnd as (_ & Hnd & _). intros Hin.
        apply (Hnd _ Hin). by left. }
    reflexivity.
  - apply Forall_cons in Hps as [He' Hps]. cbn [snd] in He'.
    rewrite member_text_app in *.
    cbn [read_members skip_ws]. change (is_ws quotation_mark) with false. cbn beta iota.
    cbn [expect]. change (Ascii.eqb quotation_mark quotation_mark) with true. cbn beta iota.
    rewrite read_string_quoted. cbn [skip_ws].
    change (is_ws ":") with false. cbn beta iota. cbn [expect].
    change (Ascii.eqb ":" ":") with true. cbn beta iota.
    rewrite He; [|apply delimited_members_tail|cbn [length] in Hf; rewrite length_app in Hf; cbn [length] in Hf; lia].
    rewrite members_tail_cons in *.
    rewrite string_of_list_ascii_of_string.
    rewrite define_property_fresh.
    2:{ apply NoDup_app in Hnd as (_ & Hnd & _). intros Hin.
        apply (Hnd _ Hin). by left. }
    cbn [skip_ws]. change (is_ws ",") with false. change (Ascii.eqb "," ",") with true.
    cbn beta iota.
    rewrite IH; [|done|done| |].
    + cbn [map]. by rewrite <- app_assoc.
    + rewrite map_app. cbn [map fst app]. rewrite <- app_assoc. exact Hnd.
    + repeat (rewrite ?length_app in Hf; cbn [length] in Hf).
      rewrite length_app. lia.
Qed.

Lemma reads_object ps :
  NoDup (map fst ps) -> Forall (fun kv => reads (snd kv)) ps -> reads (VObj ps).
Proof.
  intros Hnd Hps [|f] rest Hrest Hf; [lia|].
  destruct ps as [|[k e] ps]; [reflexivity|].
  apply Forall_cons in Hps as [He Hps]. cbn [snd] in He.
  rewrite text_of_object in *.
  cbn [read_value skip_ws]. change (is_ws "{") with false. cbn beta iota.
  change (Ascii.eqb "{" "n") with false. change (Ascii.eqb "{" "t") with false.
  change (Ascii.eqb "{" "f") with false. change (Ascii.eqb "{" quotation_mark) with false.
  change (Ascii.eqb "{" "[") with false. change (Ascii.eqb "{" "{") with true.
  cbn beta iota.
  assert (Hb : (2 * length (member_text (k, e) ++ members_tail ps rest) + 2 <= f)%nat)
    by (cbn [length] in Hf; lia).
  pose proof (read_members_text ps k e [] f rest He Hps Hnd Hb) as Hread.
  rewrite member_text_app in *. cbn [skip_ws].
  change (is_ws quotation_mark) with false. cbn beta iota.
  change (Ascii.eqb quotation_mark "}") with false. cbn beta iota.
  by rewrite Hread.
Qed.

Lemma reads_shaped v : json_shaped true v = true -> reads v.
Proof.
  induction v as [| |b|n|z|s|elems IH|props IH] using value_ind'; intros Hs; try done.
  - intros [|f] rest _ Hf; [lia|]. reflexivity.
  - intros [|f] rest _ Hf; [lia|]. by destruct b.
  - apply reads_number, normal_number_ok, Hs.
  - apply (reads_string (BIGINT_prefix +:+ string_of_list_ascii (digits_of_Z z))).
  - apply reads_string.
  - cbn [json_shaped] in Hs. apply reads_array; [done|].
    induction IH as [|e es He _ IHes]; [done|].
    cbn in Hs. apply andb_true_iff in Hs as [Hs1 Hs2].
    constructor; auto.
  - cbn [json_shaped] in Hs. apply andb_true_iff in Hs as [Hnd Hs].
    apply bool_decide_eq_true in Hnd.
    apply reads_object; [done|].
    induction IH as [|[k e] ps He _ IHps]; [done|].
    cbn in Hs. apply andb_true_iff in Hs as [Hs1 Hs2].
    apply NoDup_cons in Hnd as [_ Hnd].
    constructor; auto.
Qed.

(** The text [JSON.stringify] writes for a JSON-shaped value is read back
    as the value it denotes. *)
Lemma JSON_parse_text_of v :
  json_shaped true v = true -> JSON_parse_text (text_of v) = Within (Some (wire v)).
Proof.
  intros Hs. unfold JSON_parse_text.
  pose proof (reads_shaped v Hs (2 * length (text_of v) + 1)%nat [] I) as Hread.
  rewrite app_nil_r in Hread. by rewrite Hread.
Qed.

(** ** The reviver *)

Lemma trim_nonspace s :
  Forall (fun c => is_js_space c = false) s -> trim s = s.
Proof.
  intros Hs. unfold trim.
  assert (H1 : forall t, Forall (fun c => is_js_space c = false) t -> trim_start t = t).
  { intros [|c t] Ht; [done|]. apply Forall_cons in Ht as [Hc _]. cbn. by rewrite Hc. }
  rewrite (H1 s Hs), H1, rev_involutive; [done|].
  by apply Forall_rev.
Qed.

Lemma digit_not_space c : is_digit c = true -> is_js_space c = false.
Proof.
  unfold is_digit, is_js_space. cbn zeta.
  intros [H1%Nat.leb_le H2%Nat.leb_le]%andb_true_iff.
  rewrite !orb_false_iff, andb_false_iff, !Nat.eqb_neq, !Nat.leb_gt. lia.
Qed.

Lemma digits_not_space n : Forall (fun c => is_js_space c = false) (digits_of_N n).
Proof.
  eapply Forall_impl; [apply digits_of_N_digits|]. intros c. apply digit_not_space.
Qed.

Lemma StringToBigInt_N n :
  StringToBigInt (digits_of_N n) = Some (Z.of_N n).
Proof.
  unfold StringToBigInt. rewrite trim_nonspace by apply digits_not_space.
  pose proof (N_of_digits_of_N n) as Hn.
  pose proof (digits_of_N_digits n) as Hd.
  destruct (digits_of_N n) as [|c rest]; [done|].
  apply Forall_cons in Hd as [Hc Hrest].
  destruct (Ascii.eqb_spec c "-"%char) as [->|_]; [done|].
  destruct (Ascii.eqb_spec c "+"%char) as [->|_]; [done|].
  rewrite Hn. cbn [option_map].
  destruct (is_zero_char c); [|done].
  destruct rest as [|x ds]; [done|].
  apply Forall_cons in Hrest as [Hx _].
  destruct (Ascii.eqb_spec x "x"%char) as [->|_]; [done|].
  destruct (Ascii.eqb_spec x "X"%char) as [->|_]; [done|].
  destruct (Ascii.eqb_spec x "o"%char) as [->|_]; [done|].
  destruct (Ascii.eqb_spec x "O"%char) as [->|_]; [done|].
  destruct (Ascii.eqb_spec x "b"%char) as [->|_]; [done|].
  destruct (Ascii.eqb_spec x "B"%char) as [->|_]; [done|].
  done.
Qed.

Lemma StringToBigInt_digits z : StringToBigInt (digits_of_Z z) = Some z.
Proof.
  destruct z as [|p|p]; cbn [digits_of_Z].
  - apply (StringToBigInt_N 0).
  - apply (StringToBigInt_N (Npos p)).
  - unfold StringToBigInt. rewrite trim_nonspace.
    2:{ constructor; [done|apply digits_not_space]. }
    change (Ascii.eqb "-" "-") with true. cbn beta iota.
    by rewrite N_of_digits_of_N.
Qed.

Lemma list_ascii_of_append a b :
  list_ascii_of_string (a +:+ b) = list_ascii_of_string a ++ list_ascii_of_string b.
Proof. induction a as [|c a IH]; [done|]. simpl. f_equal. exact IH. Qed.

Lemma strip_prefix_app p s : strip_prefix p (p ++ s) = Some s.
Proof. induction p as [|c p IH]; [done|]. cbn. by rewrite Ascii.eqb_refl. Qed.

Lemma reviver_replacer z : reviver (replacer (VBigInt z)) = Normal (VBigInt z).
Proof.
  cbn [replacer reviver]. unfold startsWith, substring_from.
  rewrite list_ascii_of_append, strip_prefix_app.
  change 8%nat with (length (list_ascii_of_string BIGINT_prefix)).
  rewrite drop_app_length, list_ascii_of_string_of_list_ascii.
  by rewrite StringToBigInt_digits.
Qed.

Lemma shaped_defined v : json_shaped true v = true -> is_undefined v = false.
Proof. by destruct v. Qed.

Lemma internalize_wire v :
  json_shaped true v = true -> plain_strings v = true ->
  InternalizeJSONProperty reviver (wire v) = Normal v.
Proof.
  induction v as [| |b|n|z|s|elems IH|props IH] using value_ind';
    intros Hs Hp; try done.
  - apply reviver_replacer.
  - cbn in *. apply negb_true_iff in Hp. by rewrite Hp.
  - cbn [wire InternalizeJSONProperty].
    match goal with
    | |- match ?x with _ => _ end = _ => assert (E : x = Normal elems)
    end.
    { cbn [json_shaped plain_strings] in Hs, Hp.
      induction IH as [|e es He _ IHes]; [done|].
      cbn in Hs, Hp. apply andb_true_iff in Hs as [Hs1 Hs2].
      apply andb_true_iff in Hp as [Hp1 Hp2].
      cbn [map]. by rewrite He, IHes. }
    by rewrite E.
  - cbn [wire InternalizeJSONProperty].
    match goal with
    | |- match ?x with _ => _ end = _ => assert (E : x = Normal props)
    end.
    { cbn [json_shaped plain_strings] in Hs, Hp.
      apply andb_true_iff in Hs as [_ Hs].
      induction IH as [|[k e] ps He _ IHps]; [done|].
      cbn in Hs, Hp. apply andb_true_iff in Hs as [Hs1 Hs2].
      apply andb_true_iff in Hp as [Hp1 Hp2].
      cbn [map fst snd]. cbn [snd] in He. rewrite He, IHps by done.
      by rewrite (shaped_defined e Hs1). }
    by rewrite E.
Qed.

Lemma json_round_trip v :
  json_shaped true v = true -> plain_strings v = true ->
  exists wire_text,
    jsonStringifyWithBigInt v = Some wire_text
    /\ jsonParseWithBigInt wire_text = Within (Normal v).
Proof.
  intros Hs Hp. exists (string_of_list_ascii (text_of v)).
  unfold jsonStringifyWithBigInt, jsonParseWithBigInt.
  rewrite (Serialize_shaped v Hs). split; [done|].
  rewrite list_ascii_of_string_of_list_ascii, (JSON_parse_text_of v Hs).
  f_equal. by apply internalize_wire.
Qed.

Lemma json_shaped_bigints v : json_shaped false v = true -> json_shaped true v = true.
Proof.
  induction v as [| |b|n|z|s|elems IH|props IH] using value_ind'; try done.
  - cbn [json_shaped]. induction IH as [|e es He _ IHes]; [done|].
    cbn. rewrite !andb_true_iff. intros [H1 H2]. auto.
  - cbn [json_shaped]. rewrite !andb_true_iff. intros [Hnd Hs]. split; [done|].
    induction IH as [|[k e] ps He _ IHps]; [done|].
    cbn in *. rewrite !andb_true_iff in *. destruct Hs as [H1 H2].
    apply bool_decide_eq_true in Hnd. apply NoDup_cons in Hnd as [_ Hnd].
    split; [auto|]. apply IHps; [|done]. by apply bool_decide_eq_true.
Qed.

Lemma change_tuple_shaped c : change_tuple c = true -> json_shaped true c = true.
Proof.
  destruct c as [| | | | | |elems|]; try done.
  destruct elems as [|x1 [|x2 [|x3 [|x4 [|x5 [|x6 [|x7 [|x8 [|]]]]]]]]]; try done;
    destruct x3; try done; destruct x4; try done; destruct x5; try done.
  cbn. rewrite !andb_true_iff. intros [[[[Ha Hb] Hf] Hg] Hh].
  by rewrite !json_shaped_bigints.
Qed.

Lemma changeset_shaped cs : changeset cs = true -> json_shaped true cs = true.
Proof.
  destruct cs as [| | | | | |changes|]; try done. cbn.
  induction changes as [|c changes IH]; [done|].
  cbn. rewrite !andb_true_iff. intros [Hc Hcs].
  split; [by apply change_tuple_shaped|by apply IH].
Qed.

(** Claim C6, amended.  For every changeset (a sequence of 8-tuples whose
    positions 2, 3 and 4 are bigints and whose other positions are
    JSON-shaped values) in which no string value starts with [BIGINT::],
    [jsonStringifyWithBigInt] yields a text and [jsonParseWithBigInt] of
    that text is the changeset, bigints included.  The empty changeset
    serialises to [[]]. *)
Theorem changeset_round_trip :
  (forall cs,
     changeset cs = true -> plain_strings cs = true ->
     exists wire_text,
       jsonStringifyWithBigInt cs = Some wire_text
       /\ jsonParseWithBigInt wire_text = Within (Normal cs))
  /\ jsonStringifyWithBigInt (VArr []) = Some "[]".
Proof.
  split; [|reflexivity].
  intros cs Hcs Hp. apply json_round_trip; [|done]. by apply changeset_shaped.
Qed.

Definition alice_changes : value :=
  VArr [VArr [VStr "users"; VStr "1"; VBigInt 1; VBigInt 1; VBigInt (-7);
              VNum (num_of_Z 1); VNum (num_of_Z 0); VStr "Alice"]].

(** One change of a row of [users], with a negative site version. *)
Lemma changeset_round_trip_witness :
  exists wire_text,
    jsonStringifyWithBigInt alice_changes = Some wire_text
    /\ jsonParseWithBigInt wire_text = Within (Normal alice_changes).
Proof.
  apply (proj1 changeset_round_trip alice_changes).
  - vm_compute. reflexivity.
  - vm_compute. reflexivity.
Defined.

Definition prefixed_changes : value :=
  VArr [VArr [VStr "notes"; VStr "1"; VBigInt 1; VBigInt 1; VBigInt 2;
              VNum (num_of_Z 1); VNum (num_of_Z 0); VStr "BIGINT::5"]].

(** Claim C6 as stated fails for a changeset whose value is a string that
    starts with [BIGINT::]: it comes back as a bigint. *)
Lemma prefixed_string_comes_back_as_bigint :
  changeset prefixed_changes = true
  /\ match jsonStringifyWithBigInt prefixed_changes with
     | Some wire_text =>
         jsonParseWithBigInt wire_text
         = Within
             (Normal (VArr [VArr [VStr "notes"; VStr "1"; VBigInt 1; VBigInt 1; VBigInt 2;
                                  VNum (num_of_Z 1); VNum (num_of_Z 0); VBigInt 5]]))
     | None => False
     end
  /\ VBigInt 5 <> VStr "BIGINT::5".
Proof. vm_compute. repeat split. discriminate. Qed.

(** * Parsing and applying changesets: properties *)

(** ** The parser never runs out of fuel *)

Lemma length_skip_ws s : (length (skip_ws s) <= length s)%nat.
Proof. induction s as [|c s IH]; [done|]. cbn. destruct (is_ws c); cbn; lia. Qed.

Lemma length_strip_prefix p : forall s r,
  strip_prefix p s = Some r -> (length r + length p = length s)%nat.
Proof.
  induction p as [|a p IH]; intros s r; cbn.
  - intros [= ->]. lia.
  - destruct s as [|b s]; [done|]. destruct (Ascii.eqb a b); [|done].
    intros Hr%IH. cbn. lia.
Qed.

Lemma length_span_digits s ds r :
  span_digits s = (ds, r) -> (length ds + length r = length s)%nat.
Proof.
  revert ds r. induction s as [|c s IH]; intros ds r; cbn.
  - by intros [= <- <-].
  - destruct (is_digit c).
    + destruct (span_digits s) as [ds' r'] eqn:E. intros [= <- <-].
      specialize (IH _ _ eq_refl). cbn. lia.
    + intros [= <- <-]. cbn. lia.
Qed.

Lemma length_read_string n : forall s cs r,
  (length s <= n)%nat -> read_string s = Within (Some (cs, r)) ->
  (length r < length s)%nat.
Proof.
  induction n as [|n IH]; intros s cs r Hn.
  { destruct s; [done|cbn in Hn; lia]. }
  destruct s as [|c s]; [done|]. cbn [read_string].
  destruct (Ascii.eqb c quotation_mark); [intros [= <- <-]; cbn; lia|].
  destruct (Ascii.eqb c "\"%char).
  - destruct s as [|e s]; [done|]. cbn in Hn.
    assert (Hrec : forall x, continue_with x (read_string s) = Within (Some (cs, r)) ->
                             (length r < length (c :: e :: s))%nat).
    { intros x Hx. destruct (read_string s) as [[[cs0 r0]|]|] eqn:E; [|done|done].
      cbn in Hx. injection Hx as <- <-. apply IH in E; [|lia]. cbn. lia. }
    repeat (match goal with
            | |- context [if Ascii.eqb e ?x then _ else _] =>
                destruct (Ascii.eqb e x); [apply Hrec|]
            end).
    destruct (Ascii.eqb e "u"%char); [|done].
    destruct s as [|h1 [|h2 [|h3 [|h4 s3]]]]; try done.
    destruct (unicode_escape h1 h2 h3 h4) as [x|]; [|done].
    destruct (x <? 256)%nat; [|done].
    destruct (read_string s3) as [[[cs0 r0]|]|] eqn:E; [|done|done].
    cbn. intros [= <- <-]. apply IH in E; [|cbn in Hn; lia]. lia.
  - destruct (nat_of_ascii c <? 32)%nat; [done|].
    destruct (read_string s) as [[[cs0 r0]|]|] eqn:E; [|done|done].
    cbn. intros [= <- <-]. apply IH in E; [|cbn in Hn; lia]. lia.
Qed.

Lemma length_read_number s n r :
  read_number s = Some (n, r) -> (length r < length s)%nat.
Proof.
  unfold read_number.
  set (p := match s with
            | c :: s' => if Ascii.eqb c "-"%char then (true, s') else (false, s)
            | [] => (false, s)
            end).
  assert (Hp : (length (snd p) <= length s)%nat).
  { subst p. destruct s as [|c s]; [done|]. destruct (Ascii.eqb c "-"%char); cbn; lia. }
  destruct p as [neg s1]. cbn [snd] in Hp.
  destruct (read_int_part s1) as [[I s2]|] eqn:HI; [|done]. cbn [mbind option_bind].
  assert (H2 : (length s2 < length s1)%nat).
  { unfold read_int_part in HI. destruct s1 as [|c s1]; [done|].
    destruct (is_zero_char c); [injection HI as <- <-; cbn; lia|].
    destruct (is_digit c); [|done].
    destruct (span_digits s1) as [ds r0] eqn:E. injection HI as <- <-.
    apply length_span_digits in E. cbn. lia. }
  destruct (read_frac_part s2) as [[F s3]|] eqn:HF; [|done]. cbn [mbind option_bind].
  assert (H3 : (length s3 <= length s2)%nat).
  { unfold read_frac_part in HF. destruct s2 as [|c s2]; [by injection HF as <- <-|].
    destruct (Ascii.eqb c "."%char); [|injection HF as <- <-; lia].
    destruct (span_digits s2) as [ds r0] eqn:E.
    apply length_span_digits in E.
    destruct ds; [done|]. injection HF as <- <-. cbn in *. lia. }
  destruct (read_exponent s3) as [[e s4]|] eqn:HE; [|done]. cbn [mbind option_bind].
  assert (H4 : (length s4 <= length s3)%nat).
  { unfold read_exponent in HE. destruct s3 as [|c s3]; [by injection HE as <- <-|].
    destruct (Ascii.eqb c "e"%char || Ascii.eqb c "E"%char); [|injection HE as <- <-; lia].
    set (q := match s3 with
              | d :: s'' =>
                  if Ascii.eqb d "-"%char then (true, s'')
                  else if Ascii.eqb d "+"%char then (false, s'') else (false, s3)
              | [] => (false, s3)
              end) in HE.
    assert (Hq : (length (snd q) <= length s3)%nat).
    { subst q. destruct s3 as [|d s3]; [done|].
      destruct (Ascii.eqb d "-"%char); [cbn; lia|].
      destruct (Ascii.eqb d "+"%char); cbn; lia. }
    destruct q as [negative s5]. cbn [snd] in Hq.
    destruct (span_digits s5) as [ds r0] eqn:E.
    apply length_span_digits in E.
    destruct (N_of_digits ds); [|done]. cbn in HE. injection HE as <- <-. cbn. lia. }
  intros [= <- <-]. lia.
Qed.

Lemma length_expect c s r : expect c s = Some r -> (length r < length s)%nat.
Proof.
  destruct s as [|c' s]; [done|]. cbn. destruct (Ascii.eqb c c'); [|done].
  intros [= <-]. lia.
Qed.

(** What reading may end with when it has fuel for twice the text. *)
Definition consumed {A} (s : text) (r : reading A) : Prop :=
  match r with
  | ReadOk _ rest => (length rest < length s)%nat
  | Malformed | Wide => True
  | OutOfFuel => False
  end.

(** With fuel for twice the length of the text, each of the three readers
    ends, and a value that has been read has consumed some of the text. *)
Lemma read_total fuel :
  (forall s, (2 * length s + 1 <= fuel)%nat -> consumed s (read_value fuel s))
  /\ (forall s, (2 * length s + 2 <= fuel)%nat -> consumed s (read_elements fuel s))
  /\ (forall acc s, (2 * length s + 2 <= fuel)%nat ->
        consumed s (read_members fuel acc s)).
Proof.
  induction fuel as [|f (IHv & IHe & IHm)].
  { repeat split; intros; lia. }
  split; [|split].
  - intros s Hf. cbn [read_value].
    pose proof (length_skip_ws s) as Hws.
    destruct (skip_ws s) as [|c s'] eqn:Hsk; [done|]. cbn [length] in Hws.
    destruct (Ascii.eqb c "n"%char).
    { destruct (strip_prefix _ _) as [r|] eqn:E; [|done].
      apply length_strip_prefix in E. cbn in *. lia. }
    destruct (Ascii.eqb c "t"%char).
    { destruct (strip_prefix _ _) as [r|] eqn:E; [|done].
      apply length_strip_prefix in E. cbn in *. lia. }
    destruct (Ascii.eqb c "f"%char).
    { destruct (strip_prefix _ _) as [r|] eqn:E; [|done].
      apply length_strip_prefix in E. cbn in *. lia. }
    destruct (Ascii.eqb c quotation_mark).
    { destruct (read_string s') as [[[cs r]|]|] eqn:E; [|done|done].
      apply (length_read_string (length s')) in E; [|lia]. cbn. lia. }
    destruct (Ascii.eqb c "["%char).
    { pose proof (length_skip_ws s') as Hws'.
      destruct (skip_ws s') as [|d s''] eqn:Hsk'; [done|]. cbn [length] in Hws'.
      destruct (Ascii.eqb d "]"%char); [cbn; lia|].
      assert (Hb : (2 * length (d :: s'') + 2 <= f)%nat) by (cbn [length] in *; lia).
      specialize (IHe (d :: s'') Hb).
      destruct (read_elements f (d :: s'')) as [vs r| | |]; cbn in *; [lia|done|done|done]. }
    destruct (Ascii.eqb c "{"%char).
    { pose proof (length_skip_ws s') as Hws'.
      destruct (skip_ws s') as [|d s''] eqn:Hsk'; [done|]. cbn [length] in Hws'.
      destruct (Ascii.eqb d "}"%char); [cbn; lia|].
      assert (Hb : (2 * length (d :: s'') + 2 <= f)%nat) by (cbn [length] in *; lia).
      specialize (IHm [] (d :: s'') Hb).
      destruct (read_members f [] (d :: s'')) as [ps r| | |]; cbn in *; [lia|done|done|done]. }
    destruct (read_number (c :: s')) as [[n r]|] eqn:E; [|done].
    apply length_read_number in E. cbn in *. lia.
  - intros s Hf. cbn [read_elements].
    assert (Hb : (2 * length s + 1 <= f)%nat) by lia.
    specialize (IHv s Hb).
    destruct (read_value f s) as [v r| | |]; [|done|done|done]. cbn in IHv.
    pose proof (length_skip_ws r) as Hws.
    destruct (skip_ws r) as [|c r'] eqn:Hsk; [done|]. cbn [length] in Hws.
    destruct (Ascii.eqb c ","%char).
    { assert (Hb' : (2 * length r' + 2 <= f)%nat) by lia.
      specialize (IHe r' Hb').
      destruct (read_elements f r') as [vs r''| | |]; cbn in *; [lia|done|done|done]. }
    destruct (Ascii.eqb c "]"%char); [cbn; lia|done].
  - intros acc s Hf. cbn [read_members].
    pose proof (length_skip_ws s) as Hws.
    destruct (expect _ (skip_ws s)) as [s1|] eqn:E1; [|done].
    apply length_expect in E1.
    destruct (read_string s1) as [[[key s2]|]|] eqn:E2; [|done|done].
    apply (length_read_string (length s1)) in E2; [|lia].
    pose proof (length_skip_ws s2) as Hws2.
    destruct (expect _ (skip_ws s2)) as [s3|] eqn:E3; [|done].
    apply length_expect in E3.
    assert (Hb : (2 * length s3 + 1 <= f)%nat) by lia.
    specialize (IHv s3 Hb).
    destruct (read_value f s3) as [v r| | |]; [|done|done|done]. cbn in IHv.
    pose proof (length_skip_ws r) as Hwsr.
    destruct (skip_ws r) as [|c r'] eqn:Hsk; [done|]. cbn [length] in Hwsr.
    destruct (Ascii.eqb c ","%char).
    { assert (Hb' : (2 * length r' + 2 <= f)%nat) by lia.
      specialize (IHm (define_property (string_of_list_ascii key) v acc) r' Hb').
      destruct (read_members f _ r') as [ps r''| | |]; cbn in *; [lia|done|done|done]. }
    destruct (Ascii.eqb c "}"%char); [cbn; lia|done].
Qed.

(** [JSON_parse_text] gives its reader enough fuel: [Within None] is always
    a text that is not JSON. *)
Theorem JSON_parse_text_total s :
  read_value (2 * length s + 1) s <> OutOfFuel.
Proof.
  intros E. pose proof (proj1 (read_total (2 * length s + 1)) s (Nat.le_refl _)) as H.
  by rewrite E in H.
Qed.

(** ** Texts the model does not decide *)

(** The text holds the two characters of a unicode escape. *)
Definition has_unicode_escape (s : text) : Prop :=
  exists l1 l2, s = l1 ++ "\"%char :: "u"%char :: l2.

Lemma has_unicode_escape_suffix r s :
  r `suffix_of` s -> has_unicode_escape r -> has_unicode_escape s.
Proof.
  intros [k ->] (l1 & l2 & ->). exists (k ++ l1), l2. by rewrite <- app_assoc.
Qed.

Lemma suffix_skip_ws s : skip_ws s `suffix_of` s.
Proof.
  induction s as [|c s IH]; [done|]. cbn. destruct (is_ws c); [|done].
  by apply suffix_cons_r.
Qed.

Lemma suffix_strip_prefix p : forall s r, strip_prefix p s = Some r -> r `suffix_of` s.
Proof.
  induction p as [|a p IH]; intros s r; cbn.
  - by intros [= ->].
  - destruct s as [|b s]; [done|]. destruct (Ascii.eqb a b); [|done].
    intros Hr%IH. by apply suffix_cons_r.
Qed.

Lemma suffix_span_digits s ds r : span_digits s = (ds, r) -> r `suffix_of` s.
Proof.
  revert ds r. induction s as [|c s IH]; intros ds r; cbn.
  - by intros [= <- <-].
  - destruct (is_digit c).
    + destruct (span_digits s) as [ds' r'] eqn:E. intros [= <- <-].
      apply suffix_cons_r. by apply (IH ds').
    + by intros [= <- <-].
Qed.

Lemma suffix_read_number s n r : read_number s = Some (n, r) -> r `suffix_of` s.
Proof.
  unfold read_number.
  set (p := match s with
            | c :: s' => if Ascii.eqb c "-"%char then (true, s') else (false, s)
            | [] => (false, s)
            end).
  assert (Hp : snd p `suffix_of` s).
  { subst p. destruct s as [|c s]; [done|].
    destruct (Ascii.eqb c "-"%char); cbn; [by apply suffix_cons_r|done]. }
  destruct p as [neg s1]. cbn [snd] in Hp.
  destruct (read_int_part s1) as [[I s2]|] eqn:HI; [|done]. cbn [mbind option_bind].
  assert (H2 : s2 `suffix_of` s1).
  { unfold read_int_part in HI. destruct s1 as [|c s1]; [done|].
    destruct (is_zero_char c); [injection HI as <- <-; by apply suffix_cons_r|].
    destruct (is_digit c); [|done].
    destruct (span_digits s1) as [ds r0] eqn:E. injection HI as <- <-.
    apply suffix_cons_r. by apply (suffix_span_digits _ ds). }
  destruct (read_frac_part s2) as [[F s3]|] eqn:HF; [|done]. cbn [mbind option_bind].
  assert (H3 : s3 `suffix_of` s2).
  { unfold read_frac_part in HF. destruct s2 as [|c s2]; [by injection HF as <- <-|].
    destruct (Ascii.eqb c "."%char); [|by injection HF as <- <-].
    destruct (span_digits s2) as [ds r0] eqn:E.
    apply suffix_span_digits in E.
    destruct ds; [done|]. injection HF as <- <-. by apply suffix_cons_r. }
  destruct (read_exponent s3) as [[e s4]|] eqn:HE; [|done]. cbn [mbind option_bind].
  assert (H4 : s4 `suffix_of` s3).
  { unfold read_exponent in HE. destruct s3 as [|c s3]; [by injection HE as <- <-|].
    destruct (Ascii.eqb c "e"%char || Ascii.eqb c "E"%char); [|by injection HE as <- <-].
    set (q := match s3 with
              | d :: s'' =>
                  if Ascii.eqb d "-"%char then (true, s'')
                  else if Ascii.eqb d "+"%char then (false, s'') else (false, s3)
              | [] => (false, s3)
              end) in HE.
    assert (Hq : snd q `suffix_of` s3).
    { subst q. destruct s3 as [|d s3]; [done|].
      destruct (Ascii.eqb d "-"%char); [by apply suffix_cons_r|].
      destruct (Ascii.eqb d "+"%char); cbn; [by apply suffix_cons_r|done]. }
    destruct q as [negative s5]. cbn [snd] in Hq.
    destruct (span_digits s5) as [ds r0] eqn:E.
    apply suffix_span_digits in E.
    destruct (N_of_digits ds); [|done]. cbn in HE. injection HE as <- <-.
    apply suffix_cons_r. by etrans. }
  intros [= <- <-]. etrans; [exact H4|]. etrans; [exact H3|]. by etrans.
Qed.

Lemma suffix_expect c s r : expect c s = Some r -> r `suffix_of` s.
Proof.
  destruct s as [|c' s]; [done|]. cbn. destruct (Ascii.eqb c c'); [|done].
  intros [= <-]. by apply suffix_cons_r.
Qed.

(** A string literal either ends within the model, and what follows it is
    the end of the text read, or it holds a unicode escape. *)
Definition string_read (s : text) (r : within (option (text * text))) : Prop :=
  match r with
  | Within (Some (_, rest)) => rest `suffix_of` s
  | Within None => True
  | Beyond => has_unicode_escape s
  end.

Lemma string_read_continue x s s' :
  s' `suffix_of` s -> string_read s' (read_string s') ->
  string_read s (continue_with x (read_string s')).
Proof.
  intros Hs. destruct (read_string s') as [[[cs r]|]|]; cbn; [|done|].
  - intros Hr. by etrans.
  - by apply has_unicode_escape_suffix.
Qed.

Lemma read_string_read n : forall s,
  (length s <= n)%nat -> string_read s (read_string s).
Proof.
  induction n as [|n IH]; intros s Hn.
  { destruct s; [done|cbn in Hn; lia]. }
  destruct s as [|c s]; [done|]. cbn [read_string]. cbn in Hn.
  destruct (Ascii.eqb c quotation_mark); [cbn; by apply suffix_cons_r|].
  destruct (Ascii.eqb_spec c "\"%char) as [->|_].
  - destruct s as [|e s]; [done|]. cbn in Hn.
    assert (Hrec : forall x, string_read ("\"%char :: e :: s)
                               (continue_with x (read_string s))).
    { intros x. apply string_read_continue; [|apply IH; lia].
      by apply suffix_cons_r, suffix_cons_r. }
    repeat (match goal with
            | |- context [if Ascii.eqb e ?x then _ else _] =>
                destruct (Ascii.eqb_spec e x) as [->|?]; [apply Hrec|]
            end).
    destruct (Ascii.eqb_spec e "u"%char) as [->|_]; [|done].
    destruct s as [|h1 [|h2 [|h3 [|h4 s3]]]]; try done.
    destruct (unicode_escape h1 h2 h3 h4) as [x|]; [|done].
    destruct (x <? 256)%nat.
    + apply string_read_continue; [|apply IH; cbn in Hn; lia].
      do 6 apply suffix_cons_r. done.
    + cbn. by exists [], (h1 :: h2 :: h3 :: h4 :: s3).
  - destruct (nat_of_ascii c <? 32)%nat; [done|].
    apply string_read_continue; [by apply suffix_cons_r|apply IH; lia].
Qed.

(** What reading ends with: a rest of the text, or, when it stops at a wide
    string, a text with a unicode escape. *)
Definition read_to {A} (s : text) (r : reading A) : Prop :=
  match r with
  | ReadOk _ rest => rest `suffix_of` s
  | Wide => has_unicode_escape s
  | Malformed | OutOfFuel => True
  end.

Lemma read_to_suffix {A} (s s' : text) (r : reading A) :
  s' `suffix_of` s -> read_to s' r -> read_to s r.
Proof.
  intros Hs. destruct r; cbn; try done.
  - intros Hr. by etrans.
  - by apply has_unicode_escape_suffix.
Qed.

Lemma read_to_all fuel :
  (forall s, read_to s (read_value fuel s))
  /\ (forall s, read_to s (read_elements fuel s))
  /\ (forall acc s, read_to s (read_members fuel acc s)).
Proof.
  induction fuel as [|f (IHv & IHe & IHm)]; [done|].
  split; [|split].
  - intros s. cbn [read_value].
    pose proof (suffix_skip_ws s) as Hws.
    destruct (skip_ws s) as [|c s'] eqn:Hsk; [done|].
    apply (read_to_suffix s (c :: s')); [done|]. clear Hws Hsk.
    destruct (Ascii.eqb c "n"%char).
    { destruct (strip_prefix _ _) as [r|] eqn:E; [|done].
      by apply suffix_strip_prefix in E. }
    destruct (Ascii.eqb c "t"%char).
    { destruct (strip_prefix _ _) as [r|] eqn:E; [|done].
      by apply suffix_strip_prefix in E. }
    destruct (Ascii.eqb c "f"%char).
    { destruct (strip_prefix _ _) as [r|] eqn:E; [|done].
      by apply suffix_strip_prefix in E. }
    destruct (Ascii.eqb c quotation_mark).
    { pose proof (read_string_read (length s') s' (Nat.le_refl _)) as Hr.
      destruct (read_string s') as [[[cs r]|]|]; cbn in *; [|done|].
      - by apply suffix_cons_r.
      - apply (has_unicode_escape_suffix s'); [by apply suffix_cons_r|done]. }
    destruct (Ascii.eqb c "["%char).
    { pose proof (suffix_skip_ws s') as Hws'.
      destruct (skip_ws s') as [|d s''] eqn:Hsk'; [done|].
      assert (Hd : (d :: s'') `suffix_of` (c :: s')) by (by apply suffix_cons_r).
      destruct (Ascii.eqb d "]"%char).
      { cbn. etrans; [|exact Hd]. by apply suffix_cons_r. }
      specialize (IHe (d :: s'')).
      destruct (read_elements f (d :: s'')) as [vs r| | |]; cbn in *; try done.
      - by etrans.
      - by apply (has_unicode_escape_suffix (d :: s'')). }
    destruct (Ascii.eqb c "{"%char).
    { pose proof (suffix_skip_ws s') as Hws'.
      destruct (skip_ws s') as [|d s''] eqn:Hsk'; [done|].
      assert (Hd : (d :: s'') `suffix_of` (c :: s')) by (by apply suffix_cons_r).
      destruct (Ascii.eqb d "}"%char).
      { cbn. etrans; [|exact Hd]. by apply suffix_cons_r. }
      specialize (IHm [] (d :: s'')).
      destruct (read_members f [] (d :: s'')) as [ps r| | |]; cbn in *; try done.
      - by etrans.
      - by apply (has_unicode_escape_suffix (d :: s'')). }
    destruct (read_number (c :: s')) as [[n r]|] eqn:E; [|done].
    by apply suffix_read_number in E.
  - intros s. cbn [read_elements].
    specialize (IHv s).
    destruct (read_value f s) as [v r| | |]; try done. cbn in IHv.
    pose proof (suffix_skip_ws r) as Hws.
    destruct (skip_ws r) as [|c r'] eqn:Hsk; [done|].
    assert (Hr' : r' `suffix_of` s).
    { etrans; [|exact IHv]. etrans; [|exact Hws]. by apply suffix_cons_r. }
    destruct (Ascii.eqb c ","%char).
    { specialize (IHe r').
      destruct (read_elements f r') as [vs r''| | |]; cbn in *; try done.
      - by etrans.
      - by apply (has_unicode_escape_suffix r'). }
    destruct (Ascii.eqb c "]"%char); done.
  - intros acc s. cbn [read_members].
    pose proof (suffix_skip_ws s) as Hws.
    destruct (expect _ (skip_ws s)) as [s1|] eqn:E1; [|done].
    apply suffix_expect in E1.
    assert (H1 : s1 `suffix_of` s) by (by etrans).
    pose proof (read_string_read (length s1) s1 (Nat.le_refl _)) as Hk.
    destruct (read_string s1) as [[[key s2]|]|] eqn:E2; cbn in Hk; [|done|].
    2:{ cbn. by apply (has_unicode_escape_suffix s1). }
    pose proof (suffix_skip_ws s2) as Hws2.
    destruct (expect _ (skip_ws s2)) as [s3|] eqn:E3; [|done].
    apply suffix_expect in E3.
    assert (H3 : s3 `suffix_of` s).
    { etrans; [exact E3|]. etrans; [exact Hws2|]. by etrans. }
    specialize (IHv s3).
    destruct (read_value f s3) as [v r| | |]; try done.
    2:{ cbn in *. by apply (has_unicode_escape_suffix s3). }
    cbn in IHv.
    pose proof (suffix_skip_ws r) as Hwsr.
    destruct (skip_ws r) as [|c r'] eqn:Hsk; [done|].
    assert (Hr' : r' `suffix_of` s).
    { etrans; [|exact H3]. etrans; [|exact IHv]. etrans; [|exact Hwsr].
      by apply suffix_cons_r. }
    destruct (Ascii.eqb c ","%char).
    { specialize (IHm (define_property (string_of_list_ascii key) v acc) r').
      destruct (read_members f _ r') as [ps r''| | |]; cbn in *; try done.
      - by etrans.
      - by apply (has_unicode_escape_suffix r'). }
    destruct (Ascii.eqb c "}"%char); done.
Qed.

(** The model leaves a text undecided only when it holds a unicode
    escape. *)
Lemma JSON_parse_text_beyond s :
  JSON_parse_text s = Beyond -> has_unicode_escape s.
Proof.
  unfold JSON_parse_text.
  pose proof (proj1 (read_to_all (2 * length s + 1)) s) as H.
  destruct (read_value _ s) as [v r| | |]; try done.
  by destruct (skip_ws r).
Qed.

(** ** Applying a changeset *)

(** An array of arrays of length 8. *)
Definition array_of_8_tuples (v : value) : Prop :=
  exists changes, v = VArr changes
    /\ Forall (fun c => exists elems, c = VArr elems /\ length elems = 8%nat) changes.

(** The check of [applyChangeset] passes exactly for an array of arrays of
    length 8. *)
Lemma invalid_changes_spec v :
  invalid_changes v = false <-> array_of_8_tuples v.
Proof.
  split.
  - destruct v as [| | | | | |changes|]; try done. cbn.
    intros H%negb_false_iff. exists changes. split; [done|].
    apply Forall_forall. intros c Hc. rewrite forallb_forall in H.
    apply list_elem_of_In, H in Hc. destruct c as [| | | | | |elems|]; try done.
    exists elems. split; [done|]. by apply Nat.eqb_eq.
  - intros (changes & -> & H). cbn. apply negb_false_iff, forallb_forall.
    intros c Hc. rewrite Forall_forall in H.
    apply list_elem_of_In, H in Hc as (elems & -> & Hlen). by apply Nat.eqb_eq.
Qed.

(** Claim C5, amended.  [applyChangeset] on malformed JSON throws the
    [SyntaxError] of [JSON.parse], and more generally whatever
    [jsonParseWithBigInt] throws; when the parsed value is not an array of
    arrays of length 8 it throws the error with the message
    [Invalid changeset format. Expected a JSON array of change tuples.];
    in all these cases [applyChanges] is not called.  When the parsed value
    is an array of arrays of length 8, [applyChanges] is called once with
    it and its outcome is the outcome of [applyChangeset].  One of these
    cases applies to every text without a unicode escape; a text with a
    unicode escape above [00FF] denotes a string that is not in the
    model. *)
Theorem applyChangeset_rejects changeset answer applied :
  (JSON_parse_text (list_ascii_of_string changeset) = Within None ->
   applyChangeset changeset answer applied = Within (Throw SyntaxError, applied))
  /\ (forall t, jsonParseWithBigInt changeset = Within (Throw t) ->
        applyChangeset changeset answer applied = Within (Throw t, applied))
  /\ (forall v,
        jsonParseWithBigInt changeset = Within (Normal v) ->
        ~ array_of_8_tuples v ->
        applyChangeset changeset answer applied = Within (Throw InvalidChangeset, applied))
  /\ (forall v,
        jsonParseWithBigInt changeset = Within (Normal v) ->
        array_of_8_tuples v ->
        applyChangeset changeset answer applied = Within (answer, applied ++ [v]))
  /\ (~ has_unicode_escape (list_ascii_of_string changeset) ->
      exists parsed, jsonParseWithBigInt changeset = Within parsed).
Proof.
  unfold applyChangeset, mbind, Comp_bind, lift, throw, modify.
  split; [|split; [|split; [|split]]].
  - intros Hp. unfold jsonParseWithBigInt. by rewrite Hp.
  - intros t Ht. by rewrite Ht.
  - intros v Hc Hi. rewrite Hc.
    destruct (invalid_changes v) eqn:E; [done|].
    by apply invalid_changes_spec in E.
  - intros v Hc Hi. apply invalid_changes_spec in Hi. rewrite Hc, Hi.
    by destruct answer.
  - intros Hno. unfold jsonParseWithBigInt.
    destruct (JSON_parse_text _) as [[v|]|] eqn:E; [by eexists|by eexists|].
    by apply JSON_parse_text_beyond in E.
Qed.

(** A change that has three positions instead of eight. *)
Lemma applyChangeset_rejects_witness :
  applyChangeset "[[1,2,3]]" (Normal tt) [] = Within (Throw InvalidChangeset, []).
Proof.
  apply (proj1 (proj2 (proj2 (applyChangeset_rejects
           "[[1,2,3]]" (Normal tt) [])))
           (VArr [VArr [VNum (num_of_Z 1); VNum (num_of_Z 2); VNum (num_of_Z 3)]])).
  - vm_compute. reflexivity.
  - intros Ha. apply invalid_changes_spec in Ha. vm_compute in Ha. discriminate.
Defined.

(** The text of an array with one string, written as the escape
    [escape]. *)
Definition escaped_string (escape : string) : string :=
  string_of_list_ascii
    (["["%char; quotation_mark] ++ list_ascii_of_string escape
       ++ [quotation_mark; "]"%char]).

(** An escape for a code unit of the model is read; a text with an escape
    for a code unit above 255 is not decided. *)
Lemma wide_escape_is_beyond :
  jsonParseWithBigInt (escaped_string "\u0041") = Within (Normal (VArr [VStr "A"]))
  /\ jsonParseWithBigInt (escaped_string "\u0100") = Beyond
  /\ applyChangeset (escaped_string "\u0100") (Normal tt) [] = Beyond.
Proof. vm_compute. done. Qed.

(** Claim C5 as stated fails on malformed JSON: the error is the
    [SyntaxError] of [JSON.parse], not the invalid-changeset error. *)
Lemma malformed_json_is_a_SyntaxError :
  applyChangeset "this is not json" (Normal tt) [] = Within (Throw SyntaxError, [])
  /\ SyntaxError <> InvalidChangeset.
Proof. split; [vm_compute; reflexivity|discriminate]. Qed.

(** ** From one peer to the other *)

Lemma changeset_is_valid cs : changeset cs = true -> invalid_changes cs = false.
Proof.
  destruct cs as [| | | | | |changes|]; try done. cbn.
  intros Hcs. apply negb_false_iff, forallb_forall. intros c Hc.
  rewrite forallb_forall in Hcs. specialize (Hcs c Hc).
  destruct c as [| | | | | |elems|]; try done.
  destruct elems as [|x1 [|x2 [|x3 [|x4 [|x5 [|x6 [|x7 [|x8 [|x9 elems]]]]]]]]];
    try done; cbn in Hcs; try done;
    destruct x3; try done; destruct x4; try done; destruct x5; done.
Qed.

(** Extra X9.  The text [getChangeset] makes of a changeset in which no
    string starts with [BIGINT::] is accepted by [applyChangeset], which
    hands the same changeset to [applyChanges], once, and ends as that
    call ends. *)
Theorem changeset_reaches_the_peer cs answer applied :
  changeset cs = true -> plain_strings cs = true ->
  exists wire_text,
    getChangeset (Normal cs) = Normal (Some wire_text)
    /\ applyChangeset wire_text answer applied = Within (answer, applied ++ [cs]).
Proof.
  intros Hcs Hp.
  destruct (json_round_trip cs (changeset_shaped cs Hcs) Hp) as (wire_text & Hs & Hparse).
  exists wire_text. cbn [getChangeset]. rewrite Hs. split; [done|].
  unfold applyChangeset, mbind, Comp_bind, lift, throw, modify.
  rewrite Hparse, (changeset_is_valid cs Hcs). by destruct answer.
Qed.

(** The change of [alice_changes] is pulled on one peer and applied on
    another one. *)
Lemma changeset_reaches_the_peer_witness :
  exists wire_text,
    getChangeset (Normal alice_changes) = Normal (Some wire_text)
    /\ applyChangeset wire_text (Normal tt) []
       = Within (Normal tt, [] ++ [alice_changes]).
Proof.
  apply (changeset_reaches_the_peer alice_changes (Normal tt) []).
  - vm_compute. reflexivity.
  - vm_compute. reflexivity.
Defined.

(** ** Bigints at any depth *)

(** Extra X10.  [jsonParseWithBigInt(jsonStringifyWithBigInt(v))] is [v]
    for every JSON-shaped value with bigints at any depth, in arrays and in
    objects, in which no string starts with [BIGINT::]. *)
Theorem bigints_survive_at_any_depth v :
  json_shaped true v = true -> plain_strings v = true ->
  option_map jsonParseWithBigInt (jsonStringifyWithBigInt v)
  = Some (Within (Normal v)).
Proof.
  intros Hs Hp. destruct (json_round_trip v Hs Hp) as (wire_text & -> & Hparse).
  cbn. by rewrite Hparse.
Qed.

Definition nested_bigints : value :=
  VObj [("version", VBigInt 18446744073709551616);
        ("rows", VArr [VObj [("id", VBigInt (-1)); ("name", VStr "Alice")]; VNull]);
        ("ratio", VNum (Finite true (list_ascii_of_string "25") 0))].

Lemma bigints_survive_at_any_depth_witness :
  option_map jsonParseWithBigInt (jsonStringifyWithBigInt nested_bigints)
  = Some (Within (Normal nested_bigints)).
Proof.
  apply bigints_survive_at_any_depth; vm_compute; reflexivity.
Defined.

(** ** Strings the reviver cannot read *)

(** The value holds a string that starts with [BIGINT::] and does not go on
    with an integer literal. *)
Fixpoint unreadable (v : value) : bool :=
  match v with
  | VStr s =>
      startsWith s BIGINT_prefix
      && match StringToBigInt (substring_from 8 s) with
         | Some _ => false
         | None => true
         end
  | VArr elems => existsb unreadable elems
  | VObj props => existsb (fun kv => unreadable (snd kv)) props
  | _ => false
  end.

Definition syntax_error_or_value (r : completion value) : Prop :=
  match r with
  | Normal _ => True
  | Throw t => t = SyntaxError
  end.

Lemma reviver_throws v : syntax_error_or_value (reviver v).
Proof.
  destruct v as [| | | | |s| |]; try done. cbn.
  destruct (startsWith _ _); [|done]. by destruct (StringToBigInt _).
Qed.

Lemma internalize_throws v : syntax_error_or_value (InternalizeJSONProperty reviver v).
Proof.
  induction v as [| |b|n|z|s|elems IH|props IH] using value_ind'; try done.
  - apply reviver_throws.
  - cbn [InternalizeJSONProperty].
    match goal with
    | |- syntax_error_or_value (match ?x with _ => _ end) =>
        assert (E : match x with Normal _ => True | Throw t => t = SyntaxError end)
    end.
    { induction IH as [|e es He _ IHes]; [done|].
      destruct (InternalizeJSONProperty reviver e) as [e'|t]; [|exact He].
      match type of IHes with match ?y with _ => _ end => destruct y end; done. }
    match goal with
    | |- syntax_error_or_value (match ?x with _ => _ end) => destruct x
    end; [apply reviver_throws|exact E].
  - cbn [InternalizeJSONProperty].
    match goal with
    | |- syntax_error_or_value (match ?x with _ => _ end) =>
        assert (E : match x with Normal _ => True | Throw t => t = SyntaxError end)
    end.
    { induction IH as [|[k e] ps He _ IHps]; [done|]. cbn [snd] in He.
      destruct (InternalizeJSONProperty reviver e) as [e'|t]; [|exact He].
      match type of IHps with match ?y with _ => _ end => destruct y end; done. }
    match goal with
    | |- syntax_error_or_value (match ?x with _ => _ end) => destruct x
    end; [apply reviver_throws|exact E].
Qed.

Lemma internalize_unreadable v :
  unreadable v = true -> InternalizeJSONProperty reviver (wire v) = Throw SyntaxError.
Proof.
  induction v as [| |b|n|z|s|elems IH|props IH] using value_ind'; try done.
  - cbn. intros [Hs Hn]%andb_true_iff. rewrite Hs.
    by destruct (StringToBigInt _).
  - cbn [unreadable wire InternalizeJSONProperty]. intros Hex.
    match goal with
    | |- match ?x with _ => _ end = _ => assert (E : x = Throw SyntaxError)
    end.
    { induction IH as [|e es He _ IHes]; [done|].
      cbn [existsb] in Hex. cbn [map].
      pose proof (internalize_throws (wire e)) as Ht.
      destruct (unreadable e) eqn:Hu; [by rewrite He|].
      destruct (InternalizeJSONProperty reviver (wire e)) as [e'|t];
        [by rewrite IHes|cbn in Ht; by subst]. }
    by rewrite E.
  - cbn [unreadable wire InternalizeJSONProperty]. intros Hex.
    match goal with
    | |- match ?x with _ => _ end = _ => assert (E : x = Throw SyntaxError)
    end.
    { induction IH as [|[k e] ps He _ IHps]; [done|].
      cbn [existsb snd] in Hex. cbn [map fst snd] in He |- *.
      pose proof (internalize_throws (wire e)) as Ht.
      destruct (unreadable e) eqn:Hu; [by rewrite He|].
      destruct (InternalizeJSONProperty reviver (wire e)) as [e'|t];
        [by rewrite IHps|cbn in Ht; by subst]. }
    by rewrite E.
Qed.

(** Extra X11.  A JSON-shaped value that holds, at any depth, a string
    which starts with [BIGINT::] and does not go on with an integer literal
    is serialised, but its text cannot be parsed back:
    [jsonParseWithBigInt] throws a [SyntaxError], and so does
    [applyChangeset], without calling [applyChanges]. *)
Theorem unreadable_string_fails_the_parse v answer applied :
  json_shaped true v = true -> unreadable v = true ->
  exists wire_text,
    jsonStringifyWithBigInt v = Some wire_text
    /\ jsonParseWithBigInt wire_text = Within (Throw SyntaxError)
    /\ applyChangeset wire_text answer applied = Within (Throw SyntaxError, applied).
Proof.
  intros Hs Hu. exists (string_of_list_ascii (text_of v)).
  assert (Hparse : jsonParseWithBigInt (string_of_list_ascii (text_of v))
                   = Within (Throw SyntaxError)).
  { unfold jsonParseWithBigInt.
    rewrite list_ascii_of_string_of_list_ascii, (JSON_parse_text_of v Hs).
    f_equal. by apply internalize_unreadable. }
  unfold jsonStringifyWithBigInt. rewrite (Serialize_shaped v Hs).
  split; [done|]. split; [done|].
  unfold applyChangeset, mbind, Comp_bind, lift. by rewrite Hparse.
Qed.

(** A note whose text starts with [BIGINT::]. *)
Definition hello_changes : value :=
  VArr [VArr [VStr "notes"; VStr "1"; VBigInt 1; VBigInt 1; VBigInt 2;
              VNum (num_of_Z 1); VNum (num_of_Z 0); VStr "BIGINT::hello"]].

Lemma unreadable_string_fails_the_parse_witness :
  exists wire_text,
    jsonStringifyWithBigInt hello_changes = Some wire_text
    /\ jsonParseWithBigInt wire_text = Within (Throw SyntaxError)
    /\ applyChangeset wire_text (Normal tt) [] = Within (Throw SyntaxError, []).
Proof.
  apply (unreadable_string_fails_the_parse hello_changes (Normal tt) []).
  - vm_compute. reflexivity.
  - vm_compute. reflexivity.
Defined.

(** * Prepared statements: properties *)

Import CRSQLitePreparedQuery.

Lemma finalize_count_app st cs1 cs2 :
  finalize_count st (cs1 ++ cs2) = (finalize_count st cs1 + finalize_count st cs2)%nat.
Proof. unfold finalize_count. by rewrite List.filter_app, length_app. Qed.

Lemma execution_contexts_app cs1 cs2 :
  execution_contexts (cs1 ++ cs2) = execution_contexts cs1 ++ execution_contexts cs2.
Proof. unfold execution_contexts. by rewrite flat_map_app. Qed.

Ltac run_session :=
  unfold execute, run, all, get, values, logQuery, emit, cleanup, collected,
    mbind, Comp_bind, mret, Comp_ret, gets, modify, throw, lift, when, await;
  cbn.

(** The calls by which a mode has the engine execute the statement. *)
Definition dispatch (q : t) (st : Stmt) (ps : list value) (m : Mode) : list EngineCall :=
  match m with
  | Run _ => [ERun st (tx q) ps]
  | All _ => [ERaw st (is_some (customResultMapper q)); EAll st (tx q) ps]
  | Get _ => [ERaw st (is_some (customResultMapper q)); EGet st (tx q) ps]
  | Values _ => [ERaw st true; EAll st None ps]
  end.

Section SessionFacts.
Context `{Platform}.

(** The calls one execution adds. *)
Lemma execute_calls q pv m s st ps :
  stmt q = Fulfilled st ->
  fillPlaceholders (params q) pv = Normal ps ->
  calls (snd (execute q pv m s)) =
  calls s ++ [ELogQuery (sql q) ps] ++ dispatch q st ps m
    ++ (if oneTime q && negb (engine_throws m) then [EFinalize st (tx q)] else []).
Proof.
  intros Hst Hps.
  destruct m as [[[]|t]|[rows|t]|[row|t]|[rows|t]]; run_session;
    rewrite Hps, Hst; cbn; destruct (oneTime q); cbn;
    try destruct (falsy row); cbn;
    rewrite <- ?app_assoc; cbn; reflexivity.
Qed.

Lemma finalize_count_dispatch q st ps m : finalize_count st (dispatch q st ps m) = 0%nat.
Proof. by destruct m. Qed.

(** Claim C7, amended.  One execution of a prepared statement, in any of
    the four modes, finalizes the statement once if it is one-time and the
    engine call returns, and not at all if the statement is long-lived or
    the engine call throws.  When the filling of the placeholders throws,
    the execution ends with that exception before anything is logged,
    executed or finalized; when the promise of the engine's [prepare] is
    rejected, it ends with the rejection after the statement has been
    logged, and nothing is executed or finalized.  The constructor makes a
    statement one-time exactly when it is given no finalization registry,
    and registers it otherwise.  When the registry's callback runs for a
    registered statement, the statement is finalized once and its
    registration is gone. *)
Theorem statement_finalization :
  (forall q pv m s st ps,
     stmt q = Fulfilled st ->
     fillPlaceholders (params q) pv = Normal ps ->
     finalize_count st (calls (snd (execute q pv m s))) =
     (finalize_count st (calls s)
      + (if oneTime q && negb (engine_throws m) then 1 else 0))%nat)
  /\ (forall q pv m s t,
        fillPlaceholders (params q) pv = Throw t ->
        execute q pv m s = (Throw t, s))
  /\ (forall q pv m s ps t,
        fillPlaceholders (params q) pv = Normal ps ->
        stmt q = Rejected t ->
        fst (execute q pv m s) = Throw t
        /\ calls (snd (execute q pv m s)) = calls s ++ [ELogQuery (sql q) ps]
        /\ forall st, finalize_count st (calls (snd (execute q pv m s)))
                      = finalize_count st (calls s))
  /\ (forall text ps registry bound mapper prepared s,
        let r := new text ps registry bound mapper prepared s in
        exists q, fst r = Normal q
          /\ oneTime q = negb registry
          /\ stmt q = prepared /\ tx q = bound
          /\ registered (snd r) =
             registered s ++ (if registry then [mkHeld prepared bound] else []))
  /\ (forall s k held st,
        nth_error (registered s) k = Some held ->
        held_stmt held = Fulfilled st ->
        let s' := snd (collected k s) in
        finalize_count st (calls s') = S (finalize_count st (calls s))
        /\ registered s' = remove_nth k (registered s)).
Proof.
  split; [|split; [|split; [|split]]].
  - intros q pv m s st ps Hst Hps.
    rewrite (execute_calls q pv m s st ps Hst Hps).
    rewrite !finalize_count_app, finalize_count_dispatch.
    destruct (oneTime q && negb (engine_throws m)); cbn; [|lia].
    rewrite Nat.eqb_refl. cbn. lia.
  - intros q pv m s t Hps. destruct m; run_session; by rewrite Hps.
  - intros q pv m s ps t Hps Hst.
    assert (E : execute q pv m s
                = (Throw t,
                   mkSession (calls s ++ [ELogQuery (sql q) ps])
                     (match tableCollector s with
                      | Some set =>
                          Some (fold_left (fun acc t => set_add t acc)
                                  (extractTableNames (sql q)) set)
                      | None => None
                      end)
                     (registered s))).
    { destruct m; run_session; by rewrite Hps, Hst. }
    rewrite E. cbn [fst snd calls]. split; [done|]. split; [done|].
    intros st. rewrite finalize_count_app. cbn. lia.
  - intros text ps registry bound mapper prepared s r. subst r.
    unfold new. run_session. destruct registry; cbn; eexists; repeat split.
    by rewrite app_nil_r.
  - intros s k [hs ht] st Hk Hst. cbn in Hst. subst hs.
    run_session. rewrite Hk. cbn.
    split; [|done]. rewrite List.filter_app, length_app. cbn.
    rewrite Nat.eqb_refl. cbn. unfold finalize_count. lia.
Qed.

End SessionFacts.

(** A platform without placeholders and without table names, for the
    examples. *)
Definition plain_platform : Platform :=
  {| fillPlaceholders := fun ps _ => Normal ps;
     extractTableNames := fun _ => [] |}.

Definition no_calls : SessionState := mkSession [] None [].

Definition one_time_insert : t :=
  mk "insert into users values (?)" [VStr "Alice"] (Fulfilled 1%nat) None true None.

Definition constraint_failed : thrown :=
  ThrowError (mkError "Error" "UNIQUE constraint failed").

(** A one-time insert executed in [get] mode is finalized once. *)
Lemma statement_finalization_witness :
  finalize_count 1%nat
    (calls (snd (@execute plain_platform one_time_insert [] (Get (Normal VUndefined)) no_calls)))
  = 1%nat.
Proof.
  apply (proj1 (@statement_finalization plain_platform)
           one_time_insert [] (Get (Normal VUndefined)) no_calls 1%nat [VStr "Alice"]).
  - reflexivity.
  - reflexivity.
Defined.

(** Claim C7 as stated fails: a one-time statement whose execution throws
    is never finalized. *)
Lemma one_time_statement_leaks_on_error :
  oneTime one_time_insert = true
  /\ calls (snd (@execute plain_platform one_time_insert [] (Run (Throw constraint_failed)) no_calls))
     = [ELogQuery "insert into users values (?)" [VStr "Alice"];
        ERun 1%nat None [VStr "Alice"]]
  /\ finalize_count 1%nat
       (calls (snd (@execute plain_platform one_time_insert [] (Run (Throw constraint_failed)) no_calls)))
     = 0%nat.
Proof. vm_compute. repeat split. Qed.

(** ** The transaction a statement runs in *)

Section TransactionFacts.
Context `{Platform}.

Theorem execution_context_of_modes q pv m s st ps :
  stmt q = Fulfilled st ->
  fillPlaceholders (params q) pv = Normal ps ->
  execution_contexts (calls (snd (execute q pv m s))) =
  execution_contexts (calls s) ++ [match m with Values _ => None | _ => tx q end].
Proof.
  intros Hst Hps. rewrite (execute_calls q pv m s st ps Hst Hps).
  rewrite !execution_contexts_app. f_equal.
  destruct m; cbn; by destruct (oneTime q && _).
Qed.

End TransactionFacts.

Definition select_in_transaction : t :=
  mk "select name from users" [] (Fulfilled 1%nat) (Some 7%nat) true None.

(** Claim C8, the code at the failing input.  A statement bound to the
    transaction [7] and executed in [values] mode calls [stmt.all] with
    [null] in place of the transaction. *)
Lemma values_leaves_the_transaction :
  tx select_in_transaction = Some 7%nat
  /\ calls (snd (@values plain_platform select_in_transaction [] (Normal []) no_calls))
     = [ELogQuery "select name from users" [];
        ERaw 1%nat true;
        EAll 1%nat None [];
        EFinalize 1%nat (Some 7%nat)]
  /\ execution_contexts
       (calls (snd (@values plain_platform select_in_transaction [] (Normal []) no_calls)))
     = [None].
Proof. vm_compute. repeat split. Qed.

(** * Transactions: properties *)

Section TransactionProtocol.
Context `{TxEngine}.
Context {T : Type}.

(** The calls of one [exec]. *)
Definition exec_calls (tx : option TX) (query : string) : list TxCall :=
  [TLogQuery query; TExec tx query].

Definition savepoint_query (nestedIndex : nat) : string :=
  "SAVEPOINT " +:+ savepointName nestedIndex +:+ ";".

(** The query that ends the savepoint: a release after a callback that
    returned, a rollback after one that threw. *)
Definition end_query (returned : bool) (nestedIndex : nat) : string :=
  (if returned then "RELEASE savepoint " else "ROLLBACK TO savepoint ")
  +:+ savepointName nestedIndex +:+ ";".

Definition returned {A} (r : completion A) : bool :=
  match r with Normal _ => true | Throw _ => false end.

(** [depth] transactions, each started in the callback of the one around
    it, the innermost callback being [inner]. *)
Fixpoint nest (tx : option TX) (depth : nat) (inner : nat -> Comp (list TxCall) T)
    (nestedIndex : nat) : Comp (list TxCall) T :=
  match depth with
  | O => inner nestedIndex
  | S depth' => nested_transaction tx nestedIndex (nest tx depth' inner)
  end.

Definition opening (tx : option TX) (nestedIndex depth : nat) : list TxCall :=
  flat_map (fun k => exec_calls tx (savepoint_query k)) (seq nestedIndex depth).

Definition closing (tx : option TX) (nestedIndex depth : nat) (ok : bool) : list TxCall :=
  flat_map (fun k => exec_calls tx (end_query ok k)) (rev (seq nestedIndex depth)).

(** The engine runs every [exec] on the transaction [tx]. *)
Definition obliging (tx : option TX) : Prop :=
  forall before query, exec_answer before tx query = Normal tt.

Lemma exec_obliging tx query calls :
  obliging tx -> exec tx query calls = (Normal tt, calls ++ exec_calls tx query).
Proof.
  intros Hok. unfold exec, call, mbind, Comp_bind, gets, modify, lift. cbn.
  rewrite Hok. by rewrite <- app_assoc.
Qed.

Lemma nested_transaction_obliging tx nestedIndex
    (transaction : nat -> Comp (list TxCall) T) calls :
  obliging tx ->
  nested_transaction tx nestedIndex transaction calls =
  let '(r, calls1) :=
    transaction (S nestedIndex) (calls ++ exec_calls tx (savepoint_query nestedIndex)) in
  (r, calls1 ++ exec_calls tx (end_query (returned r) nestedIndex)).
Proof.
  intros Hok. unfold nested_transaction, try_catch.
  unfold mbind at 1, Comp_bind at 1. rewrite exec_obliging by done.
  fold (savepoint_query nestedIndex).
  unfold mbind, Comp_bind.
  destruct (transaction _ _) as [[v|t] calls1]; rewrite exec_obliging by done; done.
Qed.

Lemma nest_obliging tx depth inner : forall nestedIndex calls,
  obliging tx ->
  nest tx depth inner nestedIndex calls =
  let '(r, calls1) :=
    inner (nestedIndex + depth)%nat (calls ++ opening tx nestedIndex depth) in
  (r, calls1 ++ closing tx nestedIndex depth (returned r)).
Proof.
  induction depth as [|depth IH]; intros nestedIndex calls Hok.
  - cbn. rewrite Nat.add_0_r, app_nil_r. destruct (inner _ _). by rewrite app_nil_r.
  - cbn [nest]. rewrite nested_transaction_obliging by done.
    rewrite IH by done.
    replace (S nestedIndex + depth)%nat with (nestedIndex + S depth)%nat by lia.
    unfold opening, closing. cbn [seq flat_map rev].
    rewrite <- app_assoc.
    destruct (inner _ _) as [r calls1].
    rewrite flat_map_app. cbn [flat_map]. by rewrite app_nil_r, <- app_assoc.
Qed.

(** Extra X12.  On an engine that runs every [exec], transactions started
    one inside the other open the savepoints [sp<n>], [sp<n+1>], ..., run
    the innermost callback, and then end the savepoints in the reverse
    order: with [RELEASE] when the innermost callback returned, with
    [ROLLBACK TO] when it threw.  The outcome of the innermost callback is
    the outcome of the outermost transaction. *)
Theorem savepoints_are_nested tx depth inner nestedIndex calls :
  obliging tx ->
  let r := inner (nestedIndex + depth)%nat (calls ++ opening tx nestedIndex depth) in
  nest tx depth inner nestedIndex calls
  = (fst r, snd r ++ closing tx nestedIndex depth (returned (fst r))).
Proof.
  intros Hok. cbn zeta. rewrite nest_obliging by done. by destruct (inner _ _).
Qed.

(** Extra X13.  When the engine grants the lock and runs every [exec],
    [CRSQLiteSession.transaction] takes the lock, opens the savepoint
    [sp0], runs the callback, ends the savepoint with [RELEASE] or with
    [ROLLBACK TO] according to how the callback ended, and calls [release]
    once, as the last thing; its outcome is the callback's. *)
Theorem transaction_releases_the_lock (transaction : nat -> Comp (list TxCall) T) calls tx :
  imperativeTx_answer calls = Normal tx ->
  obliging (Some tx) ->
  (forall before, release_answer before = Normal tt) ->
  let r := transaction 1%nat
             (calls ++ [TImperativeTx] ++ exec_calls (Some tx) (savepoint_query 0)) in
  session_transaction transaction calls
  = (fst r,
     snd r ++ exec_calls (Some tx) (end_query (returned (fst r)) 0) ++ [TRelease]).
Proof.
  intros Htx Hok Hrel. cbn zeta.
  unfold session_transaction, try_catch.
  unfold mbind at 1, Comp_bind at 1, gets at 1. cbn beta iota.
  unfold mbind at 1, Comp_bind at 1, call at 1, modify at 1. cbn beta iota.
  unfold mbind at 1, Comp_bind at 1, lift at 1. rewrite Htx. cbn beta iota.
  unfold mbind at 1, Comp_bind at 1.
  rewrite nested_transaction_obliging by done.
  rewrite <- app_assoc.
  destruct (transaction _ _) as [[v|t] calls1];
    unfold mbind, Comp_bind, gets, call, modify, lift, throw, mret, Comp_ret;
    cbn; rewrite Hrel; by rewrite <- ?app_assoc.
Qed.

(** Extra X14.  Three failures of [CRSQLiteSession.transaction].  When
    [imperativeTx] is rejected, nothing else is called.  When the
    [SAVEPOINT] is rejected, the callback is not run, nothing is rolled
    back and [release] is called once.  When the [RELEASE] after a callback
    that returned is rejected, [ROLLBACK TO] follows, [release] is called
    once, and the caller gets the error of the [RELEASE]. *)
Theorem transaction_failures (transaction : nat -> Comp (list TxCall) T) calls :
  (forall t,
     imperativeTx_answer calls = Throw t ->
     session_transaction transaction calls = (Throw t, calls ++ [TImperativeTx]))
  /\ (forall tx t,
        imperativeTx_answer calls = Normal tx ->
        (forall before, release_answer before = Normal tt) ->
        exec_answer (calls ++ [TImperativeTx; TLogQuery (savepoint_query 0)])
          (Some tx) (savepoint_query 0) = Throw t ->
        session_transaction transaction calls
        = (Throw t,
           calls ++ [TImperativeTx] ++ exec_calls (Some tx) (savepoint_query 0)
           ++ [TRelease]))
  /\ (forall tx t v calls1,
        imperativeTx_answer calls = Normal tx ->
        (forall before, release_answer before = Normal tt) ->
        (forall before query,
           exec_answer before (Some tx) query
           = if String.eqb query (end_query true 0) then Throw t else Normal tt) ->
        transaction 1%nat
          (calls ++ [TImperativeTx] ++ exec_calls (Some tx) (savepoint_query 0))
        = (Normal v, calls1) ->
        session_transaction transaction calls
        = (Throw t,
           calls1 ++ exec_calls (Some tx) (end_query true 0)
           ++ exec_calls (Some tx) (end_query false 0) ++ [TRelease])).
Proof.
  split; [|split].
  - intros t Htx. unfold session_transaction.
    unfold mbind at 1, Comp_bind at 1, gets at 1. cbn beta iota.
    unfold mbind at 1, Comp_bind at 1, call at 1, modify at 1. cbn beta iota.
    unfold mbind at 1, Comp_bind at 1, lift at 1. by rewrite Htx.
  - intros tx t Htx Hrel Hsp. unfold session_transaction, try_catch.
    unfold mbind at 1, Comp_bind at 1, gets at 1. cbn beta iota.
    unfold mbind at 1, Comp_bind at 1, call at 1, modify at 1. cbn beta iota.
    unfold mbind at 1, Comp_bind at 1, lift at 1. rewrite Htx. cbn beta iota.
    unfold nested_transaction. fold (savepoint_query 0).
    unfold mbind at 1, Comp_bind at 1.
    unfold mbind at 1, Comp_bind at 1.
    assert (Hexec : exec (Some tx) (savepoint_query 0) (calls ++ [TImperativeTx])
                    = (Throw t, calls ++ [TImperativeTx]
                                ++ exec_calls (Some tx) (savepoint_query 0))).
    { unfold exec, call, mbind, Comp_bind, gets, modify, lift. cbn.
      rewrite <- app_assoc. cbn. rewrite Hsp. by rewrite <- !app_assoc. }
    rewrite Hexec.
    unfold mbind, Comp_bind, gets, call, modify, lift, throw. cbn.
    rewrite Hrel. by rewrite <- !app_assoc.
  - intros tx t v calls1 Htx Hrel Hexec Hbody.
    unfold session_transaction, try_catch.
    unfold mbind at 1, Comp_bind at 1, gets at 1. cbn beta iota.
    unfold mbind at 1, Comp_bind at 1, call at 1, modify at 1. cbn beta iota.
    unfold mbind at 1, Comp_bind at 1, lift at 1. rewrite Htx. cbn beta iota.
    assert (Hq : forall q calls0,
              exec (Some tx) q calls0
              = ((if String.eqb q (end_query true 0) then Throw t else Normal tt),
                 calls0 ++ exec_calls (Some tx) q)).
    { intros q calls0. unfold exec, call, mbind, Comp_bind, gets, modify, lift. cbn.
      rewrite Hexec. rewrite <- app_assoc. by destruct (String.eqb _ _). }
    unfold nested_transaction, try_catch. fold (savepoint_query 0).
    fold (end_query true 0). fold (end_query false 0).
    unfold mbind at 1, Comp_bind at 1.
    unfold mbind at 1, Comp_bind at 1.
    rewrite Hq. change (String.eqb (savepoint_query 0) (end_query true 0)) with false.
    cbn beta iota.
    unfold mbind at 1, Comp_bind at 1. rewrite <- app_assoc, Hbody.
    unfold mbind at 1, Comp_bind at 1. rewrite Hq, String.eqb_refl.
    unfold mbind at 1, Comp_bind at 1. rewrite Hq.
    change (String.eqb (end_query false 0) (end_query true 0)) with false.
    unfold mbind, Comp_bind, gets, call, modify, lift, throw. cbn.
    rewrite Hrel. by rewrite <- !app_assoc.
Qed.

End TransactionProtocol.

(** An engine that grants every request; the transaction it hands out is
    [7]. *)
Definition obliging_engine : TxEngine :=
  {| imperativeTx_answer := fun _ => Normal 7%nat;
     release_answer := fun _ => Normal tt;
     exec_answer := fun _ _ _ => Normal tt |}.

(** An engine whose lock cannot be taken. *)
Definition busy : thrown := ThrowError (mkError "Error" "database is locked").

Definition busy_engine : TxEngine :=
  {| imperativeTx_answer := fun _ => Throw busy;
     release_answer := fun _ => Normal tt;
     exec_answer := fun _ _ _ => Normal tt |}.

(** A callback that inserts a row and returns. *)
Definition insert_row : nat -> Comp (list TxCall) value :=
  fun _ calls => (Normal VNull, calls ++ [TExec (Some 7%nat) "insert into users values (1)"]).

(** A callback that inserts a row and then throws. *)
Definition insert_and_throw : nat -> Comp (list TxCall) value :=
  fun _ calls => (Throw boom, calls ++ [TExec (Some 7%nat) "insert into users values (1)"]).

(** Two transactions, one in the other, around a callback that throws. *)
Lemma savepoints_are_nested_witness :
  @nest obliging_engine value (Some 7%nat) 2 insert_and_throw 0 []
  = (Throw boom,
     [TLogQuery "SAVEPOINT sp0;"; TExec (Some 7%nat) "SAVEPOINT sp0;";
      TLogQuery "SAVEPOINT sp1;"; TExec (Some 7%nat) "SAVEPOINT sp1;";
      TExec (Some 7%nat) "insert into users values (1)";
      TLogQuery "ROLLBACK TO savepoint sp1;"; TExec (Some 7%nat) "ROLLBACK TO savepoint sp1;";
      TLogQuery "ROLLBACK TO savepoint sp0;"; TExec (Some 7%nat) "ROLLBACK TO savepoint sp0;"]).
Proof.
  apply (@savepoints_are_nested obliging_engine value (Some 7%nat) 2 insert_and_throw 0 []).
  intros before query. reflexivity.
Defined.

Lemma transaction_releases_the_lock_witness :
  @session_transaction obliging_engine value insert_row []
  = (Normal VNull,
     [TImperativeTx;
      TLogQuery "SAVEPOINT sp0;"; TExec (Some 7%nat) "SAVEPOINT sp0;";
      TExec (Some 7%nat) "insert into users values (1)";
      TLogQuery "RELEASE savepoint sp0;"; TExec (Some 7%nat) "RELEASE savepoint sp0;";
      TRelease]).
Proof.
  apply (@transaction_releases_the_lock obliging_engine value insert_row [] 7%nat).
  - reflexivity.
  - intros before query. reflexivity.
  - intros before. reflexivity.
Defined.

Lemma transaction_failures_witness :
  @session_transaction busy_engine value insert_row [] = (Throw busy, [TImperativeTx]).
Proof.
  apply (proj1 (@transaction_failures busy_engine value insert_row []) busy).
  reflexivity.
Defined.

(** * The table names of a statement: properties *)

Import live_query.



(** ** The names [extractTableNames] returns *)

Definition is_lower_word (c : ascii) : bool :=
  let n := nat_of_ascii c in
  ((48 <=? n)%nat && (n <=? 57)%nat) || (n =? 95)%nat || ((97 <=? n)%nat && (n <=? 122)%nat).

Definition lower (s : text) : text := map to_lower_char s.

Lemma lower_word_char c : is_word_char c = true -> is_lower_word (to_lower_char c) = true.
Proof. destruct c as [[] [] [] [] [] [] [] []]; vm_compute; done. Qed.

Lemma to_lower_char_idem c : to_lower_char (to_lower_char c) = to_lower_char c.
Proof. destruct c as [[] [] [] [] [] [] [] []]; reflexivity. Qed.

Lemma is_word_char_lower c : is_word_char (to_lower_char c) = is_word_char c.
Proof. destruct c as [[] [] [] [] [] [] [] []]; reflexivity. Qed.

Lemma is_js_space_lower c : is_js_space (to_lower_char c) = is_js_space c.
Proof. destruct c as [[] [] [] [] [] [] [] []]; reflexivity. Qed.

Lemma backtick_lower c :
  Ascii.eqb (to_lower_char c) "`"%char = Ascii.eqb c "`"%char.
Proof. destruct c as [[] [] [] [] [] [] [] []]; reflexivity. Qed.

Lemma toLowerCase_lower s :
  list_ascii_of_string (toLowerCase s) = lower (list_ascii_of_string s).
Proof. induction s as [|c s IH]; [done|]. cbn. by rewrite IH. Qed.

Lemma toLowerCase_of_list l :
  toLowerCase (string_of_list_ascii l) = string_of_list_ascii (lower l).
Proof. induction l as [|c l IH]; [done|]. cbn. by rewrite IH. Qed.

(** A group of the expression: a non-empty run of word characters. *)
Definition identifier (name : text) : Prop :=
  name <> [] /\ Forall (fun c => is_word_char c = true) name.

Lemma word_spec s :
  Forall (fun c => is_word_char c = true) (fst (word s)) /\ s = fst (word s) ++ snd (word s).
Proof.
  induction s as [|c s [IH1 IH2]]; [done|]. cbn.
  destruct (is_word_char c) eqn:Hc; [|done].
  destruct (word s) as [w rest]. cbn in *. split; [by constructor|by f_equal].
Qed.

Lemma table_name_identifier s name rest :
  table_name s = Some (name, rest) -> identifier name.
Proof.
  unfold table_name. destruct (spaces s) as [s1|]; [|done]. cbn.
  pose proof (word_spec (backtick s1)) as [Hw _].
  destruct (word (backtick s1)) as [[|c w] s2]; [done|].
  intros [= <- <-]. by split.
Qed.

Lemma match_here_identifier s name rest :
  match_here s = Some (name, rest) -> identifier name.
Proof.
  unfold match_here. generalize keywords as ks.
  induction ks as [|k ks IH]; [done|].
  destruct (k s ≫= table_name) as [[n r]|] eqn:Hk; [|exact IH].
  intros [= -> ->]. destruct (k s) as [s1|]; [|done]. cbn in Hk.
  by apply table_name_identifier in Hk.
Qed.

Lemma matches_identifiers s : forall inside after_word,
  Forall identifier (matches inside after_word s).
Proof.
  induction s as [|c s IH]; intros inside after_word; [constructor|].
  cbn [matches]. destruct inside as [|inside]; [|apply IH].
  destruct (if after_word then None else match_here (c :: s)) as [[name rest]|] eqn:Hm;
    [|apply IH].
  constructor; [|apply IH].
  destruct after_word; [done|]. by apply match_here_identifier in Hm.
Qed.

(** The tables as a [Set], from the groups. *)
Definition collect_names (names : list text) (tables : list string) : list string :=
  fold_left (fun tables name => set_add (toLowerCase (string_of_list_ascii name)) tables)
    names tables.

Lemma collect_names_spec names : forall tables,
  (forall t, t ∈ collect_names names tables
             <-> t ∈ tables
                 \/ exists name, In name names /\ t = toLowerCase (string_of_list_ascii name))
  /\ (NoDup tables -> NoDup (collect_names names tables)).
Proof.
  induction names as [|n names IH]; intros tables; cbn.
  - split; [|done]. intros t. split; [by left|]. by intros [?|(? & [] & _)].
  - destruct (IH (set_add (toLowerCase (string_of_list_ascii n)) tables)) as [I1 I2].
    split.
    + intros t. rewrite I1, elem_of_set_add. split.
      * intros [[?| ->]|(name & Hin & ->)]; [by left| |].
        -- right. exists n. split; [by left|done].
        -- right. exists name. split; [by right|done].
      * intros [?|(name & [<-|Hin] & ->)]; [by left; left|by left; right|].
        right. by exists name.
    + intros Hnd. by apply I2, NoDup_set_add.
Qed.

(** Extra X15.  [extractTableNames] returns no name twice, and every name
    it returns is a non-empty string of lower-case letters, digits and
    underscores. *)
Theorem extracted_names_are_lower_case sql :
  NoDup (extractTableNames sql)
  /\ (forall t, t ∈ extractTableNames sql ->
        t <> "" /\ Forall (fun c => is_lower_word c = true) (list_ascii_of_string t)).
Proof.
  unfold extractTableNames.
  destruct (collect_names_spec (matches 0 false (list_ascii_of_string sql)) []) as [H1 H2].
  split; [apply H2, NoDup_nil_2|].
  intros t Ht. apply H1 in Ht as [Ht|(name & Hin & ->)]; [by apply elem_of_nil in Ht|].
  pose proof (matches_identifiers (list_ascii_of_string sql) 0 false) as Hall.
  rewrite List.Forall_forall in Hall. destruct (Hall _ Hin) as [Hne Hw].
  rewrite toLowerCase_of_list. split.
  - destruct name; [done|]. done.
  - rewrite list_ascii_of_string_of_list_ascii. unfold lower.
    apply Forall_map. eapply Forall_impl; [exact Hw|]. intros c. apply lower_word_char.
Qed.

Lemma extracted_names_are_lower_case_witness :
  "users" <> ""
  /\ Forall (fun c => is_lower_word c = true) (list_ascii_of_string "users").
Proof.
  apply (proj2 (extracted_names_are_lower_case "SELECT * FROM `Users` u")).
  vm_compute. apply list_elem_of_singleton. reflexivity.
Defined.

(** ** Letter case *)

Definition lower_match (m : text * text) : text * text := (lower (fst m), lower (snd m)).

Lemma literal_lower keyword : forall s,
  literal keyword (lower s) = option_map lower (literal keyword s).
Proof.
  induction keyword as [|k keyword IH]; intros s; [done|].
  destruct s as [|c s]; [done|].
  change (lower (c :: s)) with (to_lower_char c :: lower s).
  cbn [literal]. rewrite to_lower_char_idem.
  destruct (Ascii.eqb _ k); [apply IH|done].
Qed.

Lemma trim_start_lower s : trim_start (lower s) = lower (trim_start s).
Proof.
  induction s as [|c s IH]; [done|].
  change (lower (c :: s)) with (to_lower_char c :: lower s).
  cbn [trim_start]. rewrite is_js_space_lower.
  by destruct (is_js_space c).
Qed.

Lemma spaces_lower s : spaces (lower s) = option_map lower (spaces s).
Proof.
  destruct s as [|c s]; [done|].
  change (lower (c :: s)) with (to_lower_char c :: lower s).
  cbn [spaces]. rewrite is_js_space_lower.
  destruct (is_js_space c); [|done]. cbn [option_map]. by rewrite trim_start_lower.
Qed.

Lemma backtick_of_lower s : backtick (lower s) = lower (backtick s).
Proof.
  destruct s as [|c s]; [done|].
  change (lower (c :: s)) with (to_lower_char c :: lower s).
  cbn [backtick]. rewrite backtick_lower.
  by destruct (Ascii.eqb c _).
Qed.

Lemma word_lower s : word (lower s) = lower_match (word s).
Proof.
  induction s as [|c s IH]; [done|].
  change (lower (c :: s)) with (to_lower_char c :: lower s).
  cbn [word]. rewrite is_word_char_lower.
  destruct (is_word_char c); [|done]. rewrite IH. by destruct (word s).
Qed.

Lemma table_name_lower s :
  table_name (lower s) = option_map lower_match (table_name s).
Proof.
  unfold table_name. rewrite spaces_lower.
  destruct (spaces s) as [s1|]; [|done]. cbn.
  rewrite backtick_of_lower, word_lower.
  destruct (word (backtick s1)) as [[|c w] s2]; [done|]. cbn.
  unfold lower_match. cbn. by rewrite <- backtick_of_lower.
Qed.

Lemma keywords_lower :
  Forall (fun k => forall s, k (lower s) = option_map lower (k s)) keywords.
Proof.
  repeat constructor; try (intros s; apply literal_lower).
  intros s. cbn beta. rewrite literal_lower.
  destruct (literal _ s) as [s1|]; [|reflexivity]. cbn -[literal lower spaces].
  rewrite spaces_lower.
  destruct (spaces s1) as [s2|]; [|reflexivity]. cbn -[literal lower].
  apply literal_lower.
Qed.

Lemma match_here_lower s :
  match_here (lower s) = option_map lower_match (match_here s).
Proof.
  unfold match_here. pose proof keywords_lower as Hk. revert Hk.
  generalize keywords as ks. induction 1 as [|k ks Hk _ IH]; [done|].
  rewrite Hk. destruct (k s) as [s1|]; cbn -[table_name lower]; [|exact IH].
  rewrite table_name_lower. destruct (table_name s1) as [m|]; [done|exact IH].
Qed.

Lemma length_lower s : length (lower s) = length s.
Proof. apply length_map. Qed.

Lemma matches_lower s : forall inside after_word,
  matches inside after_word (lower s) = map lower (matches inside after_word s).
Proof.
  induction s as [|c s IH]; intros inside after_word; [done|].
  change (lower (c :: s)) with (to_lower_char c :: lower s).
  cbn [matches]. rewrite is_word_char_lower.
  destruct inside as [|inside]; [|apply IH].
  change (to_lower_char c :: lower s) with (lower (c :: s)).
  destruct after_word; [apply IH|].
  rewrite match_here_lower.
  destruct (match_here (c :: s)) as [[name rest]|]; [|apply IH].
  cbn. by rewrite IH, !length_lower.
Qed.

Lemma collect_names_lower names : forall tables,
  collect_names (map lower names) tables = collect_names names tables.
Proof.
  induction names as [|n names IH]; intros tables; [done|].
  cbn. rewrite IH. do 2 f_equal.
  rewrite !toLowerCase_of_list. f_equal. unfold lower.
  rewrite map_map. apply map_ext. intros c. apply to_lower_char_idem.
Qed.

(** Extra X16.  [extractTableNames] does not depend on the case of the
    letters A to Z in the statement. *)
Theorem extractTableNames_ignores_case sql :
  extractTableNames (toLowerCase sql) = extractTableNames sql.
Proof.
  unfold extractTableNames. rewrite toLowerCase_lower, matches_lower.
  apply collect_names_lower.
Qed.

(** ** Where the names come from *)

Definition keyword_texts : list text :=
  map list_ascii_of_string ["from"; "join"; "update"; "into"].

(** The name [t] stands in the statement behind one of the four words and
    white space, with or without a backtick in front of it. *)
Definition follows_a_keyword (sql : text) (t : string) : Prop :=
  exists before keyword space tick name after,
    sql = before ++ keyword ++ space ++ tick ++ name ++ after
    /\ In (lower keyword) keyword_texts
    /\ space <> [] /\ Forall (fun c => is_js_space c = true) space
    /\ (tick = [] \/ tick = ["`"%char])
    /\ identifier name
    /\ t = toLowerCase (string_of_list_ascii name).

Lemma literal_split keyword : forall s r,
  literal keyword s = Some r -> exists m, s = m ++ r /\ lower m = keyword.
Proof.
  induction keyword as [|k keyword IH]; intros s r.
  - destruct s; intros [= <-]; by exists [].
  - destruct s as [|c s]; [done|]. cbn.
    destruct (Ascii.eqb_spec (to_lower_char c) k) as [<-|_]; [|done].
    intros (m & -> & <-)%IH. by exists (c :: m).
Qed.

Lemma trim_start_split s :
  exists space, s = space ++ trim_start s /\ Forall (fun c => is_js_space c = true) space.
Proof.
  induction s as [|c s (space & Hs & Hall)]; [by exists []|]. cbn.
  destruct (is_js_space c) eqn:Hc; [|by exists []].
  exists (c :: space). split; [cbn; congruence|by constructor].
Qed.

Lemma spaces_split s r :
  spaces s = Some r ->
  exists space, s = space ++ r /\ space <> [] /\ Forall (fun c => is_js_space c = true) space.
Proof.
  destruct s as [|c s]; [done|]. cbn.
  destruct (is_js_space c) eqn:Hc; [|done]. intros [= <-].
  destruct (trim_start_split s) as (space & Hs & Hall).
  exists (c :: space). split; [cbn; congruence|]. split; [done|by constructor].
Qed.

Lemma backtick_split s :
  exists tick, s = tick ++ backtick s /\ (tick = [] \/ tick = ["`"%char]).
Proof.
  destruct s as [|c s].
  { exists (@nil ascii). split; [done|by left]. }
  cbn. destruct (Ascii.eqb_spec c "`"%char) as [->|_].
  - exists ["`"%char]. split; [done|by right].
  - exists (@nil ascii). split; [done|by left].
Qed.

Lemma table_name_split s name rest :
  table_name s = Some (name, rest) ->
  exists space tick after,
    s = space ++ tick ++ name ++ after
    /\ space <> [] /\ Forall (fun c => is_js_space c = true) space
    /\ (tick = [] \/ tick = ["`"%char])
    /\ identifier name.
Proof.
  intros Ht. pose proof (table_name_identifier _ _ _ Ht) as Hid.
  unfold table_name in Ht. destruct (spaces s) as [s1|] eqn:Hs; [|done]. cbn in Ht.
  apply spaces_split in Hs as (space & -> & Hne & Hall).
  destruct (backtick_split s1) as (tick & Hs1 & Htick).
  pose proof (word_spec (backtick s1)) as [_ Hw].
  destruct (word (backtick s1)) as [[|c w] s2]; [done|]. injection Ht as <- <-.
  cbn [fst snd] in Hw. exists space, tick, s2. rewrite Hs1 at 1. rewrite Hw. done.
Qed.

Lemma keywords_split :
  Forall (fun k => forall s r, k s = Some r ->
            exists before keyword,
              s = before ++ keyword ++ r /\ In (lower keyword) keyword_texts) keywords.
Proof.
  assert (Hlit : forall kw, In kw keyword_texts ->
            forall s r, literal kw s = Some r ->
              exists before keyword,
                s = before ++ keyword ++ r /\ In (lower keyword) keyword_texts).
  { intros kw Hkw s r (m & -> & <-)%literal_split. by exists [], m. }
  repeat constructor.
  - apply Hlit. cbn. tauto.
  - apply Hlit. cbn. tauto.
  - apply Hlit. cbn. tauto.
  - apply Hlit. cbn. tauto.
  - intros s r. cbn beta.
    destruct (literal _ s) as [s1|] eqn:H1; [|done]. cbn -[literal spaces].
    destruct (spaces s1) as [s2|] eqn:H2; [|done]. cbn -[literal].
    intros (m & -> & Hm)%literal_split.
    apply literal_split in H1 as (d & -> & _).
    apply spaces_split in H2 as (space & -> & _).
    exists (d ++ space), m. rewrite <- !app_assoc. split; [done|].
    rewrite Hm. cbn. tauto.
Qed.

Lemma match_here_split s name rest :
  match_here s = Some (name, rest) ->
  follows_a_keyword s (toLowerCase (string_of_list_ascii name)).
Proof.
  unfold match_here. pose proof keywords_split as Hk. revert Hk.
  generalize keywords as ks. induction 1 as [|k ks Hk _ IH]; [done|].
  destruct (k s) as [s1|] eqn:Hks; cbn -[table_name]; [|exact IH].
  destruct (table_name s1) as [[n r]|] eqn:Ht; [|exact IH].
  intros [= -> ->].
  destruct (Hk _ _ Hks) as (before & keyword & -> & Hkw).
  apply table_name_split in Ht as (space & tick & after & -> & Hne & Hall & Htick & Hid).
  by exists before, keyword, space, tick, name, after.
Qed.

Lemma follows_later c s t : follows_a_keyword s t -> follows_a_keyword (c :: s) t.
Proof.
  intros (before & keyword & space & tick & name & after & -> & H).
  by exists (c :: before), keyword, space, tick, name, after.
Qed.

Lemma matches_split s : forall inside after_word name,
  In name (matches inside after_word s) ->
  follows_a_keyword s (toLowerCase (string_of_list_ascii name)).
Proof.
  induction s as [|c s IH]; intros inside after_word name; [done|].
  cbn [matches]. destruct inside as [|inside].
  2:{ intros Hin. apply follows_later; by apply IH in Hin. }
  destruct (if after_word then None else match_here (c :: s)) as [[n rest]|] eqn:Hm.
  - intros [->|Hin].
    + destruct after_word; [done|]. by apply match_here_split in Hm.
    + apply follows_later; by apply IH in Hin.
  - intros Hin. apply follows_later; by apply IH in Hin.
Qed.

(** Extra X17.  Every name [extractTableNames] returns stands in the
    statement, in some letter case, directly behind one of the words
    [from], [join], [update], [into] and white space, with or without a
    backtick in front of it.  So a name that occurs only in double quotes,
    or only behind a comma in a list of tables, is not returned. *)
Theorem extracted_names_follow_a_keyword sql t :
  t ∈ extractTableNames sql -> follows_a_keyword (list_ascii_of_string sql) t.
Proof.
  unfold extractTableNames.
  destruct (collect_names_spec (matches 0 false (list_ascii_of_string sql)) []) as [H1 _].
  intros [Ht|(name & Hin & ->)]%H1; [by apply elem_of_nil in Ht|].
  by apply matches_split in Hin.
Qed.

Lemma extracted_names_follow_a_keyword_witness :
  follows_a_keyword (list_ascii_of_string "delete from `Users` where id = 1") "users".
Proof.
  apply (extracted_names_follow_a_keyword "delete from `Users` where id = 1").
  vm_compute. apply list_elem_of_singleton. reflexivity.
Defined.

